(** * K nearest neighbours by truncated Dijkstra

    A verification development for
    [src/use_bhtsne/compute_nearest_neighbours_openmp.cpp]: the vertex
    normaliser, the weight transform, the graph build pass and the
    truncated shortest-path search with its padding of short rows.

    Conventions of the embedding.
    - A C++ [int] is a [Z]; conversions that can wrap are written with
      [to_int].
    - A fixed-size member array ([T a[max_vertices_]]) is a total function
      from the index; every access goes through a bounds test and an
      access outside [0, max_vertices_) ends the run with [Undefined].
    - [std::map<int,int>] is a [gmap Z Z]; its [size()] is a [size_t],
      whose arithmetic wraps at 2^64 ([to_size_t]).
    - [std::set<pair<double,int>>] is a strictly sorted list of pairs,
      ordered by the lexicographic comparison of [std::pair].
    - [double]: the search only adds and compares distances, so it is
      written over a type [D] with an addition and a strict order, and its
      theorems assume the order laws that the doubles of a search share
      with the reals.  The weight transform, which needs [log], is written
      over the extended reals.
    - Parsing is left out: an input file is the list of its rows. *)

From Stdlib Require Import ZArith List Lia Bool Reals Lra Sorting.Sorted.
From stdpp Require Import base gmap list.

Open Scope Z_scope.

(** ** Outcomes of a run *)

(** [Undefined] is an array access out of bounds; [Timeout] is a loop of the
    model that ran out of fuel (shown below never to happen). *)
Inductive result (A : Type) : Type :=
  | Ok (a : A)
  | Undefined
  | Timeout.
Arguments Ok {A} a.
Arguments Undefined {A}.
Arguments Timeout {A}.

#[global] Instance result_ret : MRet result := fun _ a => Ok a.

#[global] Instance result_bind : MBind result := fun _ _ k r =>
  match r with
  | Ok a => k a
  | Undefined => Undefined
  | Timeout => Timeout
  end.

Lemma result_bind_Ok {A B : Type} (a : A) (k : A -> result B) :
  mbind k (Ok a) = k a.
Proof. reflexivity. Qed.

(** ** Machine integers and arrays *)

Definition int_max : Z := 2147483647.

(** Conversion to a 32-bit [int] (two's complement wrap-around). *)
Definition to_int (z : Z) : Z := (z + 2147483648) mod 4294967296 - 2147483648.

Definition max_vertices_ : Z := 60000.

Definition in_range (i : Z) : bool := (0 <=? i) && (i <? max_vertices_).

Definition upd {V : Type} (a : Z -> V) (i : Z) (v : V) : Z -> V :=
  fun j => if j =? i then v else a j.

Lemma upd_eq {V : Type} (a : Z -> V) i v : upd a i v i = v.
Proof. unfold upd. by rewrite Z.eqb_refl. Qed.

Lemma upd_ne {V : Type} (a : Z -> V) i v j : j <> i -> upd a i v j = a j.
Proof. intros Hne. unfold upd. by rewrite (proj2 (Z.eqb_neq j i) Hne). Qed.

(** ** VertexNormalizer *)

Record normalizer : Type := Normalizer {
  vertex_num_to_normalized_num_ : gmap Z Z;
  mapping_out_ : list (Z * Z)
}.

Definition normalizer_init : normalizer := Normalizer ∅ [].

(** Conversion to [size_t], the unsigned 64-bit type of [size()]. *)
Definition to_size_t (z : Z) : Z := z mod 18446744073709551616.

(** [normalize_vertex_num].  In the assignment
    [m[vertex_num] = m.size() - 1] the right operand is evaluated before
    the left one (C++17, [expr.ass]): the size is read before
    [operator[]] inserts the key.  The difference is taken in [size_t]
    and converted to [int], so a new id gets the old size minus one, and
    the first id gets [-1]. *)
Definition normalize_vertex_num (nz : normalizer) (vertex_num : Z)
  : normalizer * Z :=
  let m := vertex_num_to_normalized_num_ nz in
  match m !! vertex_num with
  | Some idx => (nz, idx)
  | None =>
      let idx := to_int (to_size_t (Z.of_nat (size m) - 1)) in
      (Normalizer (<[vertex_num := idx]> m)
                  (mapping_out_ nz ++ [(vertex_num, idx)]),
       idx)
  end.

(** Normalising a sequence of ids, left to right. *)
Fixpoint normalize_all (nz : normalizer) (ids : list Z) : normalizer * list Z :=
  match ids with
  | [] => (nz, [])
  | id :: rest =>
      let '(nz1, i) := normalize_vertex_num nz id in
      let '(nz2, idxs) := normalize_all nz1 rest in
      (nz2, i :: idxs)
  end.

(** The distinct ids of a sequence, in the order of their first occurrence. *)
Definition see (seen : list Z) (id : Z) : list Z :=
  if decide (id ∈ seen) then seen else seen ++ [id].

Definition first_seen (ids : list Z) : list Z := foldl see [] ids.

(** What a reachable normaliser state looks like: [seen] lists the ids
    consumed so far, each once, and the id at position [k] has index
    [k - 1]. *)
Record norm_inv (nz : normalizer) (seen : list Z) : Prop := {
  ni_nodup : NoDup seen;
  ni_size : size (vertex_num_to_normalized_num_ nz) = length seen;
  ni_lookup : forall id i,
      vertex_num_to_normalized_num_ nz !! id = Some i <->
      exists k : nat, i = Z.of_nat k - 1 /\ seen !! k = Some id;
  ni_log : mapping_out_ nz = imap (fun k id => (id, Z.of_nat k - 1)) seen
}.

(** *** Properties of the normaliser *)

Lemma to_int_small z : -2147483648 <= z <= 2147483647 -> to_int z = z.
Proof.
  intros Hz. unfold to_int.
  rewrite Z.mod_small by lia. lia.
Qed.

(** The index of a new id in a table of [n] entries. *)
Lemma new_index_small (n : nat) :
  Z.of_nat n <= int_max + 1 ->
  to_int (to_size_t (Z.of_nat n - 1)) = Z.of_nat n - 1.
Proof.
  intros Hn. unfold int_max in Hn. destruct n as [|n].
  - reflexivity.
  - unfold to_size_t. rewrite Z.mod_small by lia.
    apply to_int_small. lia.
Qed.

Lemma norm_inv_init : norm_inv normalizer_init [].
Proof.
  split; simpl.
  - constructor.
  - apply map_size_empty.
  - intros id i. rewrite lookup_empty. split; [discriminate|].
    intros (k & _ & Hk). discriminate.
  - reflexivity.
Qed.

Lemma norm_inv_seen nz seen id :
  norm_inv nz seen ->
  id ∈ seen <-> is_Some (vertex_num_to_normalized_num_ nz !! id).
Proof.
  intros Hinv. split.
  - intros Hin. apply list_elem_of_lookup in Hin as [k Hk].
    exists (Z.of_nat k - 1). apply (ni_lookup _ _ Hinv). eauto.
  - intros [i Hi]. apply (ni_lookup _ _ Hinv) in Hi as (k & _ & Hk).
    apply list_elem_of_lookup. eauto.
Qed.

(** One call: a known id is answered from the table and nothing changes; a
    new id gets the size of the table minus one. *)
Lemma normalize_vertex_num_step nz seen id :
  norm_inv nz seen ->
  (id ∉ seen -> Z.of_nat (length seen) <= int_max + 1) ->
  norm_inv (fst (normalize_vertex_num nz id)) (see seen id) /\
  vertex_num_to_normalized_num_ (fst (normalize_vertex_num nz id)) !! id
    = Some (snd (normalize_vertex_num nz id)) /\
  (id ∉ seen -> snd (normalize_vertex_num nz id) = Z.of_nat (length seen) - 1).
Proof.
  intros Hinv Hlen. unfold normalize_vertex_num, see.
  destruct (vertex_num_to_normalized_num_ nz !! id) as [i|] eqn:Hid.
  - assert (Hin : id ∈ seen) by (apply (norm_inv_seen _ _ _ Hinv); eauto).
    rewrite decide_True by done. simpl. split; [done|]. split; [done|].
    intros Hn. contradiction.
  - assert (Hnin : id ∉ seen).
    { intros Hin. apply (norm_inv_seen _ _ _ Hinv) in Hin as [i Hi]. congruence. }
    rewrite decide_False by done. cbn [fst snd].
    specialize (Hlen Hnin).
    rewrite (ni_size _ _ Hinv), new_index_small by done.
    split; [|split; [apply lookup_insert_eq|done]].
    split; cbn [vertex_num_to_normalized_num_ mapping_out_].
    + apply NoDup_app. split; [apply (ni_nodup _ _ Hinv)|].
      split; [|apply NoDup_singleton].
      intros x Hx Hx'. apply list_elem_of_singleton in Hx'. subst. contradiction.
    + rewrite map_size_insert_None by done.
      rewrite (ni_size _ _ Hinv), length_app. simpl. lia.
    + intros id' i. rewrite lookup_insert. case_decide as Heq.
      * subst id'. split.
        -- intros [= <-]. exists (length seen). split; [done|].
           rewrite lookup_app_r by lia.
           by rewrite Nat.sub_diag.
        -- intros (k & -> & Hk).
           destruct (decide (k < length seen)%nat) as [Hlt|Hge].
           ++ rewrite lookup_app_l in Hk by done.
              exfalso. apply Hnin. apply list_elem_of_lookup. eauto.
           ++ apply lookup_lt_Some in Hk as Hk'. rewrite length_app in Hk'.
              simpl in Hk'. f_equal. lia.
      * rewrite (ni_lookup _ _ Hinv). split.
        -- intros (k & -> & Hk). exists k. split; [done|].
           apply lookup_app_l_Some. done.
        -- intros (k & -> & Hk). exists k. split; [done|].
           destruct (decide (k < length seen)%nat) as [Hlt|Hge].
           ++ by rewrite lookup_app_l in Hk.
           ++ rewrite lookup_app_r in Hk by lia.
              destruct (k - length seen)%nat; simpl in Hk; [|done].
              congruence.
    + rewrite (ni_log _ _ Hinv), imap_app. simpl.
      by rewrite Nat.add_0_r.
Qed.

Lemma see_length_le seen id : (length seen <= length (see seen id))%nat.
Proof.
  unfold see. case_decide; [lia|]. rewrite length_app. simpl. lia.
Qed.

Lemma see_length_fresh seen id :
  id ∉ seen -> length (see seen id) = S (length seen).
Proof.
  intros Hnin. unfold see. rewrite decide_False by done.
  rewrite length_app. simpl. lia.
Qed.

Lemma foldl_see_length_le ids seen :
  (length seen <= length (foldl see seen ids))%nat.
Proof.
  revert seen. induction ids as [|id ids IH]; intros seen; simpl; [lia|].
  pose proof (see_length_le seen id). pose proof (IH (see seen id)). lia.
Qed.

(** A run of calls keeps the invariant; the table ends as the first-seen
    enumeration of the ids. *)
Lemma normalize_all_inv ids nz seen :
  norm_inv nz seen ->
  Z.of_nat (length (foldl see seen ids)) <= int_max + 1 ->
  norm_inv (fst (normalize_all nz ids)) (foldl see seen ids).
Proof.
  revert nz seen. induction ids as [|id ids IH]; intros nz seen Hinv Hlen; simpl.
  - done.
  - simpl in Hlen.
    destruct (normalize_vertex_num nz id) as [nz1 i] eqn:Hstep.
    destruct (normalize_all nz1 ids) as [nz2 idxs] eqn:Hrest. simpl.
    assert (Hlen1 : id ∉ seen -> Z.of_nat (length seen) <= int_max + 1).
    { intros Hnin.
      pose proof (foldl_see_length_le ids (see seen id)) as Hle.
      pose proof (see_length_fresh seen id Hnin) as Hsee.
      unfold int_max in *. lia. }
    destruct (normalize_vertex_num_step nz seen id Hinv Hlen1) as (Hinv1 & _ & _).
    rewrite Hstep in Hinv1. simpl in Hinv1.
    specialize (IH nz1 (see seen id) Hinv1 Hlen).
    by rewrite Hrest in IH.
Qed.

Lemma elem_of_foldl_see ids seen x :
  x ∈ foldl see seen ids <-> x ∈ seen \/ x ∈ ids.
Proof.
  revert seen. induction ids as [|id ids IH]; intros seen; simpl.
  - rewrite elem_of_nil. tauto.
  - rewrite IH, elem_of_cons. unfold see. case_decide as Hin.
    + split; [tauto|]. intros [H|[->|H]]; auto.
    + rewrite elem_of_app, list_elem_of_singleton. tauto.
Qed.

Lemma elem_of_first_seen ids x : x ∈ first_seen ids <-> x ∈ ids.
Proof.
  unfold first_seen. rewrite elem_of_foldl_see, elem_of_nil. tauto.
Qed.

Lemma first_seen_snoc ids id : first_seen (ids ++ [id]) = see (first_seen ids) id.
Proof. unfold first_seen. by rewrite foldl_app. Qed.

(** The first id stays the first. *)
Lemma foldl_see_head ids seen x :
  head seen = Some x -> head (foldl see seen ids) = Some x.
Proof.
  revert seen. induction ids as [|id ids IH]; intros seen Hx; simpl; [done|].
  apply IH. unfold see. case_decide; [done|].
  destruct seen; [done|]. done.
Qed.

(** The index an id has in a table. *)
Definition index_of (m : gmap Z Z) (id : Z) : Z := default 0 (m !! id).

(** The table only grows, and an id keeps its index. *)
Lemma normalize_vertex_num_mono nz id :
  vertex_num_to_normalized_num_ nz ⊆
    vertex_num_to_normalized_num_ (fst (normalize_vertex_num nz id)) /\
  vertex_num_to_normalized_num_ (fst (normalize_vertex_num nz id)) !! id
    = Some (snd (normalize_vertex_num nz id)).
Proof.
  unfold normalize_vertex_num.
  destruct (vertex_num_to_normalized_num_ nz !! id) as [i|] eqn:Hid; simpl.
  - done.
  - split; [|apply lookup_insert_eq].
    by apply insert_subseteq.
Qed.

Lemma index_of_mono (m M : gmap Z Z) id i :
  m ⊆ M -> m !! id = Some i -> index_of M id = i.
Proof.
  intros Hsub Hid. unfold index_of.
  by rewrite (lookup_weaken _ _ _ _ Hid Hsub).
Qed.

Lemma normalize_all_mono ids nz :
  vertex_num_to_normalized_num_ nz ⊆
    vertex_num_to_normalized_num_ (fst (normalize_all nz ids)).
Proof.
  revert nz. induction ids as [|id ids IH]; intros nz; simpl; [done|].
  destruct (normalize_vertex_num_mono nz id) as [Hsub _].
  destruct (normalize_vertex_num nz id) as [nz1 i]. simpl in Hsub.
  specialize (IH nz1).
  destruct (normalize_all nz1 ids) as [nz2 idxs]. simpl in *.
  by etrans.
Qed.

(** Every call of a run returns the index its id has in the final table. *)
Lemma normalize_all_outputs ids nz :
  snd (normalize_all nz ids) =
  map (index_of (vertex_num_to_normalized_num_ (fst (normalize_all nz ids)))) ids.
Proof.
  revert nz. induction ids as [|id ids IH]; intros nz; simpl; [done|].
  destruct (normalize_vertex_num_mono nz id) as [_ Hget].
  destruct (normalize_vertex_num nz id) as [nz1 i]. simpl in Hget.
  specialize (IH nz1). pose proof (normalize_all_mono ids nz1) as Hsub.
  destruct (normalize_all nz1 ids) as [nz2 idxs]. simpl in *.
  rewrite IH. f_equal. symmetry. by eapply index_of_mono.
Qed.

(** The table after a run: the k-th distinct id against [k - 1]. *)
Lemma normalize_all_table ids :
  Z.of_nat (length (first_seen ids)) <= int_max + 1 ->
  forall id i,
    vertex_num_to_normalized_num_ (fst (normalize_all normalizer_init ids)) !! id
      = Some i <->
    exists k : nat, i = Z.of_nat k - 1 /\ first_seen ids !! k = Some id.
Proof.
  intros Hlen.
  apply (ni_lookup _ _ (normalize_all_inv ids _ [] norm_inv_init Hlen)).
Qed.

(** C3 fails on the code.  The specification has a new id take the
    current size of the table, which makes the indices of [n] distinct
    ids [0 .. n-1].  The code reads the size before the id is inserted
    and subtracts one: the first id of every run gets [-1]; the ids
    10, 20, 10, 30 get [-1, 0, -1, 1] where the specification has
    [0, 1, 0, 2], and the mapping written says the same; in general the
    indices of [n] distinct ids are [-1 .. n-2]. *)
Theorem normalize_vertex_num_off_by_one :
  (forall id, snd (normalize_vertex_num normalizer_init id) = -1) /\
  snd (normalize_all normalizer_init [10; 20; 10; 30]) = [-1; 0; -1; 1] /\
  mapping_out_ (fst (normalize_all normalizer_init [10; 20; 10; 30]))
    = [(10, -1); (20, 0); (30, 1)] /\
  (forall (ids : list Z) (i : Z),
      Z.of_nat (length (first_seen ids)) <= int_max + 1 ->
      (exists id,
          vertex_num_to_normalized_num_
            (fst (normalize_all normalizer_init ids)) !! id = Some i) <->
      -1 <= i < Z.of_nat (length (first_seen ids)) - 1).
Proof.
  split; [reflexivity|]. split; [reflexivity|]. split; [reflexivity|].
  intros ids i Hlen. split.
  - intros (id & Hi). apply (normalize_all_table ids Hlen) in Hi as (k & -> & Hk).
    apply lookup_lt_Some in Hk. lia.
  - intros Hi.
    destruct (lookup_lt_is_Some_2 (first_seen ids) (Z.to_nat (i + 1)))
      as [id Hid]; [lia|].
    exists id. apply (normalize_all_table ids Hlen). exists (Z.to_nat (i + 1)).
    split; [lia|done].
Qed.

(** ** WeightTransform *)

(** A [double] as an extended real: the finite values are taken exact, the
    special values follow IEEE 754 (the sign of a zero is not kept). *)
Inductive double : Type :=
  | DNaN
  | DNegInf
  | DPosInf
  | DFin (r : R).

Definition d_of_int (z : Z) : double := DFin (IZR z).

(** [log] of <cmath>: NaN below zero, minus infinity at zero. *)
Definition d_log (x : double) : double :=
  match x with
  | DNaN => DNaN
  | DNegInf => DNaN
  | DPosInf => DPosInf
  | DFin r =>
      if Rlt_dec r 0 then DNaN
      else if Req_dec_T r 0 then DNegInf
      else DFin (ln r)
  end.

(** Division of doubles. *)
Definition d_div (x y : double) : double :=
  match x, y with
  | DNaN, _ => DNaN
  | _, DNaN => DNaN
  | DFin a, DFin b =>
      if Req_dec_T b 0 then
        if Req_dec_T a 0 then DNaN
        else if Rlt_dec 0 a then DPosInf else DNegInf
      else DFin (a / b)
  | DFin _, DPosInf => DFin 0
  | DFin _, DNegInf => DFin 0
  | DPosInf, DFin b => if Rlt_dec b 0 then DNegInf else DPosInf
  | DNegInf, DFin b => if Rlt_dec b 0 then DPosInf else DNegInf
  | DPosInf, DPosInf => DNaN
  | DPosInf, DNegInf => DNaN
  | DNegInf, DPosInf => DNaN
  | DNegInf, DNegInf => DNaN
  end.

(** The order of doubles; NaN is below and above nothing. *)
Definition d_lt (x y : double) : Prop :=
  match x, y with
  | DFin a, DFin b => (a < b)%R
  | DNegInf, DFin _ => True
  | DNegInf, DPosInf => True
  | DFin _, DPosInf => True
  | _, _ => False
  end.

(** [convert_edge_w_to_weight]: [100 / log(edge_w + 1)].  The sum is an
    [int] sum (it wraps at [int_max]); its value and [100] are converted
    to [double] exactly. *)
Definition convert_edge_w_to_weight (edge_w : Z) : double :=
  d_div (d_of_int 100) (d_log (d_of_int (to_int (edge_w + 1)))).

(** *** Properties of the transform *)

Lemma ln_pos (x : R) : (1 < x)%R -> (0 < ln x)%R.
Proof.
  intros Hx. rewrite <- ln_1. apply ln_increasing; lra.
Qed.

Lemma convert_edge_w_to_weight_pos_eq (w : Z) :
  0 < w -> w < int_max ->
  convert_edge_w_to_weight w = DFin (100 / ln (IZR (w + 1))) /\
  (0 < ln (IZR (w + 1)))%R.
Proof.
  intros Hpos Hmax. unfold convert_edge_w_to_weight, d_of_int, int_max in *.
  rewrite to_int_small by lia.
  assert (Hx : (1 < IZR (w + 1))%R) by (apply IZR_lt; lia).
  pose proof (ln_pos _ Hx) as Hln.
  unfold d_log.
  destruct (Rlt_dec (IZR (w + 1)) 0) as [Hneg|_]; [lra|].
  destruct (Req_dec_T (IZR (w + 1)) 0) as [Hz|_]; [lra|].
  unfold d_div.
  destruct (Req_dec_T (ln (IZR (w + 1))) 0) as [Hz|_]; [lra|].
  split; [reflexivity|assumption].
Qed.

(** C4.  For a positive raw weight [w] (with [w + 1] an [int]) the
    transform returns [100 / ln (w + 1)], a positive real, and it is
    strictly decreasing: a larger raw weight gives a smaller distance. *)
Theorem convert_edge_w_to_weight_decreasing :
  (forall w, 0 < w -> w < int_max ->
     convert_edge_w_to_weight w = DFin (100 / ln (IZR (w + 1))) /\
     (0 < 100 / ln (IZR (w + 1)))%R) /\
  (forall w1 w2, 0 < w1 -> w1 < w2 -> w2 < int_max ->
     d_lt (convert_edge_w_to_weight w2) (convert_edge_w_to_weight w1)).
Proof.
  split.
  - intros w Hpos Hmax.
    destruct (convert_edge_w_to_weight_pos_eq w Hpos Hmax) as [Heq Hln].
    split; [exact Heq|].
    apply Rdiv_lt_0_compat; lra.
  - intros w1 w2 Hpos Hlt Hmax.
    destruct (convert_edge_w_to_weight_pos_eq w1) as [Heq1 Hln1]; [lia..|].
    destruct (convert_edge_w_to_weight_pos_eq w2) as [Heq2 Hln2]; [lia..|].
    rewrite Heq1, Heq2. simpl.
    assert (Hlns : (ln (IZR (w1 + 1)) < ln (IZR (w2 + 1)))%R).
    { apply ln_increasing; [apply IZR_lt; lia|apply IZR_lt; lia]. }
    unfold Rdiv. apply Rmult_lt_compat_l; [lra|].
    apply Rinv_lt_contravar; [|exact Hlns].
    apply Rmult_lt_0_compat; assumption.
Qed.

Lemma convert_edge_w_to_weight_decreasing_witness :
  convert_edge_w_to_weight 9 = DFin (100 / ln (IZR 10)) /\
  d_lt (convert_edge_w_to_weight 9) (convert_edge_w_to_weight 1).
Proof.
  destruct convert_edge_w_to_weight_decreasing as [Hval Hdec].
  split.
  - apply (Hval 9); unfold int_max; lia.
  - apply (Hdec 1 9); unfold int_max; lia.
Defined.

(** Outside the positive weights: zero gives plus infinity, [-1] gives
    zero, anything below gives NaN, and so does [int_max], whose successor
    wraps. *)
Lemma convert_edge_w_to_weight_zero : convert_edge_w_to_weight 0 = DPosInf.
Proof.
  unfold convert_edge_w_to_weight, d_of_int.
  rewrite to_int_small by lia. change (0 + 1) with 1.
  unfold d_log.
  destruct (Rlt_dec 1 0) as [H|_]; [lra|].
  destruct (Req_dec_T 1 0) as [H|_]; [lra|].
  rewrite ln_1. unfold d_div.
  destruct (Req_dec_T 0 0) as [_|H]; [|lra].
  destruct (Req_dec_T 100 0) as [H|_]; [lra|].
  destruct (Rlt_dec 0 100) as [_|H]; [reflexivity|lra].
Qed.

Lemma convert_edge_w_to_weight_minus_one :
  convert_edge_w_to_weight (-1) = DFin 0.
Proof.
  unfold convert_edge_w_to_weight, d_of_int.
  rewrite to_int_small by lia. change (-1 + 1) with 0.
  unfold d_log.
  destruct (Rlt_dec 0 0) as [H|_]; [lra|].
  destruct (Req_dec_T 0 0) as [_|H]; [reflexivity|lra].
Qed.

Lemma convert_edge_w_to_weight_negative (w : Z) :
  -2147483648 <= w -> w < -1 -> convert_edge_w_to_weight w = DNaN.
Proof.
  intros Hmin Hneg. unfold convert_edge_w_to_weight, d_of_int.
  rewrite to_int_small by lia.
  unfold d_log.
  assert (Hx : (IZR (w + 1) < 0)%R) by (apply IZR_lt; lia).
  destruct (Rlt_dec (IZR (w + 1)) 0) as [_|H]; [reflexivity|contradiction].
Qed.

Lemma convert_edge_w_to_weight_int_max :
  convert_edge_w_to_weight int_max = DNaN.
Proof.
  unfold convert_edge_w_to_weight, d_of_int, d_log.
  change (to_int (int_max + 1)) with (-2147483648).
  destruct (Rlt_dec (IZR (-2147483648)) 0) as [_|H]; [reflexivity|].
  exfalso. apply H. apply IZR_lt. lia.
Qed.

(** ** Graph *)

(** An input row after parsing: the source id and its (destination id, raw
    weight) pairs. *)
Definition row : Type := Z * list (Z * Z).

Section Graph.
Context {W : Type}.
(** The weight transform the build pass applies. *)
Variable convert : Z -> W.

Record graph : Type := Graph {
  normalizer_ : normalizer;
  adj_list_ : Z -> list (Z * W)
}.

Definition graph_init : graph := Graph normalizer_init (fun _ => []).

(** [adj_list_[i].push_back(e)] *)
Definition push_back (adj : Z -> list (Z * W)) (i : Z) (e : Z * W)
  : result (Z -> list (Z * W)) :=
  if in_range i then Ok (upd adj i (adj i ++ [e])) else Undefined.

(** The inner loop of [read_graph] over the pairs of one row. *)
Fixpoint read_pairs (g : graph) (source_vertex : Z) (pairs : list (Z * Z))
  : result graph :=
  match pairs with
  | [] => Ok g
  | (dest_vertex, edge_w) :: rest =>
      let '(nz, dest) := normalize_vertex_num (normalizer_ g) dest_vertex in
      let edge_weight := convert edge_w in
      adj1 ← push_back (adj_list_ g) source_vertex (dest, edge_weight);
      adj2 ← push_back adj1 dest (source_vertex, edge_weight);
      read_pairs (Graph nz adj2) source_vertex rest
  end.

Definition read_row (g : graph) (r : row) : result graph :=
  let '(nz, source_vertex) := normalize_vertex_num (normalizer_ g) (fst r) in
  read_pairs (Graph nz (adj_list_ g)) source_vertex (snd r).

(** [read_graph], started on the graph built so far. *)
Fixpoint read_graph (g : graph) (rows : list row) : result graph :=
  match rows with
  | [] => Ok g
  | r :: rest => g1 ← read_row g r; read_graph g1 rest
  end.

Definition number_of_verices (g : graph) : Z :=
  to_int (Z.of_nat (size (vertex_num_to_normalized_num_ (normalizer_ g)))).

(** The (source id, destination id, raw weight) triples of the input, in
    the order they are parsed, and the ids in the order they are
    normalised. *)
Definition row_edges (r : row) : list (Z * Z * Z) :=
  map (fun p => (fst r, fst p, snd p)) (snd r).

Definition parsed_edges (rows : list row) : list (Z * Z * Z) :=
  flat_map row_edges rows.

Definition row_ids (r : row) : list Z := fst r :: map fst (snd r).

Definition parsed_ids (rows : list row) : list Z := flat_map row_ids rows.

(** The entries one edge adds to the adjacency list of vertex [i]: the
    first [push_back] goes to the list of the source, the second to the
    list of the destination. *)
Definition contrib (i : Z) (s d : Z) (x : W) : list (Z * W) :=
  (if s =? i then [(d, x)] else []) ++ (if d =? i then [(s, x)] else []).

Definition edge_contrib (m : gmap Z Z) (i : Z) (e : Z * Z * Z) : list (Z * W) :=
  contrib i (index_of m (fst (fst e))) (index_of m (snd (fst e)))
          (convert (snd e)).

(** *** Properties of the build pass *)

Lemma push_back_Ok adj i e adj' :
  push_back adj i e = Ok adj' ->
  in_range i = true /\
  forall j, adj' j = adj j ++ (if i =? j then [e] else []).
Proof.
  unfold push_back. destruct (in_range i); [|discriminate].
  intros [= <-]. split; [done|]. intros j. unfold upd.
  rewrite (Z.eqb_sym i j).
  destruct (j =? i) eqn:Hj.
  - apply Z.eqb_eq in Hj. by subst.
  - by rewrite app_nil_r.
Qed.

Lemma read_pairs_spec pairs g s g' :
  read_pairs g s pairs = Ok g' ->
  vertex_num_to_normalized_num_ (normalizer_ g) ⊆
    vertex_num_to_normalized_num_ (normalizer_ g') /\
  forall M, vertex_num_to_normalized_num_ (normalizer_ g') ⊆ M ->
    forall i, adj_list_ g' i =
      adj_list_ g i ++
      flat_map (fun p => contrib i s (index_of M (fst p)) (convert (snd p)))
               pairs.
Proof.
  revert g. induction pairs as [|[d w] pairs IH]; intros g; simpl.
  - intros [= <-]. split; [done|]. intros M _ i. by rewrite app_nil_r.
  - destruct (normalize_vertex_num_mono (normalizer_ g) d) as [Hsub Hget].
    destruct (normalize_vertex_num (normalizer_ g) d) as [nz dest].
    simpl in Hsub, Hget.
    destruct (push_back (adj_list_ g) s (dest, convert w)) as [adj1| |] eqn:H1;
      simpl; try discriminate.
    destruct (push_back adj1 dest (s, convert w)) as [adj2| |] eqn:H2;
      simpl; try discriminate.
    intros Hrest. apply IH in Hrest as [Hsub' Hadj]. simpl in Hsub', Hadj.
    split; [by etrans|].
    intros M HM i. rewrite (Hadj M HM i).
    apply push_back_Ok in H1 as [_ H1]. apply push_back_Ok in H2 as [_ H2].
    rewrite H2, H1, <- !app_assoc. f_equal.
    rewrite app_assoc. f_equal. simpl.
    rewrite (index_of_mono (vertex_num_to_normalized_num_ nz) M d dest);
      [|by etrans|done].
    reflexivity.
Qed.

Lemma read_graph_spec rows g g' :
  read_graph g rows = Ok g' ->
  vertex_num_to_normalized_num_ (normalizer_ g) ⊆
    vertex_num_to_normalized_num_ (normalizer_ g') /\
  forall M, vertex_num_to_normalized_num_ (normalizer_ g') ⊆ M ->
    forall i, adj_list_ g' i =
      adj_list_ g i ++ flat_map (edge_contrib M i) (parsed_edges rows).
Proof.
  revert g. induction rows as [|[src pairs] rows IH]; intros g; simpl.
  - intros [= <-]. split; [done|]. intros M _ i. by rewrite app_nil_r.
  - unfold read_row. simpl.
    destruct (normalize_vertex_num_mono (normalizer_ g) src) as [Hsub Hget].
    destruct (normalize_vertex_num (normalizer_ g) src) as [nz s].
    simpl in Hsub, Hget.
    destruct (read_pairs (Graph nz (adj_list_ g)) s pairs) as [g1| |] eqn:Hrow;
      simpl; try discriminate.
    intros Hrest. apply IH in Hrest as [Hsub' Hadj].
    apply read_pairs_spec in Hrow as [Hsub1 Hrow]. simpl in Hsub1, Hrow.
    split; [by do 2 (etrans; [eassumption|])|].
    intros M HM i. rewrite (Hadj M HM i), (Hrow M) by (by etrans).
    rewrite <- app_assoc. f_equal.
    unfold parsed_edges. simpl. rewrite flat_map_app. f_equal.
    unfold row_edges. simpl.
    assert (Hs : index_of M src = s).
    { apply (index_of_mono (vertex_num_to_normalized_num_ nz)); [|done].
      by do 2 (etrans; [eassumption|]). }
    clear -Hs. induction pairs as [|[d w] pairs IHp]; simpl; [done|].
    rewrite IHp. f_equal. unfold edge_contrib. simpl. by rewrite Hs.
Qed.

Lemma elem_of_contrib i s d x j y :
  (j, y) ∈ contrib i s d x <->
  (s = i /\ j = d /\ y = x) \/ (d = i /\ j = s /\ y = x).
Proof.
  unfold contrib. rewrite elem_of_app.
  destruct (s =? i) eqn:Hs, (d =? i) eqn:Hd;
    rewrite ?list_elem_of_singleton, ?elem_of_nil;
    rewrite ?Z.eqb_eq, ?Z.eqb_neq in *;
    split; intros H; intuition (try congruence).
Qed.
(** The number of entries for vertex [j] in a list. *)
Definition count_to (j : Z) (l : list (Z * W)) : nat :=
  length (filter (fun e : Z * W => fst e = j) l).

(** The number of parsed pairs that run from index [i] to index [j]. *)
Definition count_edges (m : gmap Z Z) (i j : Z) (es : list (Z * Z * Z)) : nat :=
  length (filter (fun e : Z * Z * Z =>
                    index_of m (fst (fst e)) = i /\
                    index_of m (snd (fst e)) = j) es).

Lemma count_to_app j l1 l2 :
  count_to j (l1 ++ l2) = (count_to j l1 + count_to j l2)%nat.
Proof. unfold count_to. by rewrite filter_app, length_app. Qed.

Lemma count_to_contrib i j s d x :
  count_to j (contrib i s d x) =
  ((if decide (s = i /\ d = j) then 1 else 0) +
   (if decide (d = i /\ s = j) then 1 else 0))%nat.
Proof.
  unfold contrib. rewrite count_to_app. f_equal.
  - destruct (s =? i) eqn:Hs; rewrite ?Z.eqb_eq, ?Z.eqb_neq in Hs.
    + unfold count_to. rewrite filter_cons. simpl.
      repeat case_decide; simpl; try reflexivity; exfalso; tauto.
    + rewrite decide_False by tauto. reflexivity.
  - destruct (d =? i) eqn:Hd; rewrite ?Z.eqb_eq, ?Z.eqb_neq in Hd.
    + unfold count_to. rewrite filter_cons. simpl.
      repeat case_decide; simpl; try reflexivity; exfalso; tauto.
    + rewrite decide_False by tauto. reflexivity.
Qed.

Lemma count_to_flat_map m i j es :
  count_to j (flat_map (edge_contrib m i) es) =
  (count_edges m i j es + count_edges m j i es)%nat.
Proof.
  induction es as [|[[s d] w] es IH]; simpl; [reflexivity|].
  rewrite count_to_app, IH. unfold edge_contrib at 1. simpl.
  rewrite count_to_contrib. unfold count_edges.
  rewrite !filter_cons. simpl.
  assert (Hswap : forall a b : Z, (a = j /\ b = i) <-> (b = i /\ a = j))
    by (intros; tauto).
  destruct (decide (index_of m s = i /\ index_of m d = j)) as [H1|H1];
    destruct (decide (index_of m s = j /\ index_of m d = i)) as [H2|H2];
    destruct (decide (index_of m d = i /\ index_of m s = j)) as [H3|H3];
    simpl; try lia; exfalso; tauto.
Qed.

Lemma read_graph_adj rows g :
  read_graph graph_init rows = Ok g ->
  forall i, adj_list_ g i =
    flat_map (edge_contrib (vertex_num_to_normalized_num_ (normalizer_ g)) i)
             (parsed_edges rows).
Proof.
  intros Hread. apply read_graph_spec in Hread as [_ Hadj].
  exact (Hadj _ (reflexivity _)).
Qed.

Lemma read_graph_elem_of rows g i j x :
  read_graph graph_init rows = Ok g ->
  (j, x) ∈ adj_list_ g i <->
  exists e, e ∈ parsed_edges rows /\
    (j, x) ∈ edge_contrib (vertex_num_to_normalized_num_ (normalizer_ g)) i e.
Proof.
  intros Hread. rewrite (read_graph_adj _ _ Hread), list_elem_of_In, in_flat_map.
  split; intros (e & He & Hin); exists e;
    rewrite ?list_elem_of_In in *; auto.
Qed.

Lemma read_graph_stores rows g s d w :
  read_graph graph_init rows = Ok g ->
  (s, d, w) ∈ parsed_edges rows ->
  let m := vertex_num_to_normalized_num_ (normalizer_ g) in
  (index_of m d, convert w) ∈ adj_list_ g (index_of m s) /\
  (index_of m s, convert w) ∈ adj_list_ g (index_of m d).
Proof.
  intros Hread Hin m.
  split; apply (read_graph_elem_of _ _ _ _ _ Hread); exists (s, d, w);
    (split; [done|]); unfold edge_contrib; simpl;
    apply elem_of_contrib; auto.
Qed.

(** C7.  After the build pass every parsed pair has added exactly one
    entry to the adjacency list of each of its two endpoints, with the
    same transformed distance, and nothing else is stored: the list of
    vertex [i] is, in parsing order, the entries of the pairs that touch
    [i], so the number of entries for [j] in the list of [i] is the
    number of parsed pairs between [i] and [j], and the graph is
    symmetric. *)
Theorem read_graph_symmetric (rows : list row) (g : graph) :
  read_graph graph_init rows = Ok g ->
  let m := vertex_num_to_normalized_num_ (normalizer_ g) in
  (forall i, adj_list_ g i = flat_map (edge_contrib m i) (parsed_edges rows)) /\
  (forall s d w, (s, d, w) ∈ parsed_edges rows ->
     (index_of m d, convert w) ∈ adj_list_ g (index_of m s) /\
     (index_of m s, convert w) ∈ adj_list_ g (index_of m d)) /\
  (forall i j,
     count_to j (adj_list_ g i) =
     (count_edges m i j (parsed_edges rows) +
      count_edges m j i (parsed_edges rows))%nat) /\
  (forall i j, count_to j (adj_list_ g i) = count_to i (adj_list_ g j)) /\
  (forall i j x, (j, x) ∈ adj_list_ g i <-> (i, x) ∈ adj_list_ g j).
Proof.
  intros Hread m.
  pose proof (read_graph_adj _ _ Hread) as Hadj. fold m in Hadj.
  split; [exact Hadj|].
  split; [intros s d w Hin; by apply (read_graph_stores rows)|].
  split.
  { intros i j. rewrite Hadj. apply count_to_flat_map. }
  split.
  { intros i j. rewrite !Hadj, !count_to_flat_map. lia. }
  intros i j x. rewrite !(read_graph_elem_of _ _ _ _ _ Hread).
  split; intros (e & He & Hin); exists e; (split; [done|]);
    unfold edge_contrib in *; apply elem_of_contrib;
    apply elem_of_contrib in Hin; intuition congruence.
Qed.

(** The indices a table holds: [-1] for the first id, and the positions
    [0 .. n-2] for the others. *)
Lemma norm_inv_index_bound nz seen id i :
  norm_inv nz seen ->
  vertex_num_to_normalized_num_ nz !! id = Some i ->
  -1 <= i < Z.of_nat (length seen) - 1 /\
  (i = -1 <-> head seen = Some id).
Proof.
  intros Hinv Hi. apply (ni_lookup _ _ Hinv) in Hi as (k & -> & Hk).
  pose proof (lookup_lt_Some _ _ _ Hk). split; [lia|].
  rewrite head_lookup. split.
  - intros H0. assert (k = 0%nat) by lia. by subst k.
  - intros Hh.
    pose proof (NoDup_lookup _ _ _ _ (ni_nodup _ _ Hinv) Hk Hh). lia.
Qed.

Lemma in_range_true i : 0 <= i < max_vertices_ -> in_range i = true.
Proof. unfold in_range. intros H. apply andb_true_iff. lia. Qed.

Lemma see_head seen id f : head seen = Some f -> head (see seen id) = Some f.
Proof.
  intros Hf. unfold see. case_decide; [done|]. by destruct seen.
Qed.

(** The build pass completes on every input in which the first id takes
    part in no pair and whose ids fit into the arrays, whatever the raw
    weights are. *)
Lemma read_pairs_total pairs g s seen f :
  norm_inv (normalizer_ g) seen ->
  head seen = Some f ->
  (pairs <> [] -> 0 <= s < max_vertices_) ->
  (forall d, d ∈ map fst pairs -> d <> f) ->
  Z.of_nat (length (foldl see seen (map fst pairs))) <= max_vertices_ + 1 ->
  exists g', read_pairs g s pairs = Ok g' /\
             norm_inv (normalizer_ g') (foldl see seen (map fst pairs)).
Proof.
  revert g seen. induction pairs as [|[d w] pairs IH];
    intros g seen Hinv Hf Hs Hd Hlen; simpl in *.
  - eauto.
  - pose proof (foldl_see_length_le (map fst pairs) (see seen d)) as Hle.
    destruct (normalize_vertex_num_step (normalizer_ g) seen d Hinv)
      as (Hinv1 & Hget & _).
    { intros Hnin. pose proof (see_length_fresh seen d Hnin).
      unfold int_max, max_vertices_ in *. lia. }
    destruct (normalize_vertex_num (normalizer_ g) d) as [nz dest].
    simpl in Hinv1, Hget.
    pose proof (see_head seen d f Hf) as Hf1.
    destruct (norm_inv_index_bound _ _ _ _ Hinv1 Hget) as [Hdest Hfirst].
    assert (Hne : dest <> -1).
    { intros H. apply Hfirst in H. rewrite Hf1 in H. injection H as Heq.
      apply (Hd d); [by left|done]. }
    specialize (Hs ltac:(done)).
    unfold push_back. rewrite in_range_true by lia. simpl.
    rewrite in_range_true by lia. simpl.
    apply (IH _ (see seen d)); simpl; [done|done|done| |done].
    intros d' Hd'. apply Hd. by right.
Qed.

Lemma read_graph_total rows g seen f :
  norm_inv (normalizer_ g) seen ->
  head seen = Some f ->
  (forall s d w, (s, d, w) ∈ parsed_edges rows -> s <> f /\ d <> f) ->
  Z.of_nat (length (foldl see seen (parsed_ids rows))) <= max_vertices_ + 1 ->
  exists g', read_graph g rows = Ok g' /\
             norm_inv (normalizer_ g') (foldl see seen (parsed_ids rows)).
Proof.
  revert g seen. induction rows as [|[src pairs] rows IH];
    intros g seen Hinv Hf He Hlen; simpl in *.
  - eauto.
  - unfold parsed_ids in *. simpl in Hlen |- *.
    rewrite foldl_app in Hlen |- *.
    pose proof (foldl_see_length_le (flat_map row_ids rows)
                  (foldl see (see seen src) (map fst pairs))) as Hle1.
    pose proof (foldl_see_length_le (map fst pairs) (see seen src)) as Hle2.
    pose proof (see_length_le seen src) as Hle3.
    assert (Hrow : forall d w, (d, w) ∈ pairs -> src <> f /\ d <> f).
    { intros d w Hin. apply (He src d w). unfold parsed_edges. simpl.
      apply elem_of_app. left. unfold row_edges. simpl.
      apply list_elem_of_fmap. by exists (d, w). }
    destruct (normalize_vertex_num_step (normalizer_ g) seen src Hinv)
      as (Hinv1 & Hget & _).
    { intros Hnin. pose proof (see_length_fresh seen src Hnin).
      unfold int_max, max_vertices_ in *. lia. }
    unfold read_row. simpl.
    destruct (normalize_vertex_num (normalizer_ g) src) as [nz s].
    simpl in Hinv1, Hget.
    pose proof (see_head seen src f Hf) as Hf1.
    destruct (norm_inv_index_bound _ _ _ _ Hinv1 Hget) as [Hs Hfirst].
    destruct (read_pairs_total pairs (Graph nz (adj_list_ g)) s (see seen src) f)
      as (g1 & Hread & Hinv2); [done|done| | |lia|].
    { intros Hne. destruct pairs as [|[d w] pairs]; [done|].
      destruct (Hrow d w) as [Hsrc _]; [by left|].
      assert (s <> -1).
      { intros H. apply Hfirst in H. rewrite Hf1 in H. injection H as Heq.
        by apply Hsrc. }
      lia. }
    { intros d Hd. apply list_elem_of_fmap in Hd as ([d' w] & -> & Hin).
      by apply (Hrow d' w). }
    rewrite Hread. simpl.
    apply IH; [done| |  |lia].
    + by apply foldl_see_head.
    + intros s' d w Hin. apply (He s' d w). unfold parsed_edges. simpl.
      apply elem_of_app. by right.
Qed.

(** From the empty graph: the first row names the first id, so it must
    come without pairs. *)
Lemma read_graph_completes rows :
  (forall s d w, (s, d, w) ∈ parsed_edges rows ->
     head (parsed_ids rows) <> Some s /\ head (parsed_ids rows) <> Some d) ->
  Z.of_nat (length (first_seen (parsed_ids rows))) <= max_vertices_ + 1 ->
  exists g, read_graph graph_init rows = Ok g /\
            norm_inv (normalizer_ g) (first_seen (parsed_ids rows)).
Proof.
  intros He Hlen. destruct rows as [|[src pairs] rows].
  - exists graph_init. split; [done|apply norm_inv_init].
  - destruct pairs as [|[d w] pairs].
    2:{ exfalso. destruct (He src d w) as [H _]; [|by apply H].
        unfold parsed_edges. simpl. by left. }
    unfold first_seen, parsed_ids in *. simpl in Hlen, He |- *.
    destruct (normalize_vertex_num_step normalizer_init [] src norm_inv_init)
      as (Hinv1 & _ & _).
    { intros _. simpl. unfold int_max. lia. }
    unfold read_row. simpl.
    destruct (normalize_vertex_num normalizer_init src) as [nz s].
    simpl in Hinv1.
    change (see [] src) with [src] in *.
    apply (read_graph_total rows _ [src] src); [done|done| |done].
    intros s' d w Hin. destruct (He s' d w Hin) as [H1 H2].
    split; congruence.
Qed.

(** *** What a completed build pass has kept *)

(** The table of a completed pass is the first-seen enumeration of the
    ids, whether they fit into the arrays or not. *)
Lemma read_pairs_inv pairs g s seen g' :
  norm_inv (normalizer_ g) seen ->
  Z.of_nat (length (foldl see seen (map fst pairs))) <= int_max + 1 ->
  read_pairs g s pairs = Ok g' ->
  norm_inv (normalizer_ g') (foldl see seen (map fst pairs)).
Proof.
  revert g seen. induction pairs as [|[d w] pairs IH]; intros g seen Hinv Hlen;
    simpl in *.
  - by intros [= <-].
  - pose proof (foldl_see_length_le (map fst pairs) (see seen d)) as Hle.
    destruct (normalize_vertex_num_step (normalizer_ g) seen d Hinv)
      as (Hinv1 & _ & _).
    { intros Hnin. pose proof (see_length_fresh seen d Hnin).
      unfold int_max in *. lia. }
    destruct (normalize_vertex_num (normalizer_ g) d) as [nz dest].
    simpl in Hinv1.
    destruct (push_back (adj_list_ g) s (dest, convert w)) as [adj1| |];
      simpl; try discriminate.
    destruct (push_back adj1 dest (s, convert w)) as [adj2| |];
      simpl; try discriminate.
    intros Hrest. by eapply IH; [|exact Hlen|exact Hrest].
Qed.

Lemma read_graph_inv rows g seen g' :
  norm_inv (normalizer_ g) seen ->
  Z.of_nat (length (foldl see seen (parsed_ids rows))) <= int_max + 1 ->
  read_graph g rows = Ok g' ->
  norm_inv (normalizer_ g') (foldl see seen (parsed_ids rows)).
Proof.
  revert g seen. induction rows as [|[src pairs] rows IH]; intros g seen Hinv Hlen;
    simpl in *.
  - by intros [= <-].
  - unfold parsed_ids in *. simpl in Hlen |- *.
    rewrite foldl_app in Hlen |- *.
    pose proof (foldl_see_length_le (flat_map row_ids rows)
                  (foldl see (see seen src) (map fst pairs))) as Hle1.
    pose proof (foldl_see_length_le (map fst pairs) (see seen src)) as Hle2.
    destruct (normalize_vertex_num_step (normalizer_ g) seen src Hinv)
      as (Hinv1 & _ & _).
    { intros Hnin. pose proof (see_length_fresh seen src Hnin).
      unfold int_max in *. lia. }
    unfold read_row. simpl.
    destruct (normalize_vertex_num (normalizer_ g) src) as [nz s].
    simpl in Hinv1.
    destruct (read_pairs (Graph nz (adj_list_ g)) s pairs) as [g1| |] eqn:Hrow;
      simpl; try discriminate.
    intros Hrest.
    apply (read_pairs_inv pairs _ s (see seen src)) in Hrow; [|done|lia].
    by eapply IH; [exact Hrow|exact Hlen|exact Hrest].
Qed.

(** A completed pass has written to slots of the array only. *)
Lemma read_pairs_in_range pairs g s g' :
  read_pairs g s pairs = Ok g' ->
  (forall i, adj_list_ g i <> [] -> in_range i = true) ->
  forall i, adj_list_ g' i <> [] -> in_range i = true.
Proof.
  revert g. induction pairs as [|[d w] pairs IH]; intros g; simpl.
  - by intros [= <-].
  - destruct (normalize_vertex_num (normalizer_ g) d) as [nz dest].
    destruct (push_back (adj_list_ g) s (dest, convert w)) as [adj1| |] eqn:H1;
      simpl; try discriminate.
    destruct (push_back adj1 dest (s, convert w)) as [adj2| |] eqn:H2;
      simpl; try discriminate.
    intros Hrest Hold. eapply IH; [exact Hrest|]. simpl.
    apply push_back_Ok in H1 as [Hr1 H1]. apply push_back_Ok in H2 as [Hr2 H2].
    intros i Hi. rewrite H2, H1 in Hi.
    destruct (s =? i) eqn:Hs; [apply Z.eqb_eq in Hs; by subst|].
    destruct (dest =? i) eqn:Hd; [apply Z.eqb_eq in Hd; by subst|].
    rewrite !app_nil_r in Hi. by apply Hold.
Qed.

Lemma read_graph_in_range rows g g' :
  read_graph g rows = Ok g' ->
  (forall i, adj_list_ g i <> [] -> in_range i = true) ->
  forall i, adj_list_ g' i <> [] -> in_range i = true.
Proof.
  revert g. induction rows as [|[src pairs] rows IH]; intros g; simpl.
  - by intros [= <-].
  - unfold read_row. simpl.
    destruct (normalize_vertex_num (normalizer_ g) src) as [nz s].
    destruct (read_pairs (Graph nz (adj_list_ g)) s pairs) as [g1| |] eqn:Hrow;
      simpl; try discriminate.
    intros Hrest Hold. eapply IH; [exact Hrest|].
    by eapply read_pairs_in_range; [exact Hrow|].
Qed.

(** The pass has no loop of its own that could fail to end: it completes
    or it leaves the arrays. *)
Lemma read_pairs_no_timeout pairs g s : read_pairs g s pairs <> Timeout.
Proof.
  revert g. induction pairs as [|[d w] pairs IH]; intros g; simpl; [done|].
  destruct (normalize_vertex_num (normalizer_ g) d) as [nz dest].
  unfold push_back.
  destruct (in_range s); simpl; [|done].
  destruct (in_range dest); simpl; [|done]. apply IH.
Qed.

Lemma read_graph_no_timeout rows g : read_graph g rows <> Timeout.
Proof.
  revert g. induction rows as [|[src pairs] rows IH]; intros g; simpl; [done|].
  unfold read_row. simpl.
  destruct (normalize_vertex_num (normalizer_ g) src) as [nz s].
  pose proof (read_pairs_no_timeout pairs (Graph nz (adj_list_ g)) s) as Hp.
  destruct (read_pairs (Graph nz (adj_list_ g)) s pairs) as [g1| |];
    simpl; [apply IH|done|done].
Qed.

(** Every entry has its mirror image in the list of its neighbour. *)
Lemma read_graph_mirror rows g i j x :
  read_graph graph_init rows = Ok g ->
  (j, x) ∈ adj_list_ g i -> (i, x) ∈ adj_list_ g j.
Proof.
  intros Hread. rewrite !(read_graph_elem_of _ _ _ _ _ Hread).
  intros (e & He & Hin). exists e. split; [done|].
  unfold edge_contrib in *. apply elem_of_contrib.
  apply elem_of_contrib in Hin. intuition congruence.
Qed.

(** A completed pass has written to slots of the array only. *)
Lemma read_graph_slots rows g i e :
  read_graph graph_init rows = Ok g ->
  e ∈ adj_list_ g i -> 0 <= i < max_vertices_.
Proof.
  intros Hread Hin.
  assert (Hr : in_range i = true).
  { apply (read_graph_in_range rows graph_init g Hread).
    - intros i' Hne. by exfalso; apply Hne.
    - intros Hnil. rewrite Hnil in Hin. by apply elem_of_nil in Hin. }
  unfold in_range in Hr. apply andb_true_iff in Hr. lia.
Qed.

(** *** The pass and the raw weights *)

(** The ids of a row, without the weights. *)
Definition row_shape (r : row) : Z * list Z := (fst r, map fst (snd r)).

(** Whether the pass completes, and with which table, is decided by the
    ids alone. *)
Lemma read_pairs_shape pairs :
  forall pairs' g1 g2 s g1',
    normalizer_ g1 = normalizer_ g2 ->
    map fst pairs' = map fst pairs ->
    read_pairs g1 s pairs = Ok g1' ->
    exists g2', read_pairs g2 s pairs' = Ok g2' /\
                normalizer_ g2' = normalizer_ g1'.
Proof.
  induction pairs as [|[d w] pairs IH]; intros [|[d' w'] pairs'] g1 g2 s g1' Hnz Hids;
    simpl in *; try discriminate.
  - intros [= <-]. eauto.
  - injection Hids as -> Hids. rewrite <- Hnz.
    destruct (normalize_vertex_num (normalizer_ g1) d) as [nz dest].
    unfold push_back.
    destruct (in_range s); simpl; [|discriminate].
    destruct (in_range dest); simpl; [|discriminate].
    by apply IH.
Qed.

Lemma read_graph_shape rows :
  forall rows' g1 g2 g1',
    normalizer_ g1 = normalizer_ g2 ->
    map row_shape rows' = map row_shape rows ->
    read_graph g1 rows = Ok g1' ->
    exists g2', read_graph g2 rows' = Ok g2' /\
                normalizer_ g2' = normalizer_ g1'.
Proof.
  induction rows as [|[src pairs] rows IH]; intros [|[src' pairs'] rows'] g1 g2 g1' Hnz Hids;
    simpl in *; try discriminate.
  - intros [= <-]. eauto.
  - unfold row_shape in Hids at 1 3. simpl in Hids.
    injection Hids as -> Hpairs Hids.
    unfold read_row. simpl. rewrite <- Hnz.
    destruct (normalize_vertex_num (normalizer_ g1) src) as [nz s].
    destruct (read_pairs (Graph nz (adj_list_ g1)) s pairs) as [h1| |] eqn:Hrow;
      simpl; try discriminate.
    destruct (read_pairs_shape pairs pairs' (Graph nz (adj_list_ g1))
                (Graph nz (adj_list_ g2)) s h1 eq_refl Hpairs Hrow)
      as (h2 & Hrow2 & Hnz2).
    rewrite Hrow2. simpl. intros Hrest.
    by apply (IH rows' h1 h2 g1').
Qed.

End Graph.

(** An input on which the pass completes: its first row has no pairs, so
    the index [-1] of its first id is never used as a subscript. *)
Definition sample_rows : list row :=
  [(5, []); (10, [(20, 9)]); (20, [(30, 9)])].

Lemma read_graph_symmetric_witness :
  exists g,
    read_graph convert_edge_w_to_weight graph_init sample_rows = Ok g /\
    forall i j x, (j, x) ∈ adj_list_ g i <-> (i, x) ∈ adj_list_ g j.
Proof.
  eexists. split; [reflexivity|].
  eapply (read_graph_symmetric convert_edge_w_to_weight sample_rows).
  reflexivity.
Defined.

(** *** Raw weights that are not positive *)

(** C5, as stated, fails: a row with the raw weight [0] is read without
    any error and the edge is stored with the distance plus infinity.
    (The first row keeps the first id out of the pairs.) *)
Lemma read_graph_zero_weight_accepted :
  exists g,
    read_graph convert_edge_w_to_weight graph_init [(5, []); (1, [(2, 0)])]
      = Ok g /\
    adj_list_ g 0 = [(1, DPosInf)] /\
    adj_list_ g 1 = [(0, DPosInf)].
Proof.
  eexists. split; [reflexivity|].
  simpl. unfold upd. simpl.
  rewrite convert_edge_w_to_weight_zero. split; reflexivity.
Qed.

(** C5, amended.  The build pass does not look at the raw weights.  When
    it completes on an input, it completes, with the same table, on
    every input that differs from it in the raw weights only, and each
    parsed pair is stored in both lists with its transformed weight,
    whatever that is: plus infinity for the raw weight [0], zero for [-1]
    and NaN for the weights below. *)
Theorem read_graph_no_weight_check (rows rows' : list row) (g : graph) :
  read_graph convert_edge_w_to_weight graph_init rows = Ok g ->
  map row_shape rows' = map row_shape rows ->
  (exists g',
      read_graph convert_edge_w_to_weight graph_init rows' = Ok g' /\
      normalizer_ g' = normalizer_ g /\
      forall s d w, (s, d, w) ∈ parsed_edges rows' ->
        let m := vertex_num_to_normalized_num_ (normalizer_ g') in
        (index_of m d, convert_edge_w_to_weight w) ∈ adj_list_ g' (index_of m s) /\
        (index_of m s, convert_edge_w_to_weight w) ∈ adj_list_ g' (index_of m d)) /\
  convert_edge_w_to_weight 0 = DPosInf /\
  convert_edge_w_to_weight (-1) = DFin 0 /\
  (forall w, -2147483648 <= w -> w < -1 -> convert_edge_w_to_weight w = DNaN).
Proof.
  intros Hread Hshape.
  destruct (read_graph_shape convert_edge_w_to_weight rows rows'
              graph_init graph_init g eq_refl Hshape Hread)
    as (g' & Hread' & Hnz).
  split.
  { exists g'. split; [exact Hread'|]. split; [exact Hnz|].
    intros s d w Hin. by apply (read_graph_stores _ rows'). }
  split; [apply convert_edge_w_to_weight_zero|].
  split; [apply convert_edge_w_to_weight_minus_one|].
  apply convert_edge_w_to_weight_negative.
Qed.

Lemma read_graph_no_weight_check_witness :
  exists g',
    read_graph convert_edge_w_to_weight graph_init
               [(5, []); (1, [(2, 0); (3, -5)])] = Ok g'.
Proof.
  destruct (read_graph_no_weight_check
              [(5, []); (1, [(2, 7); (3, 4)])]
              [(5, []); (1, [(2, 0); (3, -5)])] _ eq_refl eq_refl)
    as ((g' & Hread & _) & _).
  exists g'. exact Hread.
Defined.

(** ** TruncatedShortestPathSearch and NeighborListPadder *)

Section Search.
Context {D : Type}.
(** The distances: [0.0], the constant [inf] of the class ([1e15]), [+]
    and [<] of [double]. *)
Variables (dzero inf : D) (dadd : D -> D -> D) (dlt : D -> D -> bool).

(** [std::min(a, b)]: [b] when [b < a], else [a]. *)
Definition dmin (a b : D) : D := if dlt b a then b else a.

(** *** The frontier, a [std::set<pair<double,int>>] *)

(** [operator<] of [std::pair]. *)
Definition pair_lt (x y : D * Z) : bool :=
  dlt (fst x) (fst y) || (negb (dlt (fst y) (fst x)) && (snd x <? snd y)).

Fixpoint set_insert (x : D * Z) (st : list (D * Z)) : list (D * Z) :=
  match st with
  | [] => [x]
  | y :: st' =>
      if pair_lt x y then x :: st
      else if pair_lt y x then y :: set_insert x st'
      else st
  end.

Fixpoint set_erase (x : D * Z) (st : list (D * Z)) : list (D * Z) :=
  match st with
  | [] => []
  | y :: st' =>
      if pair_lt x y then st
      else if pair_lt y x then y :: set_erase x st'
      else st'
  end.

(** *** The scratch state of the class *)

Record scratch : Type := Scratch {
  timer : Z;
  current_time_ : Z -> Z;
  current_distance_ : Z -> D;
  current_neighbour_indices_ : Z -> Z
}.

Definition set_timer (s : scratch) (t : Z) : scratch :=
  Scratch t (current_time_ s) (current_distance_ s)
          (current_neighbour_indices_ s).

Definition set_time (s : scratch) (i t : Z) : scratch :=
  Scratch (timer s) (upd (current_time_ s) i t) (current_distance_ s)
          (current_neighbour_indices_ s).

Definition set_distance (s : scratch) (i : Z) (d : D) : scratch :=
  Scratch (timer s) (current_time_ s) (upd (current_distance_ s) i d)
          (current_neighbour_indices_ s).

Definition set_neighbour (s : scratch) (i v : Z) : scratch :=
  Scratch (timer s) (current_time_ s) (current_distance_ s)
          (upd (current_neighbour_indices_ s) i v).

(** The graph the searches read. *)
Variable g : @graph D.

(** *** The expansion loop (lines 61 to 96) *)

(** The body of the loop over the edges of [best_vertex]. *)
Definition relax_edge (best_vertex : Z) (acc : scratch * list (D * Z))
           (edge : Z * D) : result (scratch * list (D * Z)) :=
  let '(s, st) := acc in
  let to_vertex := fst edge in
  let weight := snd edge in
  if in_range to_vertex then
    let s1 :=
      if negb (current_time_ s to_vertex =? timer s) then
        set_distance (set_time s to_vertex (timer s)) to_vertex inf
      else s in
    let cur_dist := current_distance_ s1 to_vertex in
    let proposed_dist := dadd (current_distance_ s1 best_vertex) weight in
    let '(s2, st2) :=
      if dlt proposed_dist cur_dist then
        (set_distance s1 to_vertex proposed_dist,
         set_insert (proposed_dist, to_vertex)
                    (set_erase (cur_dist, to_vertex) st))
      else (s1, st) in
    let s3 :=
      set_distance s2 to_vertex
        (dmin (current_distance_ s2 to_vertex)
              (dadd (current_distance_ s2 best_vertex) weight)) in
    Ok (s3, st2)
  else Undefined.

Fixpoint relax_edges (best_vertex : Z) (acc : scratch * list (D * Z))
         (edges : list (Z * D)) : result (scratch * list (D * Z)) :=
  match edges with
  | [] => Ok acc
  | edge :: rest =>
      acc' ← relax_edge best_vertex acc edge;
      relax_edges best_vertex acc' rest
  end.

(** One iteration of the outer loop: extract the least pair, relax the
    edges of its vertex, record the vertex when it is not the first. *)
Definition expand_step (it : Z) (s : scratch) (st : list (D * Z))
  : result (scratch * list (D * Z)) :=
  match st with
  | [] => Ok (s, st)
  | iter :: st' =>
      let best_vertex := snd iter in
      if in_range best_vertex then
        '(s1, st1) ← relax_edges best_vertex (s, st')
                                 (adj_list_ g best_vertex);
        if 0 <? it then
          if in_range it then Ok (set_neighbour s1 it best_vertex, st1)
          else Undefined
        else Ok (s1, st1)
      else Undefined
  end.

(** [for (it = 0; it <= num_of_neighbours && not st.empty(); it++)] *)
Fixpoint expand (fuel : nat) (num_of_neighbours it : Z) (s : scratch)
         (st : list (D * Z)) : result (Z * scratch * list (D * Z)) :=
  if (it <=? num_of_neighbours) && negb (bool_decide (st = [])) then
    match fuel with
    | O => Timeout
    | S fuel' =>
        '(s1, st1) ← expand_step it s st;
        expand fuel' num_of_neighbours (it + 1) s1 st1
    end
  else Ok (it, s, st).

(** *** The padding loop (lines 102 to 112) *)

(** [while (current_time_[cur_idx] == timer) cur_idx++;] *)
Fixpoint skip_touched (fuel : nat) (s : scratch) (cur_idx : Z) : result Z :=
  if in_range cur_idx then
    if current_time_ s cur_idx =? timer s then
      match fuel with
      | O => Timeout
      | S fuel' => skip_touched fuel' s (cur_idx + 1)
      end
    else Ok cur_idx
  else Undefined.

(** [for (; it <= num_of_neighbours; it++)] *)
Fixpoint pad (fuel : nat) (num_of_neighbours it : Z) (s : scratch)
         (cur_idx : Z) : result (Z * scratch) :=
  if it <=? num_of_neighbours then
    match fuel with
    | O => Timeout
    | S fuel' =>
        cur ← skip_touched (Z.to_nat max_vertices_) s cur_idx;
        if in_range it then
          pad fuel' num_of_neighbours (it + 1)
              (set_neighbour (set_distance s cur inf) it cur) (cur + 1)
        else Undefined
    end
  else Ok (it, s).

(** *** The output (lines 114 to 126) *)

(** The pairs printed for [i], [i + 1], ..., [n] of them. *)
Fixpoint emit_from (n : nat) (i : Z) (s : scratch) : result (list (Z * D)) :=
  match n with
  | O => Ok []
  | S n' =>
      if in_range i then
        let best_vertex := current_neighbour_indices_ s i in
        if in_range best_vertex then
          rest ← emit_from n' (i + 1) s;
          Ok ((best_vertex, current_distance_ s best_vertex) :: rest)
        else Undefined
      else Undefined
  end.

(** The row is printed only when [it == num_of_neighbours + 1]. *)
Definition emit (num_of_neighbours it : Z) (s : scratch)
  : result (option (list (Z * D))) :=
  if it =? to_int (num_of_neighbours + 1) then
    r ← emit_from (Z.to_nat num_of_neighbours) 1 s;
    Ok (Some r)
  else Ok None.

(** *** [find_nearest_neighbours] *)

(** Lines 53 to 58: the set, the new stamp and the entry of the source. *)
Definition search_init (s : scratch) (vertex_num : Z)
  : scratch * list (D * Z) :=
  let s0 := set_timer s (to_int (timer s + 1)) in
  let s1 := set_distance (set_time s0 vertex_num (timer s0)) vertex_num dzero in
  (s1, set_insert (current_distance_ s1 vertex_num, vertex_num) []).

(** Lines 53 to 96: the start and the expansion loop.  The set is local to
    the call and is dropped at the end. *)
Definition expand_phase (s : scratch) (vertex_num num_of_neighbours : Z)
  : result (Z * scratch) :=
  if in_range vertex_num then
    '(it, s2, _) ← expand (Z.to_nat (num_of_neighbours + 1))
                          num_of_neighbours 0
                          (fst (search_init s vertex_num))
                          (snd (search_init s vertex_num));
    Ok (it, s2)
  else Undefined.

(** Lines 102 to 112. *)
Definition pad_phase (s : scratch) (num_of_neighbours it : Z)
  : result (Z * scratch) :=
  pad (Z.to_nat (num_of_neighbours + 1)) num_of_neighbours it s 0.

Definition find_nearest_neighbours (s : scratch)
           (vertex_num num_of_neighbours : Z)
  : result (option (list (Z * D)) * scratch) :=
  '(it, s1) ← expand_phase s vertex_num num_of_neighbours;
  '(it', s2) ← pad_phase s1 num_of_neighbours it;
  out ← emit num_of_neighbours it' s2;
  Ok (out, s2).

(** *** The laws of the distances

    They hold of the reals and of the doubles a search meets (sums of
    positive weights from [0.0]: no NaN, no negative zero), where
    rounding is monotone: [<] is a strict total order, adding a weight
    keeps the order, and adding a positive weight does not make a
    distance smaller.  Strict growth is not assumed: in doubles a small
    weight can be absorbed. *)
Record dist_laws : Prop := {
  dlt_irrefl : forall a, dlt a a = false;
  dlt_trans : forall a b c, dlt a b = true -> dlt b c = true -> dlt a c = true;
  dlt_total : forall a b, dlt a b = false -> dlt b a = false -> a = b;
  dadd_mono : forall a b w, dlt b a = false -> dlt (dadd b w) (dadd a w) = false;
  dadd_pos : forall a w, dlt dzero w = true -> dlt (dadd a w) a = false;
  dzero_lt_inf : dlt dzero inf = true
}.

Hypothesis laws : dist_laws.

(** [dle a b]: [a] is not above [b]. *)
Definition dle (a b : D) : Prop := dlt b a = false.

Lemma dle_refl a : dle a a.
Proof. apply (dlt_irrefl laws). Qed.

Lemma dlt_dle a b : dlt a b = true -> dle a b.
Proof.
  intros Hab. unfold dle. destruct (dlt b a) eqn:Hba; [|done].
  pose proof (dlt_trans laws _ _ _ Hab Hba) as Haa.
  by rewrite (dlt_irrefl laws) in Haa.
Qed.

Lemma dlt_dle_trans a b c : dlt a b = true -> dle b c -> dlt a c = true.
Proof.
  intros Hab Hbc. destruct (dlt a c) eqn:Hac; [done|].
  destruct (dlt c a) eqn:Hca.
  - unfold dle in Hbc. by rewrite (dlt_trans laws _ _ _ Hca Hab) in Hbc.
  - rewrite (dlt_total laws _ _ Hac Hca) in Hab.
    unfold dle in Hbc. congruence.
Qed.

Lemma dle_dlt_trans a b c : dle a b -> dlt b c = true -> dlt a c = true.
Proof.
  intros Hab Hbc. destruct (dlt a c) eqn:Hac; [done|].
  destruct (dlt c a) eqn:Hca.
  - unfold dle in Hab. by rewrite (dlt_trans laws _ _ _ Hbc Hca) in Hab.
  - rewrite <- (dlt_total laws _ _ Hac Hca) in Hbc.
    unfold dle in Hab. congruence.
Qed.

Lemma dle_trans a b c : dle a b -> dle b c -> dle a c.
Proof.
  intros Hab Hbc. unfold dle. destruct (dlt c a) eqn:Hca; [|done].
  pose proof (dlt_dle_trans _ _ _ Hca Hab) as Hcb.
  unfold dle in Hbc. congruence.
Qed.

Lemma dle_antisym a b : dle a b -> dle b a -> a = b.
Proof. intros Hab Hba. by apply (dlt_total laws). Qed.

Lemma dlt_not_dle a b : dlt a b = true -> dle b a -> False.
Proof. unfold dle. congruence. Qed.

Lemma dmin_spec a b : dmin a b = if dlt b a then b else a.
Proof. reflexivity. Qed.

(** *** The order of the pairs *)

Lemma pair_lt_irrefl x : pair_lt x x = false.
Proof.
  unfold pair_lt. rewrite (dlt_irrefl laws), Z.ltb_irrefl. reflexivity.
Qed.

Lemma pair_lt_spec x y :
  pair_lt x y = true <->
  dlt (fst x) (fst y) = true \/ (fst x = fst y /\ snd x < snd y).
Proof.
  unfold pair_lt. rewrite orb_true_iff, andb_true_iff, negb_true_iff, Z.ltb_lt.
  split; intros [H|[H1 H2]]; auto.
  - destruct (dlt (fst x) (fst y)) eqn:Hxy; [by left|right].
    split; [by apply (dlt_total laws)|done].
  - destruct (dlt (fst x) (fst y)) eqn:Hxy; [by left|right].
    split; [|done]. rewrite H1. apply (dlt_irrefl laws).
Qed.

Lemma pair_lt_trans x y z :
  pair_lt x y = true -> pair_lt y z = true -> pair_lt x z = true.
Proof.
  rewrite !pair_lt_spec. intros [H1|[H1 H1']] [H2|[H2 H2']].
  - left. by eapply (dlt_trans laws).
  - left. by rewrite <- H2.
  - left. by rewrite H1.
  - right. split; [congruence|lia].
Qed.

Lemma pair_lt_total x y :
  pair_lt x y = false -> pair_lt y x = false -> x = y.
Proof.
  intros Hxy Hyx. destruct x as [a i], y as [b j].
  destruct (dlt a b) eqn:Hab.
  { assert (pair_lt (a, i) (b, j) = true) by (apply pair_lt_spec; auto).
    congruence. }
  destruct (dlt b a) eqn:Hba.
  { assert (pair_lt (b, j) (a, i) = true) by (apply pair_lt_spec; auto).
    congruence. }
  pose proof (dlt_total laws _ _ Hab Hba) as ->.
  destruct (Z.lt_trichotomy i j) as [Hlt|[->|Hgt]]; [|done|].
  - assert (pair_lt (b, i) (b, j) = true) by (apply pair_lt_spec; auto).
    congruence.
  - assert (pair_lt (b, j) (b, i) = true) by (apply pair_lt_spec; simpl; auto with lia).
    congruence.
Qed.

Lemma pair_lt_asym x y : pair_lt x y = true -> pair_lt y x = false.
Proof.
  intros Hxy. destruct (pair_lt y x) eqn:Hyx; [|done].
  pose proof (pair_lt_trans _ _ _ Hxy Hyx) as Hxx.
  by rewrite pair_lt_irrefl in Hxx.
Qed.

Lemma pair_lt_fst_dle x y : pair_lt x y = true -> dle (fst x) (fst y).
Proof.
  rewrite pair_lt_spec. intros [H|[H _]].
  - by apply dlt_dle.
  - rewrite H. apply dle_refl.
Qed.

(** *** The set operations on a sorted frontier *)

Definition set_sorted (st : list (D * Z)) : Prop :=
  StronglySorted (fun x y => pair_lt x y = true) st.

Lemma set_sorted_nil : set_sorted [].
Proof. constructor. Qed.

Lemma set_sorted_tail x st : set_sorted (x :: st) -> set_sorted st.
Proof. intros H. by inversion H. Qed.

Lemma set_sorted_head x st y :
  set_sorted (x :: st) -> y ∈ st -> pair_lt x y = true.
Proof.
  intros H Hy. inversion H as [|? ? _ Hall]; subst.
  by apply (proj1 (Forall_forall _ _) Hall).
Qed.

Lemma set_sorted_head_notin x st : set_sorted (x :: st) -> x ∉ st.
Proof.
  intros H Hx. pose proof (set_sorted_head _ _ _ H Hx) as Hlt.
  by rewrite pair_lt_irrefl in Hlt.
Qed.

Lemma set_insert_elem x st z :
  set_sorted st -> z ∈ set_insert x st <-> z = x \/ z ∈ st.
Proof.
  induction st as [|y st IH]; intros Hs; simpl.
  - rewrite list_elem_of_singleton, elem_of_nil. tauto.
  - destruct (pair_lt x y) eqn:Hxy.
    + by rewrite elem_of_cons.
    + destruct (pair_lt y x) eqn:Hyx.
      * rewrite !elem_of_cons, IH by (by eapply set_sorted_tail). tauto.
      * pose proof (pair_lt_total _ _ Hxy Hyx) as ->.
        rewrite elem_of_cons. tauto.
Qed.

Lemma set_insert_sorted x st : set_sorted st -> set_sorted (set_insert x st).
Proof.
  induction st as [|y st IH]; intros Hs; simpl.
  - repeat constructor.
  - destruct (pair_lt x y) eqn:Hxy.
    + constructor; [done|]. apply Forall_forall. intros z Hz.
      apply elem_of_cons in Hz as [->|Hz]; [done|].
      eapply pair_lt_trans; [done|]. by eapply set_sorted_head.
    + destruct (pair_lt y x) eqn:Hyx; [|done].
      constructor; [apply IH; by eapply set_sorted_tail|].
      apply Forall_forall. intros z Hz.
      apply set_insert_elem in Hz as [->|Hz]; [done| |by eapply set_sorted_tail].
      by eapply set_sorted_head.
Qed.

Lemma set_erase_elem x st z :
  set_sorted st -> z ∈ set_erase x st <-> z ∈ st /\ z <> x.
Proof.
  induction st as [|y st IH]; intros Hs; simpl.
  - rewrite elem_of_nil. tauto.
  - destruct (pair_lt x y) eqn:Hxy.
    + split; [|tauto]. intros Hz. split; [done|]. intros ->.
      apply elem_of_cons in Hz as [->|Hz].
      * by rewrite pair_lt_irrefl in Hxy.
      * pose proof (set_sorted_head _ _ _ Hs Hz) as Hyx.
        apply pair_lt_asym in Hyx. congruence.
    + destruct (pair_lt y x) eqn:Hyx.
      * rewrite !elem_of_cons, IH by (by eapply set_sorted_tail).
        split; [intros [->|[? ?]]|intros [[->|?] ?]]; auto.
        split; [by left|]. intros ->. by rewrite pair_lt_irrefl in Hyx.
      * pose proof (pair_lt_total _ _ Hxy Hyx) as ->.
        rewrite elem_of_cons. split.
        -- intros Hz. split; [by right|]. intros ->.
           by eapply set_sorted_head_notin.
        -- intros [[->|Hz] Hne]; [done|done].
Qed.

Lemma set_erase_sorted x st : set_sorted st -> set_sorted (set_erase x st).
Proof.
  induction st as [|y st IH]; intros Hs; simpl.
  - constructor.
  - destruct (pair_lt x y) eqn:Hxy; [done|].
    destruct (pair_lt y x) eqn:Hyx; [|by eapply set_sorted_tail].
    constructor; [apply IH; by eapply set_sorted_tail|].
    apply Forall_forall. intros z Hz.
    apply set_erase_elem in Hz as [Hz _]; [|by eapply set_sorted_tail].
    by eapply set_sorted_head.
Qed.

(** *** Graphs, walks and shortest distances *)

(** The vertices of the graph are the indices below [N]; the arrays hold
    them, the edges stay among them and carry positive distances. *)
Variable N : Z.

Record graph_ok : Prop := {
  go_cap : N <= max_vertices_;
  go_edges : forall u to w,
      0 <= u < N -> (to, w) ∈ adj_list_ g u ->
      0 <= to < N /\ dlt dzero w = true
}.

(** [walk v u l]: some walk from [v] to [u] has length [l], the distances
    of its edges added up from [0] the way the search adds them. *)
Inductive walk (v : Z) : Z -> D -> Prop :=
  | walk_nil : walk v v dzero
  | walk_step u l to w :
      walk v u l -> (to, w) ∈ adj_list_ g u -> walk v to (dadd l w).

Definition reachable (v u : Z) : Prop := exists l, walk v u l.

(** [d] is the shortest-path distance from [v] to [u]. *)
Definition shortest (v u : Z) (d : D) : Prop :=
  walk v u d /\ forall l, walk v u l -> dle d l.

(** A slot is touched by the running search when it bears its stamp. *)
Definition stamped (s : scratch) (y : Z) : Prop :=
  current_time_ s y = timer s.

(** No slot bears a stamp of a search still to come. *)
Record scratch_ok (s : scratch) : Prop := {
  so_timer : 0 <= timer s < int_max;
  so_stamps : forall i, current_time_ s i <= timer s
}.

Hypothesis Hg : graph_ok.

Lemma walk_in_range v u l : 0 <= v < N -> walk v u l -> 0 <= u < N.
Proof.
  intros Hv Hw. induction Hw as [|u l to w Hw IH Hin]; [done|].
  by apply (go_edges Hg u to w).
Qed.

Lemma walk_extend_dle v u l to w :
  0 <= v < N -> walk v u l -> (to, w) ∈ adj_list_ g u -> dle l (dadd l w).
Proof.
  intros Hv Hw Hin. apply (dadd_pos laws).
  eapply (go_edges Hg u to w); [by eapply walk_in_range|done].
Qed.

Lemma walk_nonneg v u l : 0 <= v < N -> walk v u l -> dle dzero l.
Proof.
  intros Hv Hw. induction Hw as [|u l to w Hw IH Hin]; [apply dle_refl|].
  eapply dle_trans; [exact IH|]. by eapply walk_extend_dle.
Qed.

(** *** The invariant of the search

    [S] lists the vertices extracted so far, in order; [E] holds the
    edges already relaxed. *)
Record search_inv (v : Z) (E : Z -> Z * D -> Prop) (S : list Z)
       (s : scratch) (st : list (D * Z)) : Prop := {
  si_src : stamped s v /\ current_distance_ s v = dzero;
  si_bounds : forall y, stamped s y -> 0 <= y < N;
  si_front : forall k y,
      (k, y) ∈ st <->
      stamped s y /\ (y ∉ S) /\ current_distance_ s y = k /\
      dlt k inf = true;
  si_sorted : set_sorted st;
  si_settled : forall u,
      u ∈ S -> stamped s u /\ dlt (current_distance_ s u) inf = true;
  si_nodup : NoDup S;
  si_dom : forall u e, E u e -> u ∈ S;
  si_relaxed : forall u y w,
      E u (y, w) ->
      stamped s y /\
      dle (current_distance_ s y) (dadd (current_distance_ s u) w);
  si_walk : forall y,
      stamped s y -> dlt (current_distance_ s y) inf = true ->
      walk v y (current_distance_ s y);
  si_min : forall u l,
      u ∈ S -> walk v u l -> dle (current_distance_ s u) l;
  si_order : forall u k y,
      u ∈ S -> (k, y) ∈ st -> dle (current_distance_ s u) k;
  si_sortedS :
    StronglySorted
      (fun a b => dle (current_distance_ s a) (current_distance_ s b)) S;
  si_cap : forall y, stamped s y -> dle (current_distance_ s y) inf;
  si_reach : forall y, stamped s y -> reachable v y
}.

(** What one pass through the loop body does to the state. *)
Lemma relax_edge_eq best s st to w :
  in_range to = true ->
  stamped s best ->
  dle (current_distance_ s best) (dadd (current_distance_ s best) w) ->
  let cur := if current_time_ s to =? timer s
             then current_distance_ s to else inf in
  let P := dadd (current_distance_ s best) w in
  exists s',
    relax_edge best (s, st) (to, w) =
      Ok (s', if dlt P cur
              then set_insert (P, to) (set_erase (cur, to) st) else st) /\
    timer s' = timer s /\
    current_neighbour_indices_ s' = current_neighbour_indices_ s /\
    (forall y, current_time_ s' y =
               if y =? to then timer s else current_time_ s y) /\
    (forall y, current_distance_ s' y =
               if y =? to then (if dlt P cur then P else cur)
               else current_distance_ s y).
Proof.
  intros Hto Hbest HP cur P. unfold relax_edge. cbn [fst snd].
  rewrite Hto.
  destruct (current_time_ s to =? timer s) eqn:Hst; cbn [negb].
  - (* already touched *)
    apply Z.eqb_eq in Hst. fold P. subst cur.
    destruct (dlt P (current_distance_ s to)) eqn:Hlt.
    + assert (Hne : best <> to).
      { intros ->. eapply dlt_not_dle; [exact Hlt|exact HP]. }
      eexists. split; [reflexivity|]. cbn.
      split; [done|]. split; [done|]. split.
      * intros y. destruct (y =? to) eqn:Hy; [|done].
        apply Z.eqb_eq in Hy. by subst.
      * intros y. destruct (y =? to) eqn:Hy.
        -- apply Z.eqb_eq in Hy. subst y.
           rewrite !upd_eq, (upd_ne _ _ _ best) by done.
           fold P. unfold dmin. by rewrite (dlt_irrefl laws).
        -- apply Z.eqb_neq in Hy. by rewrite !upd_ne.
    + eexists. split; [reflexivity|]. cbn.
      split; [done|]. split; [done|]. split.
      * intros y. destruct (y =? to) eqn:Hy; [|done].
        apply Z.eqb_eq in Hy. by subst.
      * intros y. destruct (y =? to) eqn:Hy.
        -- apply Z.eqb_eq in Hy. subst y.
           rewrite !upd_eq. fold P. unfold dmin. by rewrite Hlt.
        -- apply Z.eqb_neq in Hy. by rewrite !upd_ne.
  - (* first touch *)
    apply Z.eqb_neq in Hst.
    assert (Hne : best <> to).
    { intros ->. by apply Hst. }
    subst cur. cbn [current_distance_ set_distance set_time].
    rewrite upd_eq, (upd_ne _ _ _ best) by done. fold P.
    destruct (dlt P inf) eqn:Hlt.
    + eexists. split; [reflexivity|]. cbn.
      split; [done|]. split; [done|]. split.
      * intros y. unfold upd. by destruct (y =? to).
      * intros y. destruct (y =? to) eqn:Hy.
        -- apply Z.eqb_eq in Hy. subst y.
           rewrite !upd_eq, !(upd_ne _ _ _ best) by done.
           fold P. unfold dmin. by rewrite (dlt_irrefl laws).
        -- apply Z.eqb_neq in Hy. by rewrite !upd_ne.
    + eexists. split; [reflexivity|]. cbn.
      split; [done|]. split; [done|]. split.
      * intros y. unfold upd. by destruct (y =? to).
      * intros y. destruct (y =? to) eqn:Hy.
        -- apply Z.eqb_eq in Hy. subst y.
           rewrite !upd_eq, !(upd_ne _ _ _ best) by done.
           fold P. unfold dmin. by rewrite Hlt.
        -- apply Z.eqb_neq in Hy. by rewrite !upd_ne.
Qed.

(** *** One relaxation keeps the invariant *)

Lemma stamped_dec s y : {stamped s y} + {~ stamped s y}.
Proof. unfold stamped. apply Z.eq_dec. Qed.

Lemma sorted_le_last {A} (R : A -> A -> Prop) (l : list A) (x : A) :
  (forall a, R a a) ->
  StronglySorted R l -> last l = Some x -> forall u, u ∈ l -> R u x.
Proof.
  intros Hrefl Hs Hlast u Hu.
  induction Hs as [|a l Hs IH Hall]; [by apply elem_of_nil in Hu|].
  destruct l as [|b l].
  - simpl in Hlast. injection Hlast as <-.
    apply list_elem_of_singleton in Hu. by subst.
  - change (last (a :: b :: l)) with (last (b :: l)) in Hlast.
    apply elem_of_cons in Hu as [->|Hu]; [|by apply IH].
    apply (proj1 (Forall_forall _ _) Hall).
    apply last_Some_elem_of. exact Hlast.
Qed.

Lemma sorted_impl_in {A} (R R' : A -> A -> Prop) (l : list A) :
  (forall a b, a ∈ l -> b ∈ l -> R a b -> R' a b) ->
  StronglySorted R l -> StronglySorted R' l.
Proof.
  intros Himp Hs. induction Hs as [|a l Hs IH Hall]; [constructor|].
  constructor.
  - apply IH. intros x y Hx Hy. apply Himp; by right.
  - apply Forall_forall. intros x Hx. apply Himp; [by left|by right|].
    by apply (proj1 (Forall_forall _ _) Hall).
Qed.

Lemma relax_edge_inv v E S best s st to w :
  0 <= v < N ->
  search_inv v E S s st ->
  last S = Some best ->
  (to, w) ∈ adj_list_ g best ->
  exists s' st',
    relax_edge best (s, st) (to, w) = Ok (s', st') /\
    search_inv v (fun u e => E u e \/ (u = best /\ e = (to, w))) S s' st' /\
    timer s' = timer s /\
    current_neighbour_indices_ s' = current_neighbour_indices_ s /\
    (forall y, current_time_ s' y = current_time_ s y \/
               current_time_ s' y = timer s).
Proof.
  intros Hv Hinv Hlast Hin.
  assert (HbS : best ∈ S) by (by apply last_Some_elem_of).
  destruct (si_settled _ _ _ _ _ Hinv best HbS) as [Hbst Hbinf].
  pose proof (si_bounds _ _ _ _ _ Hinv best Hbst) as Hbr.
  destruct (go_edges Hg best to w Hbr Hin) as [Hto Hw].
  assert (HP : dle (current_distance_ s best)
                   (dadd (current_distance_ s best) w))
    by (by apply (dadd_pos laws)).
  assert (Hle : forall u, u ∈ S ->
            dle (current_distance_ s u) (current_distance_ s best)).
  { intros u Hu.
    apply (sorted_le_last
             (fun a b => dle (current_distance_ s a) (current_distance_ s b))
             S best); [intros a; apply dle_refl| |done|done].
    apply (si_sortedS _ _ _ _ _ Hinv). }
  assert (Hrange : in_range to = true).
  { apply in_range_true. pose proof (go_cap Hg). lia. }
  destruct (relax_edge_eq best s st to w Hrange Hbst HP)
    as (s' & Heq & Ht & Hc & Hct & Hcd).
  set (cur := if current_time_ s to =? timer s
              then current_distance_ s to else inf) in *.
  set (P := dadd (current_distance_ s best) w) in *.
  assert (Hcur : stamped s to -> cur = current_distance_ s to).
  { intros Hs. unfold cur. unfold stamped in Hs. by rewrite Hs, Z.eqb_refl. }
  assert (Hcur' : ~ stamped s to -> cur = inf).
  { intros Hs. unfold cur. unfold stamped in Hs.
    by rewrite (proj2 (Z.eqb_neq _ _) Hs). }
  assert (Hcap : dle cur inf).
  { destruct (stamped_dec s to) as [Hs|Hs].
    - rewrite (Hcur Hs). by apply (si_cap _ _ _ _ _ Hinv).
    - rewrite (Hcur' Hs). apply dle_refl. }
  assert (HtoS : to ∈ S -> dlt P cur = false).
  { intros HS. destruct (si_settled _ _ _ _ _ Hinv to HS) as [Hs _].
    rewrite (Hcur Hs). eapply dle_trans; [by apply Hle|exact HP]. }
  assert (Hframe : forall u, u ∈ S ->
            current_distance_ s' u = current_distance_ s u).
  { intros u HS. rewrite Hcd. destruct (u =? to) eqn:Hu; [|done].
    apply Z.eqb_eq in Hu. subst u. rewrite (HtoS HS).
    apply Hcur. by apply (si_settled _ _ _ _ _ Hinv). }
  assert (Hst' : forall y, stamped s' y <-> stamped s y \/ y = to).
  { intros y. unfold stamped. rewrite Hct, Ht.
    destruct (y =? to) eqn:Hy.
    - apply Z.eqb_eq in Hy. tauto.
    - apply Z.eqb_neq in Hy. tauto. }
  assert (Hdle : forall y, stamped s y ->
            dle (current_distance_ s' y) (current_distance_ s y)).
  { intros y Hs. rewrite Hcd. destruct (y =? to) eqn:Hy; [|apply dle_refl].
    apply Z.eqb_eq in Hy. subst y. rewrite <- (Hcur Hs).
    destruct (dlt P cur) eqn:Hlt; [by apply dlt_dle|apply dle_refl]. }
  assert (Hdto : current_distance_ s' to = if dlt P cur then P else cur).
  { by rewrite Hcd, Z.eqb_refl. }
  assert (Hdne : forall y, y <> to ->
            current_distance_ s' y = current_distance_ s y).
  { intros y Hy. rewrite Hcd. by rewrite (proj2 (Z.eqb_neq _ _) Hy). }
  assert (Hold : forall k, (k, to) ∈ st -> k = cur /\ stamped s to).
  { intros k Hk. apply (si_front _ _ _ _ _ Hinv) in Hk as (Hs & _ & Hd & _).
    split; [|done]. by rewrite (Hcur Hs). }
  pose proof (si_sorted _ _ _ _ _ Hinv) as Hsorted.
  assert (Hfront' : forall k y,
            (k, y) ∈ (if dlt P cur
                      then set_insert (P, to) (set_erase (cur, to) st)
                      else st) <->
            (y = to /\ dlt P cur = true /\ k = P) \/
            (y <> to /\ (k, y) ∈ st) \/
            (y = to /\ dlt P cur = false /\ (k, y) ∈ st)).
  { intros k y. destruct (dlt P cur) eqn:Hlt.
    - rewrite set_insert_elem by (by apply set_erase_sorted).
      rewrite set_erase_elem by done.
      split.
      + intros [[= -> ->]|[Hk Hne]]; [by left|].
        destruct (decide (y = to)) as [->|Hy]; [|by right; left].
        destruct (Hold _ Hk) as [-> _]. done.
      + intros [(-> & _ & ->)|[[Hy Hk]|(_ & ? & _)]]; [by left| |done].
        right. split; [done|]. congruence.
    - destruct (decide (y = to)) as [->|Hy].
      + split; [intros Hk; by right; right|].
        intros [(_ & ? & _)|[[? _]|(_ & _ & ?)]]; done.
      + split; [intros Hk; by right; left|].
        intros [(? & _)|[[_ ?]|(? & _)]]; done. }
  exists s', (if dlt P cur
              then set_insert (P, to) (set_erase (cur, to) st) else st).
  split; [exact Heq|]. split.
  2:{ split; [done|]. split; [done|]. intros y. rewrite Hct.
      destruct (y =? to); auto. }
  constructor.
  - (* si_src *)
    destruct (si_src _ _ _ _ _ Hinv) as [Hs Hd].
    split; [apply Hst'; by left|].
    destruct (decide (v = to)) as [->|Hne]; [|by rewrite Hdne].
    rewrite Hdto, <- Hd.
    destruct (dlt P cur) eqn:Hlt; [|by apply Hcur].
    exfalso. rewrite (Hcur Hs), Hd in Hlt.
    eapply dlt_not_dle; [exact Hlt|].
    eapply dle_trans; [|exact HP].
    eapply walk_nonneg; [exact Hv|].
    by apply (si_walk _ _ _ _ _ Hinv).
  - (* si_bounds *)
    intros y Hy. apply Hst' in Hy as [Hy| ->]; [|done].
    by apply (si_bounds _ _ _ _ _ Hinv).
  - (* si_front *)
    intros k y. rewrite Hfront', Hst'. split.
    + intros [(-> & Hlt & ->)|[[Hy Hk]|(-> & Hlt & Hk)]].
      * split; [by right|]. split.
        { intros HS. rewrite (HtoS HS) in Hlt. done. }
        split; [by rewrite Hdto, Hlt|].
        by eapply dlt_dle_trans.
      * apply (si_front _ _ _ _ _ Hinv) in Hk as (Hs & HS & Hd & Hk).
        split; [by left|]. split; [done|]. split; [|done].
        by rewrite Hdne.
      * apply (si_front _ _ _ _ _ Hinv) in Hk as (Hs & HS & Hd & Hk).
        split; [by left|]. split; [done|]. split; [|done].
        by rewrite Hdto, Hlt, (Hcur Hs).
    + intros (Hs & HS & Hd & Hk).
      destruct (decide (y = to)) as [->|Hy].
      * rewrite Hdto in Hd. destruct (dlt P cur) eqn:Hlt; [by left|].
        right; right. split; [done|]. split; [done|].
        apply (si_front _ _ _ _ _ Hinv).
        destruct (stamped_dec s to) as [Hs0|Hs0].
        -- rewrite <- Hd, (Hcur Hs0). repeat split; try done.
           by rewrite <- (Hcur Hs0), Hd.
        -- exfalso. rewrite (Hcur' Hs0) in Hd. subst k.
           by rewrite (dlt_irrefl laws) in Hk.
      * right; left. split; [done|].
        apply (si_front _ _ _ _ _ Hinv).
        destruct Hs as [Hs|Hs]; [|done].
        rewrite Hdne in Hd by done. done.
  - (* si_sorted *)
    destruct (dlt P cur); [|done].
    by apply set_insert_sorted, set_erase_sorted.
  - (* si_settled *)
    intros u HS. destruct (si_settled _ _ _ _ _ Hinv u HS) as [Hs Hd].
    split; [apply Hst'; by left|]. by rewrite Hframe.
  - apply (si_nodup _ _ _ _ _ Hinv).
  - (* si_dom *)
    intros u e [HE|[-> _]]; [by eapply (si_dom _ _ _ _ _ Hinv)|done].
  - (* si_relaxed *)
    intros u y w' [HE|[-> [= -> ->]]].
    + destruct (si_relaxed _ _ _ _ _ Hinv u y w' HE) as [Hs Hd].
      split; [apply Hst'; by left|].
      rewrite (Hframe u) by (by eapply (si_dom _ _ _ _ _ Hinv)).
      eapply dle_trans; [by apply Hdle|done].
    + split; [apply Hst'; by right|].
      rewrite (Hframe best) by done. fold P. rewrite Hdto.
      destruct (dlt P cur) eqn:Hlt; [apply dle_refl|exact Hlt].
  - (* si_walk *)
    intros y Hs Hd.
    destruct (decide (y = to)) as [->|Hy].
    + rewrite Hdto in Hd |- *. destruct (dlt P cur) eqn:Hlt.
      * eapply walk_step; [|exact Hin].
        by apply (si_walk _ _ _ _ _ Hinv).
      * destruct (stamped_dec s to) as [Hs0|Hs0].
        -- rewrite (Hcur Hs0) in Hd |- *. by apply (si_walk _ _ _ _ _ Hinv).
        -- rewrite (Hcur' Hs0) in Hd. by rewrite (dlt_irrefl laws) in Hd.
    + apply Hst' in Hs as [Hs|?]; [|done].
      rewrite Hdne in Hd |- * by done. by apply (si_walk _ _ _ _ _ Hinv).
  - (* si_min *)
    intros u l HS Hwalk. rewrite Hframe by done.
    by apply (si_min _ _ _ _ _ Hinv).
  - (* si_order *)
    intros u k y HS Hk. rewrite Hframe by done.
    apply Hfront' in Hk as [(-> & Hlt & ->)|[[Hy Hk]|(-> & Hlt & Hk)]].
    + eapply dle_trans; [by apply Hle|exact HP].
    + by eapply (si_order _ _ _ _ _ Hinv).
    + by eapply (si_order _ _ _ _ _ Hinv).
  - (* si_sortedS *)
    eapply sorted_impl_in; [|apply (si_sortedS _ _ _ _ _ Hinv)].
    intros a b Ha Hb Hab. by rewrite !Hframe.
  - (* si_cap *)
    intros y Hs. destruct (decide (y = to)) as [->|Hy].
    + rewrite Hdto. destruct (dlt P cur) eqn:Hlt; [|done].
      apply dlt_dle. by eapply dlt_dle_trans.
    + apply Hst' in Hs as [Hs|?]; [|done].
      rewrite Hdne by done. by apply (si_cap _ _ _ _ _ Hinv).
  - (* si_reach *)
    intros y Hs. apply Hst' in Hs as [Hs| ->].
    + by apply (si_reach _ _ _ _ _ Hinv).
    + eexists. eapply walk_step; [|exact Hin].
      by apply (si_walk _ _ _ _ _ Hinv).
Qed.


Lemma search_inv_weaken v (E E' : Z -> Z * D -> Prop) S s st :
  (forall u e, E' u e -> E u e) ->
  search_inv v E S s st -> search_inv v E' S s st.
Proof.
  intros Himp Hinv. destruct Hinv. constructor; try done.
  - intros u e HE. eapply si_dom0. by apply Himp.
  - intros u y w HE. apply si_relaxed0. by apply Himp.
Qed.

Lemma relax_edges_inv v S best edges :
  forall E s st,
    0 <= v < N ->
    search_inv v E S s st ->
    last S = Some best ->
    (forall e, e ∈ edges -> e ∈ adj_list_ g best) ->
    exists s' st',
      relax_edges best (s, st) edges = Ok (s', st') /\
      search_inv v (fun u e => E u e \/ (u = best /\ e ∈ edges)) S s' st' /\
      timer s' = timer s /\
      current_neighbour_indices_ s' = current_neighbour_indices_ s /\
      (forall y, current_time_ s' y = current_time_ s y \/
                 current_time_ s' y = timer s).
Proof.
  induction edges as [|[to w] edges IH]; intros E s st Hv Hinv Hlast Hsub.
  - exists s, st. split; [done|]. split; [|auto].
    eapply search_inv_weaken; [|exact Hinv].
    intros u e [HE|[_ He]]; [done|]. by apply elem_of_nil in He.
  - destruct (relax_edge_inv v E S best s st to w Hv Hinv Hlast)
      as (s1 & st1 & Hstep & Hinv1 & Ht1 & Hc1 & Hct1); [apply Hsub; by left|].
    destruct (IH _ s1 st1 Hv Hinv1 Hlast)
      as (s2 & st2 & Hrest & Hinv2 & Ht2 & Hc2 & Hct2).
    { intros e He. apply Hsub. by right. }
    exists s2, st2. cbn [relax_edges]. rewrite Hstep. simpl.
    split; [exact Hrest|]. split.
    2:{ split; [congruence|]. split; [congruence|]. intros y.
        destruct (Hct2 y) as [H2|H2], (Hct1 y) as [H1|H1];
          rewrite ?H2, ?H1, ?Ht1; auto. }
    eapply search_inv_weaken; [|exact Hinv2].
    intros u e [HE|[-> He]]; [by left; left|].
    apply elem_of_cons in He as [->|He]; [by left; right|by right].
Qed.

(** *** Every short walk ends in the settled part or crosses the frontier *)

Lemma walk_cases v E S s st :
  0 <= v < N ->
  search_inv v E S s st ->
  (forall u e, u ∈ S -> e ∈ adj_list_ g u -> E u e) ->
  forall y l,
    walk v y l -> dlt l inf = true ->
    (y ∈ S /\ dle (current_distance_ s y) l) \/
    (exists k z, (k, z) ∈ st /\ dle k l).
Proof.
  intros Hv Hinv Hclosed y l Hw.
  induction Hw as [|u l to w Hw IH Hin]; intros Hl.
  - destruct (si_src _ _ _ _ _ Hinv) as [Hs Hd].
    destruct (decide (v ∈ S)) as [HS|HS].
    + left. split; [done|]. rewrite Hd. apply dle_refl.
    + right. exists dzero, v. split; [|apply dle_refl].
      apply (si_front _ _ _ _ _ Hinv). by rewrite Hd.
  - pose proof (walk_extend_dle _ _ _ _ _ Hv Hw Hin) as Hext.
    destruct IH as [[HS Hd]|(k & z & Hk & Hd)].
    + by eapply dle_dlt_trans.
    + destruct (si_relaxed _ _ _ _ _ Hinv u to w (Hclosed _ _ HS Hin))
        as [Hs Hrel].
      assert (Hto : dle (current_distance_ s to) (dadd l w)).
      { eapply dle_trans; [exact Hrel|]. by apply (dadd_mono laws). }
      destruct (decide (to ∈ S)) as [HtoS|HtoS]; [by left|].
      right. exists (current_distance_ s to), to. split; [|done].
      apply (si_front _ _ _ _ _ Hinv). repeat split; try done.
      by eapply dle_dlt_trans.
    + right. exists k, z. split; [done|]. by eapply dle_trans.
Qed.

(** *** Extracting the least pair keeps the invariant *)

Lemma sorted_snoc {A} (R : A -> A -> Prop) (l : list A) (x : A) :
  StronglySorted R l -> (forall a, a ∈ l -> R a x) ->
  StronglySorted R (l ++ [x]).
Proof.
  intros Hs Hx. induction Hs as [|a l Hs IH Hall]; simpl.
  - repeat constructor.
  - constructor.
    + apply IH. intros b Hb. apply Hx. by right.
    + apply Forall_app. split; [done|].
      apply Forall_singleton. apply Hx. by left.
Qed.

Lemma extract_inv v E S s k best st' :
  0 <= v < N ->
  search_inv v E S s ((k, best) :: st') ->
  (forall u e, u ∈ S -> e ∈ adj_list_ g u -> E u e) ->
  search_inv v E (S ++ [best]) s st' /\
  current_distance_ s best = k /\ best ∉ S.
Proof.
  intros Hv Hinv Hclosed.
  pose proof (si_sorted _ _ _ _ _ Hinv) as Hsorted.
  destruct (proj1 (si_front _ _ _ _ _ Hinv k best)) as (Hbs & HbS & Hbd & Hbk);
    [by left|].
  assert (Hmin : forall k' y, (k', y) ∈ st' -> dle k k').
  { intros k' y Hy.
    apply (pair_lt_fst_dle (k, best) (k', y)). by eapply set_sorted_head. }
  assert (Hne : forall k' y, (k', y) ∈ st' -> y <> best).
  { intros k' y Hy ->.
    assert (Hk' : (k', best) ∈ (k, best) :: st') by (by right).
    apply (si_front _ _ _ _ _ Hinv) in Hk' as (_ & _ & Hd & _).
    rewrite Hbd in Hd. subst k'.
    by apply (set_sorted_head_notin _ _ Hsorted). }
  split; [|done].
  constructor.
  - apply (si_src _ _ _ _ _ Hinv).
  - apply (si_bounds _ _ _ _ _ Hinv).
  - intros k' y. rewrite not_elem_of_app, list_elem_of_singleton. split.
    + intros Hy.
      destruct (proj1 (si_front _ _ _ _ _ Hinv k' y)) as (? & ? & ? & ?);
        [by right|].
      repeat split; try done. by eapply Hne.
    + intros (Hs & [HS Hy] & Hd & Hk).
      assert (Hin : (k', y) ∈ (k, best) :: st')
        by (by apply (si_front _ _ _ _ _ Hinv)).
      apply elem_of_cons in Hin as [[= -> ->]|?]; done.
  - by eapply set_sorted_tail.
  - intros u Hu. apply elem_of_app in Hu as [Hu|Hu].
    + by apply (si_settled _ _ _ _ _ Hinv).
    + apply list_elem_of_singleton in Hu. subst u. by rewrite Hbd.
  - apply NoDup_app. split; [apply (si_nodup _ _ _ _ _ Hinv)|].
    split; [|apply NoDup_singleton].
    intros x Hx Hx'. apply list_elem_of_singleton in Hx'. by subst.
  - intros u e HE. apply elem_of_app. left. by eapply (si_dom _ _ _ _ _ Hinv).
  - apply (si_relaxed _ _ _ _ _ Hinv).
  - apply (si_walk _ _ _ _ _ Hinv).
  - intros u l Hu Hw. apply elem_of_app in Hu as [Hu|Hu].
    + by apply (si_min _ _ _ _ _ Hinv).
    + apply list_elem_of_singleton in Hu. subst u. rewrite Hbd.
      destruct (dlt l inf) eqn:Hl.
      * destruct (walk_cases v E S s _ Hv Hinv Hclosed best l Hw Hl)
          as [[HS _]|(k' & z & Hz & Hd)]; [done|].
        eapply dle_trans; [|exact Hd].
        apply elem_of_cons in Hz as [[= -> ->]|Hz]; [apply dle_refl|].
        by eapply Hmin.
      * apply dlt_dle. by eapply dlt_dle_trans.
  - intros u k' y Hu Hy. apply elem_of_app in Hu as [Hu|Hu].
    + eapply (si_order _ _ _ _ _ Hinv); [done|by right].
    + apply list_elem_of_singleton in Hu. subst u. rewrite Hbd.
      by eapply Hmin.
  - apply sorted_snoc; [apply (si_sortedS _ _ _ _ _ Hinv)|].
    intros u Hu. rewrite Hbd.
    eapply (si_order _ _ _ _ _ Hinv); [done|by left].
  - apply (si_cap _ _ _ _ _ Hinv).
  - apply (si_reach _ _ _ _ _ Hinv).
Qed.


(** *** The invariant at the head of the expansion loop *)

(** The edges of the extracted vertices. *)
Definition edges_of (S : list Z) : Z -> Z * D -> Prop :=
  fun u e => u ∈ S /\ e ∈ adj_list_ g u.

(** At the head of the loop, after [it] iterations of the search from
    [v] with stamp [t]: [S] holds the [it] vertices extracted, the source
    first, and the slots [1 .. it-1] of the record array hold the
    others. *)
Record loop_inv (v t it : Z) (S : list Z) (s : scratch)
       (st : list (D * Z)) : Prop := {
  li_inv : search_inv v (edges_of S) S s st;
  li_timer : timer s = t;
  li_len : Z.of_nat (length S) = it;
  li_first : S = [] -> st = [(dzero, v)];
  li_head : forall x S', S = x :: S' -> x = v;
  li_records : forall i : nat,
      (1 <= i < length S)%nat ->
      S !! i = Some (current_neighbour_indices_ s (Z.of_nat i));
  li_stamps : forall y, current_time_ s y <= timer s
}.

Lemma search_inv_set_neighbour v E S s st i x :
  search_inv v E S s st -> search_inv v E S (set_neighbour s i x) st.
Proof. intros Hinv. destruct Hinv. constructor; done. Qed.

Lemma expand_step_inv v t K it S s st :
  0 <= v < N ->
  K < max_vertices_ ->
  loop_inv v t it S s st ->
  st <> [] ->
  it <= K ->
  exists best s' st',
    expand_step it s st = Ok (s', st') /\
    loop_inv v t (it + 1) (S ++ [best]) s' st'.
Proof.
  intros Hv HK Hloop Hne Hit.
  destruct st as [|[k best] st0]; [done|]. clear Hne.
  destruct Hloop as [Hinv Ht Hlen Hfirst Hhead Hrec Hstamps].
  destruct (extract_inv v _ S s k best st0 Hv Hinv) as (Hinv1 & Hbd & HbS).
  { intros u e Hu He. by split. }
  assert (Hlast : last (S ++ [best]) = Some best) by apply last_snoc.
  destruct (si_settled _ _ _ _ _ Hinv1 best) as [Hbs _];
    [apply elem_of_app; right; by apply list_elem_of_singleton|].
  pose proof (si_bounds _ _ _ _ _ Hinv1 best Hbs) as Hbr.
  destruct (relax_edges_inv v (S ++ [best]) best (adj_list_ g best)
                            _ s st0 Hv Hinv1 Hlast)
    as (s1 & st1 & Hrel & Hinv2 & Ht1 & Hc1 & Hct1); [done|].
  assert (Hinv3 : search_inv v (edges_of (S ++ [best])) (S ++ [best]) s1 st1).
  { eapply search_inv_weaken; [|exact Hinv2].
    intros u e [Hu He]. apply elem_of_app in Hu as [Hu|Hu].
    - left. by split.
    - apply list_elem_of_singleton in Hu. subst u. by right. }
  assert (Hstamps1 : forall y, current_time_ s1 y <= timer s1).
  { intros y. rewrite Ht1. destruct (Hct1 y) as [->| ->]; [done|lia]. }
  assert (Hhead' : forall x S', S ++ [best] = x :: S' -> x = v).
  { intros x S' Heq. destruct S as [|a S0].
    - specialize (Hfirst eq_refl). injection Hfirst as _ -> _.
      simpl in Heq. congruence.
    - simpl in Heq. injection Heq as <- _. by eapply Hhead. }
  assert (Hlen' : Z.of_nat (length (S ++ [best])) = it + 1).
  { rewrite length_app. simpl. lia. }
  exists best.
  unfold expand_step. cbn [snd].
  rewrite in_range_true by (pose proof (go_cap Hg); lia).
  rewrite Hrel. simpl.
  destruct (0 <? it) eqn:Hpos.
  - apply Z.ltb_lt in Hpos. rewrite in_range_true by lia.
    eexists _, _. split; [reflexivity|].
    constructor.
    + by apply search_inv_set_neighbour.
    + simpl. congruence.
    + exact Hlen'.
    + intros Heq. by apply app_nil in Heq as [_ ?].
    + exact Hhead'.
    + intros i Hi. rewrite length_app in Hi. simpl in Hi. simpl.
      destruct (decide (i = length S)) as [->|Hne].
      * rewrite lookup_app_r by lia. rewrite Nat.sub_diag. simpl.
        rewrite Hlen. by rewrite upd_eq.
      * rewrite lookup_app_l by lia. rewrite upd_ne by lia.
        rewrite Hc1. apply Hrec. lia.
    + exact Hstamps1.
  - apply Z.ltb_ge in Hpos.
    eexists _, _. split; [reflexivity|].
    constructor.
    + exact Hinv3.
    + congruence.
    + exact Hlen'.
    + intros Heq. by apply app_nil in Heq as [_ ?].
    + exact Hhead'.
    + intros i Hi. rewrite length_app in Hi. simpl in Hi. lia.
    + exact Hstamps1.
Qed.

Lemma expand_inv v t K :
  0 <= v < N ->
  K < max_vertices_ ->
  forall fuel it S s st,
    loop_inv v t it S s st ->
    (Z.to_nat (K + 1 - it) <= fuel)%nat ->
    exists it' S' s' st',
      expand fuel K it s st = Ok (it', s', st') /\
      loop_inv v t it' S' s' st' /\
      it <= it' /\
      (it <= K + 1 -> it' <= K + 1) /\
      (it' <= K -> st' = []).
Proof.
  intros Hv HK. induction fuel as [|fuel IH]; intros it S s st Hloop Hfuel.
  - exists it, S, s, st. simpl.
    assert (Hle : (it <=? K) = false) by (apply Z.leb_gt; lia).
    rewrite Hle. simpl.
    split; [done|]. split; [done|]. split; [lia|]. split; [lia|].
    intros ?. exfalso. lia.
  - simpl. destruct (it <=? K) eqn:Hle; simpl.
    + apply Z.leb_le in Hle.
      destruct (decide (st = [])) as [->|Hne].
      * rewrite bool_decide_eq_true_2 by done. simpl.
        exists it, S, s, [].
        split; [done|]. split; [done|]. split; [lia|]. split; [lia|]. done.
      * rewrite bool_decide_eq_false_2 by done. simpl.
        destruct (expand_step_inv v t K it S s st Hv HK Hloop Hne Hle)
          as (best & s1 & st1 & Hstep & Hloop1).
        rewrite Hstep. simpl.
        destruct (IH (it + 1) _ s1 st1 Hloop1)
          as (it' & S' & s' & st' & Hexp & Hloop' & Hit & Hbound & Hexit);
          [lia|].
        exists it', S', s', st'.
        split; [done|]. split; [done|]. split; [lia|]. split; [lia|]. done.
    + apply Z.leb_gt in Hle.
      exists it, S, s, st.
      split; [done|]. split; [done|]. split; [lia|]. split; [lia|].
      intros ?. exfalso. lia.
Qed.

Lemma init_inv s v :
  scratch_ok s ->
  0 <= v < N ->
  loop_inv v (timer s + 1) 0 [] (fst (search_init s v))
           (snd (search_init s v)).
Proof.
  intros [Hrange Hstamps] Hv. unfold search_init. cbn [fst snd].
  set (s0 := set_timer s (to_int (timer s + 1))).
  set (s1 := set_distance (set_time s0 v (timer s0)) v dzero).
  assert (Ht : to_int (timer s + 1) = timer s + 1).
  { apply to_int_small. unfold int_max in Hrange. lia. }
  assert (Hst : forall y, stamped s1 y <-> y = v).
  { intros y. unfold stamped, s1, s0. simpl. rewrite Ht.
    destruct (decide (y = v)) as [->|Hne].
    - rewrite upd_eq. tauto.
    - rewrite upd_ne by done. specialize (Hstamps y). split; [lia|done]. }
  assert (Hd : current_distance_ s1 v = dzero) by apply upd_eq.
  rewrite Hd. simpl set_insert.
  constructor.
  - constructor.
    + split; [by apply Hst|done].
    + intros y Hy. apply Hst in Hy. by subst.
    + intros k y. rewrite list_elem_of_singleton, Hst. split.
      * intros [= -> ->]. repeat split; try done.
        -- apply not_elem_of_nil.
        -- apply (dzero_lt_inf laws).
      * intros (-> & _ & <- & _). by rewrite Hd.
    + repeat constructor.
    + intros u Hu. by apply elem_of_nil in Hu.
    + constructor.
    + intros u e [Hu _]. done.
    + intros u y w [Hu _]. by apply elem_of_nil in Hu.
    + intros y Hy _. apply Hst in Hy. subst y. rewrite Hd. constructor.
    + intros u l Hu. by apply elem_of_nil in Hu.
    + intros u k y Hu. by apply elem_of_nil in Hu.
    + constructor.
    + intros y Hy. apply Hst in Hy. subst y. rewrite Hd.
      apply dlt_dle, (dzero_lt_inf laws).
    + intros y Hy. apply Hst in Hy. subst y. eexists. constructor.
  - simpl. exact Ht.
  - done.
  - done.
  - intros x S' Heq. discriminate.
  - intros i Hi. simpl in Hi. lia.
  - intros y. unfold s1, s0. simpl. rewrite Ht.
    destruct (decide (y = v)) as [->|Hne].
    + by rewrite upd_eq.
    + rewrite upd_ne by done. specialize (Hstamps y). lia.
Qed.

(** The expansion phase of a search: it completes, and leaves the
    invariant with the loop stopped by its bound or by an empty set. *)
Lemma expand_phase_inv s v K :
  scratch_ok s ->
  0 <= v < N ->
  0 <= K < max_vertices_ ->
  exists it S s' st,
    expand (Z.to_nat (K + 1)) K 0 (fst (search_init s v))
           (snd (search_init s v)) = Ok (it, s', st) /\
    expand_phase s v K = Ok (it, s') /\
    loop_inv v (timer s + 1) it S s' st /\
    1 <= it <= K + 1 /\
    (it <= K -> st = []).
Proof.
  intros Hs Hv HK.
  pose proof (init_inv s v Hs Hv) as Hinit.
  destruct (expand_inv v (timer s + 1) K Hv (proj2 HK)
                       (Z.to_nat (K + 1)) 0 _ _ _ Hinit)
    as (it & S & s' & st & Hexp & Hloop & Hit & Hbound & Hexit).
  { rewrite Z.sub_0_r. lia. }
  exists it, S, s', st.
  unfold expand_phase.
  rewrite in_range_true by (pose proof (go_cap Hg); lia).
  rewrite Hexp. simpl. split; [done|]. split; [done|]. split; [done|].
  split; [|done].
  split; [|lia].
  destruct (decide (it = 0)) as [->|Hne]; [|lia].
  exfalso. pose proof (li_len _ _ _ _ _ _ Hloop) as Hlen.
  destruct S; [|simpl in Hlen; lia].
  rewrite (li_first _ _ _ _ _ _ Hloop eq_refl) in Hexit.
  specialize (Hexit (proj1 HK)). discriminate.
Qed.


(** *** The padding loop *)

(** The slots from [c] on that the running search has not touched, in
    ascending order. *)
Definition untouched_from (s : scratch) (c : Z) : list Z :=
  filter (fun i => current_time_ s i <> timer s)
         (seqZ c (max_vertices_ - c)).

(** The placeholders as the padding policy describes them: scan all
    indices in ascending order, skip the touched ones, take as many as
    are missing. *)
Definition placeholders (s : scratch) (n : nat) : list Z :=
  take n (untouched_from s 0).

Lemma untouched_from_cons s c :
  0 <= c < max_vertices_ ->
  untouched_from s c =
  if decide (current_time_ s c <> timer s)
  then c :: untouched_from s (c + 1) else untouched_from s (c + 1).
Proof.
  intros Hc. unfold untouched_from.
  rewrite (seqZ_cons c) by lia. rewrite filter_cons.
  replace (Z.pred (max_vertices_ - c)) with (max_vertices_ - (c + 1)) by lia.
  reflexivity.
Qed.

Lemma untouched_from_end s c : max_vertices_ <= c -> untouched_from s c = [].
Proof.
  intros Hc. unfold untouched_from. by rewrite seqZ_nil by lia.
Qed.

Lemma untouched_from_ext s s' c :
  timer s' = timer s ->
  (forall y, current_time_ s' y = current_time_ s y) ->
  untouched_from s' c = untouched_from s c.
Proof.
  intros Ht Hct. unfold untouched_from.
  apply list_filter_iff. intros y. by rewrite Hct, Ht.
Qed.

Lemma elem_of_untouched_from s c y :
  y ∈ untouched_from s c <->
  current_time_ s y <> timer s /\ c <= y < max_vertices_.
Proof.
  unfold untouched_from. rewrite list_elem_of_filter, elem_of_seqZ.
  split; intros [? ?]; split; try done; lia.
Qed.

Lemma skip_touched_spec s p l :
  forall fuel c,
    0 <= c ->
    (Z.to_nat (max_vertices_ - c) <= fuel)%nat ->
    untouched_from s c = p :: l ->
    skip_touched fuel s c = Ok p /\
    c <= p < max_vertices_ /\
    untouched_from s (p + 1) = l.
Proof.
  induction fuel as [|fuel IH]; intros c Hc Hfuel Hun.
  - rewrite untouched_from_end in Hun by lia. discriminate.
  - destruct (decide (c < max_vertices_)) as [Hlt|Hge].
    2:{ rewrite untouched_from_end in Hun by lia. discriminate. }
    rewrite untouched_from_cons in Hun by lia.
    cbn [skip_touched]. rewrite in_range_true by lia.
    destruct (decide (current_time_ s c <> timer s)) as [Hs|Hs].
    + injection Hun as -> <-.
      rewrite (proj2 (Z.eqb_neq _ _) Hs). split; [done|]. split; [lia|done].
    + assert (Heq : current_time_ s c = timer s).
      { destruct (decide (current_time_ s c = timer s)); [done|]. by exfalso; apply Hs. }
      rewrite Heq, Z.eqb_refl.
      destruct (IH (c + 1)) as (Hskip & Hp & Hl); [lia|lia|done|].
      split; [done|]. split; [lia|done].
Qed.

Lemma pad_spec K pads :
  forall fuel it s c rest,
    0 <= c ->
    0 <= it ->
    K < max_vertices_ ->
    (Z.to_nat (K + 1 - it) <= fuel)%nat ->
    untouched_from s c = pads ++ rest ->
    Z.of_nat (length pads) = K + 1 - it ->
    exists s',
      pad fuel K it s c = Ok (K + 1, s') /\
      timer s' = timer s /\
      (forall y, current_time_ s' y = current_time_ s y) /\
      (forall j : nat,
          (j < length pads)%nat ->
          pads !! j = Some (current_neighbour_indices_ s' (it + Z.of_nat j))) /\
      (forall i, i < it ->
          current_neighbour_indices_ s' i = current_neighbour_indices_ s i) /\
      (forall y, current_distance_ s' y =
                 if decide (y ∈ pads) then inf else current_distance_ s y).
Proof.
  induction pads as [|p pads IH]; intros fuel it s c rest Hc Hit HK Hfuel Hun Hlen.
  - simpl in Hlen. assert (it = K + 1) by lia. subst it.
    exists s.
    assert (Hpad : pad fuel K (K + 1) s c = Ok (K + 1, s)).
    { destruct fuel; cbn [pad]; by rewrite (proj2 (Z.leb_gt _ _)) by lia. }
    split; [done|]. split; [done|]. split; [done|]. split.
    { intros j Hj. simpl in Hj. lia. }
    split; [done|]. intros y. rewrite decide_False; [done|].
    apply not_elem_of_nil.
  - simpl in Hlen, Hun.
    destruct fuel as [|fuel]; [lia|].
    cbn [pad]. rewrite (proj2 (Z.leb_le _ _)) by lia.
    destruct (skip_touched_spec s p (pads ++ rest) (Z.to_nat max_vertices_) c)
      as (Hskip & Hp & Hrest); [done|lia|done|].
    rewrite Hskip. simpl. rewrite in_range_true by lia.
    set (s1 := set_neighbour (set_distance s p inf) it p).
    destruct (IH fuel (it + 1) s1 (p + 1) rest) as
      (s' & Hpad & Ht & Hct & Hcni & Hold & Hcd); [lia|lia|done|lia| |lia|].
    { rewrite (untouched_from_ext s s1); done. }
    exists s'. split; [done|]. split; [done|]. split; [done|]. split.
    { intros [|j] Hj; simpl in Hj |- *.
      - rewrite Z.add_0_r, Hold by lia. unfold s1. simpl. by rewrite upd_eq.
      - rewrite (Hcni j) by lia. do 2 f_equal. lia. }
    split.
    { intros i Hi. rewrite Hold by lia. unfold s1. simpl.
      by rewrite upd_ne by lia. }
    intros y. rewrite Hcd. unfold s1. simpl.
    destruct (decide (y = p)) as [->|Hne].
    + rewrite upd_eq. rewrite (decide_True (P := p ∈ p :: pads)) by (by left).
      by destruct (decide (p ∈ pads)).
    + rewrite upd_ne by done.
      destruct (decide (y ∈ pads)) as [Hy|Hy].
      * rewrite decide_True by (by right). done.
      * rewrite decide_False; [done|].
        intros Hin. apply elem_of_cons in Hin as [?|?]; done.
Qed.

(** *** The output *)

Lemma emit_from_spec s :
  forall n i,
    (forall j, i <= j < i + Z.of_nat n ->
       0 <= j < max_vertices_ /\
       0 <= current_neighbour_indices_ s j < max_vertices_) ->
    emit_from n i s =
    Ok (map (fun j => (current_neighbour_indices_ s j,
                       current_distance_ s (current_neighbour_indices_ s j)))
            (seqZ i (Z.of_nat n))).
Proof.
  induction n as [|n IH]; intros i Hr.
  - reflexivity.
  - cbn [emit_from].
    destruct (Hr i) as [Hi Hc]; [lia|].
    rewrite !in_range_true by lia.
    rewrite IH by (intros j Hj; apply Hr; lia). simpl.
    rewrite (seqZ_cons i) by lia. simpl.
    replace (Z.pred (Z.of_nat (S n))) with (Z.of_nat n) by lia.
    reflexivity.
Qed.

(** *** A whole search *)

(** The row of a search that extracted [S] and padded with [pads]. *)
Definition row_of (S : list Z) (s : scratch) (pads : list Z) : list (Z * D) :=
  map (fun u => (u, current_distance_ s u)) (tail S) ++
  map (fun p => (p, inf)) pads.

Lemma map_seqZ_lookup {A} (f : Z -> A) (l : list A) :
  forall i,
    (forall j : nat, (j < length l)%nat -> l !! j = Some (f (i + Z.of_nat j))) ->
    map f (seqZ i (Z.of_nat (length l))) = l.
Proof.
  induction l as [|a l IH]; intros i Hl.
  - reflexivity.
  - rewrite seqZ_cons by (simpl; lia). simpl map.
    pose proof (Hl 0%nat) as H0. simpl in H0.
    rewrite Z.add_0_r in H0. injection (H0 ltac:(lia)) as ->.
    f_equal.
    replace (Z.pred (Z.of_nat (S (length l)))) with (Z.of_nat (length l))
      by lia.
    apply IH. intros j Hj. specialize (Hl (S j)). simpl in Hl.
    rewrite Hl by lia. do 2 f_equal. lia.
Qed.

Lemma filter_all {A} (P : A -> Prop) `{forall x, Decision (P x)} (l : list A) :
  (forall x, x ∈ l -> P x) -> filter P l = l.
Proof.
  induction l as [|a l IH]; intros Hall; [done|].
  rewrite filter_cons_True by (apply Hall; by left).
  f_equal. apply IH. intros x Hx. apply Hall. by right.
Qed.

Lemma untouched_enough s n :
  (forall y, stamped s y -> 0 <= y < N) ->
  0 <= N ->
  N + Z.of_nat n <= max_vertices_ ->
  (n <= length (untouched_from s 0))%nat.
Proof.
  intros Hb HN Hcap. unfold untouched_from.
  replace (max_vertices_ - 0) with (N + (max_vertices_ - N)) by lia.
  rewrite seqZ_app by lia. rewrite filter_app, length_app.
  rewrite (filter_all _ (seqZ (0 + N) _)).
  - rewrite length_seqZ. lia.
  - intros y Hy Hst. apply elem_of_seqZ in Hy.
    specialize (Hb y Hst). lia.
Qed.

Lemma find_nearest_neighbours_run s v K :
  scratch_ok s ->
  0 <= v < N ->
  0 <= K ->
  N + K <= max_vertices_ ->
  exists it S s1 st s2,
    expand_phase s v K = Ok (it, s1) /\
    loop_inv v (timer s + 1) it S s1 st /\
    1 <= it <= K + 1 /\
    (it <= K -> st = []) /\
    pad_phase s1 K it = Ok (K + 1, s2) /\
    find_nearest_neighbours s v K =
      Ok (Some (row_of S s1 (placeholders s1 (Z.to_nat (K + 1 - it)))), s2) /\
    length (placeholders s1 (Z.to_nat (K + 1 - it))) = Z.to_nat (K + 1 - it) /\
    timer s2 = timer s + 1 /\
    (forall y, current_time_ s2 y = current_time_ s1 y).
Proof.
  intros Hs Hv HK Hcap.
  assert (HKmax : 0 <= K < max_vertices_) by lia.
  destruct (expand_phase_inv s v K Hs Hv HKmax)
    as (it & xs & s1 & st & _ & Hexp & Hloop & Hit & Hexit).
  pose proof (li_inv _ _ _ _ _ _ Hloop) as Hinv.
  pose proof (li_len _ _ _ _ _ _ Hloop) as Hlen.
  pose proof (li_timer _ _ _ _ _ _ Hloop) as Htimer.
  set (n := Z.to_nat (K + 1 - it)).
  assert (Hn : (n <= length (untouched_from s1 0))%nat).
  { apply untouched_enough; [apply (si_bounds _ _ _ _ _ Hinv)|lia|lia]. }
  assert (Hplen : length (placeholders s1 n) = n).
  { unfold placeholders. rewrite length_take. lia. }
  destruct (pad_spec K (placeholders s1 n) (Z.to_nat (K + 1)) it s1 0
                     (drop n (untouched_from s1 0)))
    as (s2 & Hpad & Ht2 & Hct2 & Hcni2 & Hold2 & Hcd2);
    [lia|lia|lia|lia| |lia|].
  { unfold placeholders. by rewrite take_drop. }
  exists it, xs, s1, st, s2.
  split; [done|]. split; [done|]. split; [done|]. split; [done|].
  split; [exact Hpad|].
  split; [|split; [done|split; [lia|done]]].
  (* the slots of the record array *)
  assert (Hreal : forall j : nat, (j < length (tail xs))%nat ->
            tail xs !! j =
            Some (current_neighbour_indices_ s2 (1 + Z.of_nat j))).
  { intros j Hj. rewrite length_tl in Hj.
    rewrite Hold2 by lia. rewrite lookup_tail.
    replace (1 + Z.of_nat j) with (Z.of_nat (S j)) by lia.
    apply (li_records _ _ _ _ _ _ Hloop). lia. }
  assert (HrealS : forall u, u ∈ tail xs -> stamped s1 u).
  { intros u Hu. apply (si_settled _ _ _ _ _ Hinv).
    destruct xs; [done|]. by right. }
  assert (Hpads : forall p, p ∈ placeholders s1 n ->
            ~ stamped s1 p /\ 0 <= p < max_vertices_).
  { intros p Hp. unfold placeholders in Hp.
    apply elem_of_take in Hp as (i & Hp & _).
    apply list_elem_of_lookup_2 in Hp.
    by apply elem_of_untouched_from in Hp. }
  unfold find_nearest_neighbours.
  change (pad (Z.to_nat (K + 1)) K it s1 0) with (pad_phase s1 K it) in Hpad.
  rewrite Hexp, result_bind_Ok. cbv beta iota.
  rewrite Hpad, result_bind_Ok. cbv beta iota. unfold emit.
  rewrite to_int_small by (unfold max_vertices_ in *; lia).
  rewrite Z.eqb_refl.
  rewrite emit_from_spec.
  2:{ intros j Hj. split; [lia|].
      destruct (decide (j < it)) as [Hlt|Hge].
      - specialize (Hreal (Z.to_nat (j - 1))).
        rewrite length_tl in Hreal.
        replace (1 + Z.of_nat (Z.to_nat (j - 1))) with j in Hreal by lia.
        apply list_elem_of_lookup_2 in Hreal; [|lia].
        apply HrealS in Hreal.
        pose proof (si_bounds _ _ _ _ _ Hinv _ Hreal). lia.
      - specialize (Hcni2 (Z.to_nat (j - it))).
        replace (it + Z.of_nat (Z.to_nat (j - it))) with j in Hcni2 by lia.
        apply list_elem_of_lookup_2 in Hcni2; [|lia].
        apply Hpads in Hcni2. lia. }
  simpl. do 3 f_equal. unfold row_of.
  replace (Z.of_nat (Z.to_nat K))
    with (Z.of_nat (length (tail xs)) + Z.of_nat n)
    by (rewrite length_tl; lia).
  rewrite seqZ_app, map_app by lia. f_equal.
  - rewrite <- (length_map (fun u => (u, current_distance_ s1 u))).
    apply map_seqZ_lookup. intros j Hj. rewrite length_map in Hj.
    rewrite list_lookup_fmap_Some. exists (current_neighbour_indices_ s2 (1 + Z.of_nat j)).
    split; [|by apply Hreal].
    f_equal. rewrite Hcd2. rewrite decide_False; [done|].
    intros Hin. apply Hpads in Hin as [Hns _]. apply Hns.
    apply HrealS. eapply list_elem_of_lookup_2. by apply Hreal.
  - rewrite <- Hplen at 1.
    rewrite <- (length_map (fun p => (p, inf)) (placeholders s1 n)).
    apply map_seqZ_lookup. intros j Hj. rewrite length_map in Hj.
    rewrite list_lookup_fmap_Some.
    exists (current_neighbour_indices_ s2 (1 + Z.of_nat (length (tail xs)) + Z.of_nat j)).
    replace (1 + Z.of_nat (length (tail xs))) with it
      by (rewrite length_tl; lia).
    split; [|by apply Hcni2].
    f_equal. rewrite Hcd2. rewrite decide_True; [done|].
    eapply list_elem_of_lookup_2. by apply Hcni2.
Qed.



(** *** What the loop invariant says about the extracted vertices *)

Lemma map_fst_graph {A B} (f : A -> B) (l : list A) :
  map fst (map (fun u => (u, f u)) l) = l.
Proof. induction l as [|a l IH]; simpl; congruence. Qed.

Lemma row_of_reals S s pads it :
  Z.of_nat (length S) = it ->
  take (Z.to_nat (it - 1)) (row_of S s pads) =
    map (fun u => (u, current_distance_ s u)) (tail S) /\
  drop (Z.to_nat (it - 1)) (row_of S s pads) = map (fun p => (p, inf)) pads.
Proof.
  intros Hlen. unfold row_of.
  assert (Hl : Z.to_nat (it - 1) =
               length (map (fun u => (u, current_distance_ s u)) (tail S))).
  { rewrite length_map, length_tl. lia. }
  rewrite Hl. split; [apply take_app_length|apply drop_app_length].
Qed.

Lemma settled_head v t it S s st :
  loop_inv v t it S s st -> 1 <= it ->
  S = v :: tail S /\ NoDup (tail S) /\ v ∉ tail S.
Proof.
  intros Hloop Hit.
  pose proof (li_len _ _ _ _ _ _ Hloop) as Hlen.
  pose proof (si_nodup _ _ _ _ _ (li_inv _ _ _ _ _ _ Hloop)) as Hnd.
  destruct S as [|x S']; [simpl in Hlen; lia|].
  rewrite (li_head _ _ _ _ _ _ Hloop x S' eq_refl) in *. simpl.
  apply NoDup_cons in Hnd as [? ?]. done.
Qed.

Lemma settled_shortest v t it S s st u :
  loop_inv v t it S s st -> u ∈ S ->
  shortest v u (current_distance_ s u).
Proof.
  intros Hloop Hu. pose proof (li_inv _ _ _ _ _ _ Hloop) as Hinv.
  destruct (si_settled _ _ _ _ _ Hinv u Hu) as [Hs Hd].
  split; [by apply (si_walk _ _ _ _ _ Hinv)|].
  intros l Hw. by apply (si_min _ _ _ _ _ Hinv).
Qed.

Lemma loop_inv_closed v t it S s st :
  loop_inv v t it S s st ->
  forall u e, u ∈ S -> e ∈ adj_list_ g u -> edges_of S u e.
Proof. intros _ u e Hu He. by split. Qed.

(** A vertex not yet extracted is at least as far as every extracted
    one. *)
Lemma unsettled_far v t it S s st u u' l :
  0 <= v < N ->
  loop_inv v t it S s st ->
  u ∈ S -> u' ∉ S -> walk v u' l ->
  dle (current_distance_ s u) l.
Proof.
  intros Hv Hloop Hu Hu' Hw. pose proof (li_inv _ _ _ _ _ _ Hloop) as Hinv.
  destruct (si_settled _ _ _ _ _ Hinv u Hu) as [_ Hd].
  destruct (dlt l inf) eqn:Hl.
  - destruct (walk_cases v _ S s st Hv Hinv (loop_inv_closed _ _ _ _ _ _ Hloop)
                         u' l Hw Hl) as [[HS _]|(k & z & Hz & Hk)]; [done|].
    eapply dle_trans; [|exact Hk]. by eapply (si_order _ _ _ _ _ Hinv).
  - apply dlt_dle. by eapply dlt_dle_trans.
Qed.

(** Once the frontier is empty, every vertex with a walk shorter than
    [inf] has been extracted. *)
Lemma frontier_empty_settled v t it S s u l :
  0 <= v < N ->
  loop_inv v t it S s [] ->
  walk v u l -> dlt l inf = true -> u ∈ S.
Proof.
  intros Hv Hloop Hw Hl. pose proof (li_inv _ _ _ _ _ _ Hloop) as Hinv.
  destruct (walk_cases v _ S s [] Hv Hinv (loop_inv_closed _ _ _ _ _ _ Hloop)
                       u l Hw Hl) as [[HS _]|(k & z & Hz & _)]; [done|].
  by apply elem_of_nil in Hz.
Qed.

Lemma NoDup_subseteq_length (l k : list Z) :
  NoDup l -> (forall x, x ∈ l -> x ∈ k) -> (length l <= length k)%nat.
Proof.
  intros Hnd Hsub. apply submseteq_length, NoDup_submseteq; done.
Qed.

(** The number of vertices extracted after the source. *)
Lemma settled_count v t it K S s st (R : list Z) :
  0 <= v < N ->
  loop_inv v t it S s st ->
  1 <= it <= K + 1 ->
  (it <= K -> st = []) ->
  (forall u, reachable v u -> exists l, walk v u l /\ dlt l inf = true) ->
  NoDup R ->
  (forall u, u ∈ R <-> u <> v /\ reachable v u) ->
  length (tail S) = Nat.min (Z.to_nat K) (length R) /\
  (forall u, u ∈ tail S -> u ∈ R).
Proof.
  intros Hv Hloop Hit Hexit Hshort HndR HR.
  pose proof (li_len _ _ _ _ _ _ Hloop) as Hlen.
  destruct (settled_head _ _ _ _ _ _ Hloop (proj1 Hit)) as (HS & Hnd & HvS).
  assert (Hsub : forall u, u ∈ tail S -> u ∈ R).
  { intros u Hu. apply HR. split; [by intros ->|].
    exists (current_distance_ s u).
    eapply settled_shortest; [exact Hloop|]. rewrite HS. by right. }
  split; [|done].
  pose proof (NoDup_subseteq_length _ _ Hnd Hsub) as Hle.
  rewrite length_tl in *.
  destruct (decide (it <= K)) as [Hlt|Hge]; [|lia].
  specialize (Hexit Hlt). subst st.
  assert (Hsup : forall u, u ∈ R -> u ∈ tail S).
  { intros u Hu. apply HR in Hu as [Hne Hreach].
    destruct (Hshort u Hreach) as (l & Hw & Hl).
    pose proof (frontier_empty_settled _ _ _ _ _ _ _ Hv Hloop Hw Hl) as Hin.
    rewrite HS in Hin. apply elem_of_cons in Hin as [?|?]; done. }
  pose proof (NoDup_subseteq_length _ _ HndR Hsup) as Hge.
  rewrite length_tl in Hge. lia.
Qed.

Lemma sorted_map_dist s (l : list Z) :
  StronglySorted
    (fun a b => dle (current_distance_ s a) (current_distance_ s b)) l ->
  StronglySorted (fun a b : Z * D => dle (snd a) (snd b))
                 (map (fun u => (u, current_distance_ s u)) l).
Proof.
  intros Hs. induction Hs as [|a l Hs IH Hall]; simpl; constructor; [done|].
  apply Forall_forall. intros [u d] Hu.
  apply list_elem_of_In, in_map_iff in Hu as (b & [= <- <-] & Hb).
  simpl. apply (proj1 (Forall_forall _ _) Hall). by apply list_elem_of_In.
Qed.

Lemma elem_of_map_dist s (l : list Z) u d :
  (u, d) ∈ map (fun u => (u, current_distance_ s u)) l <->
  u ∈ l /\ d = current_distance_ s u.
Proof.
  rewrite list_elem_of_In, in_map_iff. split.
  - intros (b & [= <- <-] & Hb). by rewrite list_elem_of_In.
  - intros [Hu ->]. exists u. by rewrite <- list_elem_of_In.
Qed.


(** *** Where the placeholders lie *)

(** With the frontier empty, the touched slots are the extracted
    vertices. *)
Lemma stamped_settled v t it S s y :
  0 <= v < N ->
  loop_inv v t it S s [] ->
  (forall u, reachable v u -> exists l, walk v u l /\ dlt l inf = true) ->
  stamped s y -> y ∈ S.
Proof.
  intros Hv Hloop Hshort Hy.
  pose proof (si_reach _ _ _ _ _ (li_inv _ _ _ _ _ _ Hloop) y Hy) as Hreach.
  destruct (Hshort y Hreach) as (l & Hw & Hl).
  by eapply frontier_empty_settled.
Qed.

Lemma untouched_below_count s (S : list Z) :
  (forall y, stamped s y -> y ∈ S) ->
  0 <= N ->
  (Z.to_nat N - length S <=
   length (filter (fun i => current_time_ s i <> timer s) (seqZ 0 N)))%nat.
Proof.
  intros Hsub HN.
  pose proof (filter_app_complement
                (fun i => current_time_ s i <> timer s) (seqZ 0 N)) as Hperm.
  apply Permutation_length in Hperm.
  rewrite length_app, length_seqZ in Hperm.
  assert (Hle : (length (filter (fun i => ~ current_time_ s i <> timer s)
                                (seqZ 0 N)) <= length S)%nat).
  { apply NoDup_subseteq_length.
    - apply NoDup_filter, NoDup_seqZ.
    - intros y Hy. apply list_elem_of_filter in Hy as [Hy _].
      apply Hsub. unfold stamped.
      destruct (decide (current_time_ s y = timer s)); [done|].
      by exfalso; apply Hy. }
  lia.
Qed.

Lemma placeholders_below s n :
  0 <= N <= max_vertices_ ->
  (n <= length (filter (fun i => current_time_ s i <> timer s) (seqZ 0 N)))%nat ->
  forall p, p ∈ placeholders s n -> 0 <= p < N.
Proof.
  intros HN Hn p Hp. unfold placeholders, untouched_from in Hp.
  replace (max_vertices_ - 0) with (N + (max_vertices_ - N)) in Hp by lia.
  rewrite seqZ_app, filter_app in Hp by lia.
  rewrite take_app_le in Hp by done.
  apply elem_of_take in Hp as (i & Hp & _).
  apply list_elem_of_lookup_2, list_elem_of_filter in Hp as [_ Hp].
  apply elem_of_seqZ in Hp. lia.
Qed.

(** *** The claims about one search *)

(** C1.  In a graph with positive distances, the real records of the row
    of [v] (the extractions after the first, [it - 1] of them) are
    [min K (number of other reachable vertices)] many; each is another
    vertex reachable from [v], paired with its shortest-path distance
    from [v]; they are listed by non-decreasing distance; and every
    reachable vertex that is not among them is at least as far from [v]
    as each of them.  (Every reachable vertex is assumed to have a walk
    shorter than the constant [inf], and the arrays to hold the [N]
    vertices and [K] more slots.) *)
Theorem find_nearest_neighbours_nearest (s : scratch) (v K : Z) (R : list Z) :
  scratch_ok s ->
  0 <= v < N ->
  0 <= K ->
  N + K <= max_vertices_ ->
  (forall u, reachable v u -> exists l, walk v u l /\ dlt l inf = true) ->
  NoDup R ->
  (forall u, u ∈ R <-> u <> v /\ reachable v u) ->
  exists it s1 row s2,
    expand_phase s v K = Ok (it, s1) /\
    find_nearest_neighbours s v K = Ok (Some row, s2) /\
    let reals := take (Z.to_nat (it - 1)) row in
    length reals = Nat.min (Z.to_nat K) (length R) /\
    (forall u d, (u, d) ∈ reals -> u ∈ R /\ shortest v u d) /\
    StronglySorted (fun a b : Z * D => dle (snd a) (snd b)) reals /\
    (forall u d u' l,
        (u, d) ∈ reals -> u' ∈ R -> u' ∉ map fst reals ->
        walk v u' l -> dle d l).
Proof.
  intros Hs Hv HK Hcap Hshort HndR HR.
  destruct (find_nearest_neighbours_run s v K Hs Hv HK Hcap)
    as (it & S & s1 & st & s2 & Hexp & Hloop & Hit & Hexit & _ & Hrun & _).
  eexists it, s1, _, s2. split; [exact Hexp|]. split; [exact Hrun|].
  pose proof (li_len _ _ _ _ _ _ Hloop) as Hlen.
  destruct (row_of_reals S s1 (placeholders s1 (Z.to_nat (K + 1 - it))) it Hlen)
    as [Htake _].
  cbv zeta. rewrite Htake, map_fst_graph.
  destruct (settled_head _ _ _ _ _ _ Hloop (proj1 Hit)) as (HS & Hnd & HvS).
  destruct (settled_count v _ it K S s1 st R Hv Hloop Hit Hexit Hshort HndR HR)
    as [Hcount Hsub].
  split; [by rewrite length_map|].
  split.
  { intros u d Hud. apply elem_of_map_dist in Hud as [Hu ->].
    split; [by apply Hsub|].
    eapply settled_shortest; [exact Hloop|]. rewrite HS. by right. }
  split.
  { apply sorted_map_dist.
    pose proof (si_sortedS _ _ _ _ _ (li_inv _ _ _ _ _ _ Hloop)) as Hsorted.
    rewrite HS in Hsorted. by inversion Hsorted. }
  intros u d u' l Hud Hu' Hnin Hw.
  apply elem_of_map_dist in Hud as [Hu ->].
  eapply unsettled_far; [exact Hv|exact Hloop| | |exact Hw].
  - rewrite HS. by right.
  - rewrite HS. intros Hin. apply elem_of_cons in Hin as [->|Hin]; [|done].
    apply HR in Hu' as [? _]. done.
Qed.

(** C9.  The vertices extracted by one search, the source and then the
    real records of the row, are pairwise distinct: no vertex is
    extracted twice, and no real record is the source. *)
Theorem find_nearest_neighbours_distinct (s : scratch) (v K : Z) :
  scratch_ok s ->
  0 <= v < N ->
  0 <= K ->
  N + K <= max_vertices_ ->
  exists it s1 row s2,
    expand_phase s v K = Ok (it, s1) /\
    find_nearest_neighbours s v K = Ok (Some row, s2) /\
    let reals := take (Z.to_nat (it - 1)) row in
    length reals = Z.to_nat (it - 1) /\
    NoDup (v :: map fst reals) /\
    NoDup (map fst reals) /\
    v ∉ map fst reals.
Proof.
  intros Hs Hv HK Hcap.
  destruct (find_nearest_neighbours_run s v K Hs Hv HK Hcap)
    as (it & S & s1 & st & s2 & Hexp & Hloop & Hit & Hexit & _ & Hrun & _).
  eexists it, s1, _, s2. split; [exact Hexp|]. split; [exact Hrun|].
  pose proof (li_len _ _ _ _ _ _ Hloop) as Hlen.
  destruct (row_of_reals S s1 (placeholders s1 (Z.to_nat (K + 1 - it))) it Hlen)
    as [Htake _].
  cbv zeta. rewrite Htake, map_fst_graph.
  destruct (settled_head _ _ _ _ _ _ Hloop (proj1 Hit)) as (HS & Hnd & HvS).
  split; [rewrite length_map, length_tl; lia|].
  split; [by apply NoDup_cons|]. done.
Qed.

(** C8.  The expansion loop of a search terminates after at most [K + 1]
    extractions, and the search completes with a row; when the source
    reaches no more than [K] vertices (itself included), the loop ends on
    the empty frontier after exactly that many extractions, fewer than
    [K + 1], and the search still completes. *)
Theorem find_nearest_neighbours_terminates (s : scratch) (v K : Z) :
  scratch_ok s ->
  0 <= v < N ->
  0 < K ->
  N + K <= max_vertices_ ->
  exists it s1 st row s2,
    expand (Z.to_nat (K + 1)) K 0 (fst (search_init s v))
           (snd (search_init s v)) = Ok (it, s1, st) /\
    1 <= it <= K + 1 /\
    find_nearest_neighbours s v K = Ok (Some row, s2) /\
    forall R : list Z,
      (forall u, reachable v u -> exists l, walk v u l /\ dlt l inf = true) ->
      NoDup R ->
      (forall u, u ∈ R <-> reachable v u) ->
      Z.of_nat (length R) <= K ->
      it = Z.of_nat (length R) /\ it < K + 1 /\ st = [].
Proof.
  intros Hs Hv HK Hcap.
  assert (HKmax : 0 <= K < max_vertices_).
  { pose proof (go_cap Hg). lia. }
  destruct (expand_phase_inv s v K Hs Hv HKmax)
    as (it & S & s1 & st & Hexpand & Hexp & Hloop & Hit & Hexit).
  destruct (find_nearest_neighbours_run s v K Hs Hv (proj1 HKmax) Hcap)
    as (it' & S' & s1' & st' & s2 & Hexp' & _ & _ & _ & _ & Hrun & _).
  eexists it, s1, st, _, s2.
  split; [exact Hexpand|]. split; [exact Hit|]. split; [exact Hrun|].
  intros R Hshort HndR HR HlenR.
  pose proof (li_len _ _ _ _ _ _ Hloop) as Hlen.
  pose proof (si_nodup _ _ _ _ _ (li_inv _ _ _ _ _ _ Hloop)) as Hnd.
  assert (Hsub : forall u, u ∈ S -> u ∈ R).
  { intros u Hu. apply HR. exists (current_distance_ s1 u).
    by eapply settled_shortest. }
  pose proof (NoDup_subseteq_length _ _ Hnd Hsub) as Hle.
  assert (Hlt : it <= K) by lia.
  specialize (Hexit Hlt). subst st.
  assert (Hsup : forall u, u ∈ R -> u ∈ S).
  { intros u Hu. apply HR in Hu.
    destruct (Hshort u Hu) as (l & Hw & Hl).
    by eapply frontier_empty_settled. }
  pose proof (NoDup_subseteq_length _ _ HndR Hsup) as Hge.
  split; [lia|]. split; [lia|done].
Qed.

(** C2.  The row of a search has exactly [K] entries.  After the [m]
    real records come [K - m] placeholders: the first [K - m] indices, in
    ascending order, among all the slots that the search has not
    touched, each with the distance [inf]; no placeholder is the index
    of a real record of the row, since the real records are touched.
    When the graph has more than [K] vertices (and its reachable vertices
    have walks shorter than [inf]), every placeholder is a vertex index. *)
Theorem find_nearest_neighbours_padding (s : scratch) (v K : Z) :
  scratch_ok s ->
  0 <= v < N ->
  0 <= K ->
  N + K <= max_vertices_ ->
  exists it s1 row s2,
    expand_phase s v K = Ok (it, s1) /\
    find_nearest_neighbours s v K = Ok (Some row, s2) /\
    length row = Z.to_nat K /\
    let m := Z.to_nat (it - 1) in
    let pads :=
      take (Z.to_nat K - m)
           (filter (fun i => current_time_ s1 i <> timer s1)
                   (seqZ 0 max_vertices_)) in
    (m <= Z.to_nat K)%nat /\
    length pads = (Z.to_nat K - m)%nat /\
    drop m row = map (fun p => (p, inf)) pads /\
    (forall u, u ∈ map fst (take m row) -> current_time_ s1 u = timer s1) /\
    (forall p, p ∈ pads ->
       current_time_ s1 p <> timer s1 /\ p ∉ map fst (take m row)) /\
    ((forall u, reachable v u -> exists l, walk v u l /\ dlt l inf = true) ->
     K < N ->
     forall p, p ∈ pads -> 0 <= p < N).
Proof.
  intros Hs Hv HK Hcap.
  destruct (find_nearest_neighbours_run s v K Hs Hv HK Hcap)
    as (it & S & s1 & st & s2 & Hexp & Hloop & Hit & Hexit & _ & Hrun & Hplen & _).
  eexists it, s1, _, s2. split; [exact Hexp|]. split; [exact Hrun|].
  pose proof (li_len _ _ _ _ _ _ Hloop) as Hlen.
  pose proof (li_inv _ _ _ _ _ _ Hloop) as Hinv.
  destruct (row_of_reals S s1 (placeholders s1 (Z.to_nat (K + 1 - it))) it Hlen)
    as [Htake Hdrop].
  assert (Hn : (Z.to_nat K - Z.to_nat (it - 1))%nat = Z.to_nat (K + 1 - it))
    by lia.
  assert (Hpl : take (Z.to_nat K - Z.to_nat (it - 1))
                  (filter (fun i => current_time_ s1 i <> timer s1)
                          (seqZ 0 max_vertices_)) =
                placeholders s1 (Z.to_nat (K + 1 - it))).
  { rewrite Hn. unfold placeholders, untouched_from.
    by rewrite Z.sub_0_r. }
  split.
  { unfold row_of. rewrite length_app, !length_map, Hplen, length_tl. lia. }
  cbv zeta. rewrite Hpl, Htake, Hdrop, map_fst_graph.
  split; [lia|]. split; [by rewrite Hplen|]. split; [done|].
  assert (Hreal : forall u, u ∈ tail S -> current_time_ s1 u = timer s1).
  { intros u Hu. apply (si_settled _ _ _ _ _ Hinv).
    destruct S; [done|]. by right. }
  split; [exact Hreal|].
  split.
  { intros p Hp. unfold placeholders in Hp.
    apply elem_of_take in Hp as (i & Hp & _).
    apply list_elem_of_lookup_2, elem_of_untouched_from in Hp as [Hns _].
    split; [done|]. intros Hin. by apply Hns, Hreal. }
  intros Hshort HKN p Hp.
  destruct (decide (it <= K)) as [Hle|Hgt].
  2:{ replace (Z.to_nat (K + 1 - it)) with 0%nat in Hp by lia.
      by apply elem_of_nil in Hp. }
  specialize (Hexit Hle). subst st.
  assert (Hsettled : forall y, stamped s1 y -> y ∈ S).
  { intros y Hy. by eapply stamped_settled. }
  pose proof (untouched_below_count s1 S Hsettled ltac:(lia)) as Hcount.
  eapply placeholders_below; [| |exact Hp].
  - pose proof (go_cap Hg). lia.
  - lia.
Qed.

(** X15.  When the graph has no more than [K] vertices, the row of a
    search holds an index that is no vertex of the graph: its [K] indices
    are pairwise distinct and differ from the source, and the graph has
    only [N - 1] other vertices. *)
Lemma find_nearest_neighbours_row_leaves_graph s v K :
  scratch_ok s ->
  0 <= v < N ->
  0 <= K ->
  N + K <= max_vertices_ ->
  N <= K ->
  exists r s2,
    find_nearest_neighbours s v K = Ok (Some r, s2) /\
    exists p d, (p, d) ∈ r /\ N <= p.
Proof.
  intros Hs Hv HK Hcap HNK.
  destruct (find_nearest_neighbours_run s v K Hs Hv HK Hcap)
    as (it & S & s1 & st & s2 & _ & Hloop & Hit & _ & _ & Hrun & Hplen & _).
  eexists _, s2. split; [exact Hrun|].
  pose proof (li_inv _ _ _ _ _ _ Hloop) as Hinv.
  pose proof (li_len _ _ _ _ _ _ Hloop) as Hlen.
  destruct (settled_head _ _ _ _ _ _ Hloop (proj1 Hit)) as (HS & Hnd & HvS).
  set (pads := placeholders s1 (Z.to_nat (K + 1 - it))) in *.
  assert (Hreal : forall u, u ∈ tail S -> stamped s1 u /\ 0 <= u < N).
  { intros u Hu.
    destruct (si_settled _ _ _ _ _ Hinv u) as [Hst _]; [rewrite HS; by right|].
    split; [done|]. by apply (si_bounds _ _ _ _ _ Hinv). }
  assert (Hpad : forall p, p ∈ pads -> ~ stamped s1 p /\ 0 <= p).
  { intros p Hp. unfold pads, placeholders in Hp.
    apply elem_of_take in Hp as (i & Hp & _).
    apply list_elem_of_lookup_2, elem_of_untouched_from in Hp. split; [tauto|lia]. }
  assert (Hndp : NoDup pads).
  { unfold pads, placeholders, untouched_from.
    eapply sublist_NoDup; [|apply sublist_take].
    apply NoDup_filter, NoDup_seqZ. }
  destruct (decide (Exists (fun p => N <= p) pads)) as [Hex|Hnex].
  { apply Exists_exists in Hex as (p & Hp & Hge).
    exists p, inf. split; [|done]. unfold row_of.
    apply elem_of_app. right. apply list_elem_of_In, in_map_iff.
    exists p. split; [done|]. by apply list_elem_of_In. }
  exfalso. apply not_Exists_Forall in Hnex; [|intros p; apply _].
  assert (Hall : forall x, x ∈ v :: tail S ++ pads -> x ∈ seqZ 0 N).
  { intros x Hx. apply elem_of_seqZ.
    apply elem_of_cons in Hx as [->|Hx]; [lia|].
    apply elem_of_app in Hx as [Hx|Hx].
    - apply Hreal in Hx. lia.
    - pose proof (proj1 (Forall_forall _ _) Hnex x Hx) as Hlt. simpl in Hlt.
      apply Hpad in Hx. lia. }
  assert (HndL : NoDup (v :: tail S ++ pads)).
  { apply NoDup_cons. split.
    - intros Hin. apply elem_of_app in Hin as [Hin|Hin]; [done|].
      apply Hpad in Hin as [Hns _]. apply Hns.
      apply (si_src _ _ _ _ _ Hinv).
    - apply NoDup_app. split; [done|]. split; [|done].
      intros x Hx Hx'. apply Hreal in Hx as [Hst _].
      apply Hpad in Hx' as [Hns _]. done. }
  pose proof (NoDup_subseteq_length _ _ HndL Hall) as Hle.
  rewrite length_seqZ in Hle. simpl in Hle.
  rewrite length_app, length_tl in Hle. fold pads in Hplen.
  rewrite Hplen in Hle. lia.
Qed.

(** A search leaves the scratch state fit for the next one. *)
Lemma find_nearest_neighbours_scratch_ok s v K out s2 :
  scratch_ok s ->
  0 <= v < N ->
  0 <= K ->
  N + K <= max_vertices_ ->
  find_nearest_neighbours s v K = Ok (out, s2) ->
  timer s2 = timer s + 1 /\
  (timer s2 < int_max -> scratch_ok s2).
Proof.
  intros Hs Hv HK Hcap Hfind.
  destruct (find_nearest_neighbours_run s v K Hs Hv HK Hcap)
    as (it & S & s1 & st & s2' & _ & Hloop & _ & _ & _ & Hrun & _ & Ht & Hct).
  rewrite Hrun in Hfind. injection Hfind as _ <-.
  split; [done|]. intros Hmax. split.
  - pose proof (so_timer _ Hs). lia.
  - intros i. rewrite Hct, Ht.
    pose proof (li_stamps _ _ _ _ _ _ Hloop i) as Hi.
    rewrite (li_timer _ _ _ _ _ _ Hloop) in Hi. done.
Qed.


(** *** The loop of [main] *)

(** The searches of [main] run one after the other on the scratch state
    of the one [dijkstra] object. *)
Fixpoint main_loop (s : scratch) (num_of_neighbours : Z) (vertices : list Z)
  : result (list (option (list (Z * D))) * scratch) :=
  match vertices with
  | [] => Ok ([], s)
  | i :: rest =>
      '(out, s1) ← find_nearest_neighbours s i num_of_neighbours;
      '(outs, s2) ← main_loop s1 num_of_neighbours rest;
      Ok (out :: outs, s2)
  end.

(** Two searches of the parallel loop on that same object, the second
    scheduled between the expansion loop of the first and its padding
    and output.  The set and the counter [it] are locals of each call;
    the stamps, the distances, the record array and the timer are the
    members of the object. *)
Definition interleaved (s : scratch) (v1 v2 num_of_neighbours : Z)
  : result (option (list (Z * D)) * option (list (Z * D))) :=
  '(it1, s1) ← expand_phase s v1 num_of_neighbours;
  '(out2, s2) ← find_nearest_neighbours s1 v2 num_of_neighbours;
  '(it1', s3) ← pad_phase s2 num_of_neighbours it1;
  out1 ← emit num_of_neighbours it1' s3;
  Ok (out1, out2).

(** *** The searches of [main], one after the other *)

(** Run by one thread, the loop of [main] completes and prints a row of
    [K] entries for every vertex. *)
Lemma main_loop_rows K vertices :
  forall s,
    scratch_ok s ->
    0 <= K ->
    N + K <= max_vertices_ ->
    timer s + Z.of_nat (length vertices) < int_max ->
    (forall v, v ∈ vertices -> 0 <= v < N) ->
    exists outs s',
      main_loop s K vertices = Ok (outs, s') /\
      length outs = length vertices /\
      Forall (fun out => exists r, out = Some r /\ length r = Z.to_nat K) outs.
Proof.
  induction vertices as [|v vertices IH]; intros s Hs HK Hcap Ht Hvs.
  - exists [], s. split; [done|]. split; [done|]. constructor.
  - assert (Hv : 0 <= v < N) by (apply Hvs; by left).
    destruct (find_nearest_neighbours_run s v K Hs Hv HK Hcap)
      as (it & S & s1 & st & s2 & _ & Hloop & Hit & _ & _ & Hrun & Hplen & Ht2 & _).
    destruct (find_nearest_neighbours_scratch_ok s v K _ s2 Hs Hv HK Hcap Hrun)
      as [_ Hs2].
    simpl in Ht.
    destruct (IH s2) as (outs & s' & Hrest & Hlen & Hall).
    + apply Hs2. lia.
    + done.
    + done.
    + lia.
    + intros u Hu. apply Hvs. by right.
    + eexists (_ :: outs), s'. cbn [main_loop].
      rewrite Hrun, result_bind_Ok. cbv beta iota.
      rewrite Hrest, result_bind_Ok. cbv beta iota.
      split; [reflexivity|]. split; [simpl; lia|].
      constructor; [|done].
      eexists. split; [reflexivity|].
      pose proof (li_len _ _ _ _ _ _ Hloop) as HlenS.
      unfold row_of. rewrite length_app, !length_map, Hplen, length_tl. lia.
Qed.

(** *** Searches on a used scratch state

    What a search reads of the scratch state are the slots that bear its
    own stamp: two states that agree there cannot be told apart by it. *)

(** The state a search starts its loop with. *)
Lemma search_init_spec s v :
  scratch_ok s ->
  snd (search_init s v) = [(dzero, v)] /\
  timer (fst (search_init s v)) = timer s + 1 /\
  current_distance_ (fst (search_init s v)) v = dzero /\
  (forall y, stamped (fst (search_init s v)) y <-> y = v).
Proof.
  intros [Hrange Hstamps]. unfold search_init. cbn [fst snd].
  assert (Ht : to_int (timer s + 1) = timer s + 1).
  { apply to_int_small. unfold int_max in Hrange. lia. }
  cbn [current_distance_ set_distance set_time set_timer timer current_time_].
  rewrite upd_eq, Ht. split; [done|]. split; [done|]. split; [done|].
  intros y. unfold stamped.
  cbn [current_distance_ set_distance set_time set_timer timer current_time_].
  destruct (decide (y = v)) as [->|Hne].
  - rewrite upd_eq. tauto.
  - rewrite upd_ne by done. specialize (Hstamps y). split; [lia|done].
Qed.

(** [agree it s s']: the same slots are touched in [s] and in [s'], the
    touched slots hold the same distances, and the records [1 .. it-1]
    are the same. *)
Record agree (it : Z) (s s' : scratch) : Prop := {
  ag_stamp : forall y, stamped s y <-> stamped s' y;
  ag_dist : forall y,
      stamped s y -> current_distance_ s y = current_distance_ s' y;
  ag_rec : forall i,
      1 <= i < it ->
      current_neighbour_indices_ s i = current_neighbour_indices_ s' i
}.

Lemma relax_edge_agree it best s s' st to w :
  in_range to = true ->
  dlt dzero w = true ->
  stamped s best ->
  agree it s s' ->
  exists s1 s1' st1,
    relax_edge best (s, st) (to, w) = Ok (s1, st1) /\
    relax_edge best (s', st) (to, w) = Ok (s1', st1) /\
    stamped s1 best /\
    agree it s1 s1'.
Proof.
  intros Hto Hw Hbest Hag.
  assert (Hbest' : stamped s' best) by (by apply (ag_stamp _ _ _ Hag)).
  destruct (relax_edge_eq best s st to w Hto Hbest)
    as (s1 & Hr & Ht & Hc & Hct & Hcd); [by apply (dadd_pos laws)|].
  destruct (relax_edge_eq best s' st to w Hto Hbest')
    as (s1' & Hr' & Ht' & Hc' & Hct' & Hcd'); [by apply (dadd_pos laws)|].
  assert (Hb : (current_time_ s' to =? timer s') =
               (current_time_ s to =? timer s)).
  { destruct (stamped_dec s to) as [Hs|Hs].
    - pose proof (proj1 (ag_stamp _ _ _ Hag to) Hs) as Hs'. unfold stamped in *.
      by rewrite (proj2 (Z.eqb_eq _ _) Hs), (proj2 (Z.eqb_eq _ _) Hs').
    - assert (Hs' : ~ stamped s' to).
      { intros H. apply Hs. by apply (ag_stamp _ _ _ Hag). }
      unfold stamped in *.
      by rewrite (proj2 (Z.eqb_neq _ _) Hs), (proj2 (Z.eqb_neq _ _) Hs'). }
  assert (Hcur : (if current_time_ s' to =? timer s'
                  then current_distance_ s' to else inf) =
                 (if current_time_ s to =? timer s
                  then current_distance_ s to else inf)).
  { rewrite Hb. destruct (current_time_ s to =? timer s) eqn:E; [|done].
    symmetry. apply (ag_dist _ _ _ Hag). by apply Z.eqb_eq. }
  rewrite <- (ag_dist _ _ _ Hag best Hbest), Hcur in Hr'.
  eexists s1, s1', _. split; [exact Hr|]. split; [exact Hr'|].
  assert (Hst1 : forall y, stamped s1 y <-> y = to \/ stamped s y).
  { intros y. unfold stamped. rewrite Hct, Ht.
    destruct (y =? to) eqn:Hy; rewrite ?Z.eqb_eq, ?Z.eqb_neq in Hy; tauto. }
  assert (Hst1' : forall y, stamped s1' y <-> y = to \/ stamped s' y).
  { intros y. unfold stamped. rewrite Hct', Ht'.
    destruct (y =? to) eqn:Hy; rewrite ?Z.eqb_eq, ?Z.eqb_neq in Hy; tauto. }
  split; [apply Hst1; by right|].
  split.
  - intros y. rewrite Hst1, Hst1', (ag_stamp _ _ _ Hag y). tauto.
  - intros y Hy. rewrite Hcd, Hcd'.
    rewrite <- (ag_dist _ _ _ Hag best Hbest), Hcur.
    destruct (y =? to) eqn:Hyt; [done|].
    apply (ag_dist _ _ _ Hag). apply Hst1 in Hy as [->|Hy]; [|done].
    by rewrite Z.eqb_refl in Hyt.
  - intros i Hi. rewrite Hc, Hc'. by apply (ag_rec _ _ _ Hag).
Qed.

Lemma relax_edges_agree it best edges :
  forall s s' st,
    (forall to w, (to, w) ∈ edges ->
       in_range to = true /\ dlt dzero w = true) ->
    stamped s best ->
    agree it s s' ->
    exists s1 s1' st1,
      relax_edges best (s, st) edges = Ok (s1, st1) /\
      relax_edges best (s', st) edges = Ok (s1', st1) /\
      agree it s1 s1'.
Proof.
  induction edges as [|[to w] edges IH]; intros s s' st He Hbest Hag.
  - exists s, s', st. done.
  - destruct (He to w) as [Hto Hw]; [by left|].
    destruct (relax_edge_agree it best s s' st to w Hto Hw Hbest Hag)
      as (s1 & s1' & st1 & Hr & Hr' & Hb1 & Hag1).
    destruct (IH s1 s1' st1) as (s2 & s2' & st2 & Hrs & Hrs' & Hag2);
      [intros to' w' Hin; apply He; by right|done|done|].
    exists s2, s2', st2. cbn [relax_edges].
    rewrite Hr, Hr', !result_bind_Ok. done.
Qed.

Lemma expand_step_agree v t K it xs s st s' :
  0 <= v < N ->
  K < max_vertices_ ->
  loop_inv v t it xs s st ->
  st <> [] ->
  it <= K ->
  agree it s s' ->
  exists best s1 s1' st1,
    expand_step it s st = Ok (s1, st1) /\
    expand_step it s' st = Ok (s1', st1) /\
    loop_inv v t (it + 1) (xs ++ [best]) s1 st1 /\
    agree (it + 1) s1 s1'.
Proof.
  intros Hv HK Hloop Hne Hit Hag.
  destruct (expand_step_inv v t K it xs s st Hv HK Hloop Hne Hit)
    as (best & s1 & st1 & Hstep & Hloop1).
  pose proof (li_inv _ _ _ _ _ _ Hloop) as Hinv.
  pose proof (li_len _ _ _ _ _ _ Hloop) as Hlen.
  destruct st as [|[k b] st0]; [done|].
  assert (Hb : stamped s b).
  { apply (si_front _ _ _ _ _ Hinv k b). by left. }
  pose proof (si_bounds _ _ _ _ _ Hinv b Hb) as Hbr.
  pose proof (go_cap Hg) as Hcap.
  destruct (relax_edges_agree it b (adj_list_ g b) s s' st0)
    as (r1 & r1' & rst & Hr & Hr' & Hag1); [|done|done|].
  { intros to w Hin. destruct (go_edges Hg b to w Hbr Hin) as [Hto Hw].
    split; [|done]. apply in_range_true. lia. }
  exists best.
  unfold expand_step in Hstep |- *. cbn [snd] in Hstep |- *.
  rewrite in_range_true in Hstep |- * by lia.
  rewrite Hr in Hstep. rewrite Hr, Hr'.
  rewrite !result_bind_Ok in Hstep |- *. cbv beta iota in Hstep |- *.
  destruct (0 <? it) eqn:Hpos.
  - apply Z.ltb_lt in Hpos.
    rewrite in_range_true in Hstep |- * by lia.
    injection Hstep as <- <-.
    eexists _, _, _. split; [reflexivity|]. split; [reflexivity|].
    split; [exact Hloop1|].
    split.
    + apply (ag_stamp _ _ _ Hag1).
    + apply (ag_dist _ _ _ Hag1).
    + intros i Hi. cbn [current_neighbour_indices_ set_neighbour].
      destruct (decide (i = it)) as [->|Hne'].
      * by rewrite !upd_eq.
      * rewrite !upd_ne by done. apply (ag_rec _ _ _ Hag1). lia.
  - apply Z.ltb_ge in Hpos.
    injection Hstep as <- <-.
    eexists _, _, _. split; [reflexivity|]. split; [reflexivity|].
    split; [exact Hloop1|].
    split.
    + apply (ag_stamp _ _ _ Hag1).
    + apply (ag_dist _ _ _ Hag1).
    + intros i Hi. lia.
Qed.

Lemma expand_agree v t K :
  0 <= v < N ->
  K < max_vertices_ ->
  forall fuel it xs s st s',
    loop_inv v t it xs s st ->
    agree it s s' ->
    (Z.to_nat (K + 1 - it) <= fuel)%nat ->
    exists it' xs' s1 s1' st1,
      expand fuel K it s st = Ok (it', s1, st1) /\
      expand fuel K it s' st = Ok (it', s1', st1) /\
      loop_inv v t it' xs' s1 st1 /\
      agree it' s1 s1'.
Proof.
  intros Hv HK. induction fuel as [|fuel IH]; intros it xs s st s' Hloop Hag Hfuel.
  - exists it, xs, s, s', st. cbn [expand].
    assert (Hle : (it <=? K) = false) by (apply Z.leb_gt; lia).
    rewrite Hle. done.
  - cbn [expand]. destruct (it <=? K) eqn:Hle.
    + apply Z.leb_le in Hle.
      destruct (decide (st = [])) as [->|Hne].
      * rewrite bool_decide_eq_true_2 by done.
        exists it, xs, s, s', []. done.
      * rewrite bool_decide_eq_false_2 by done. cbn [andb negb].
        destruct (expand_step_agree v t K it xs s st s' Hv HK Hloop Hne Hle Hag)
          as (best & s1 & s1' & st1 & Hstep & Hstep' & Hloop1 & Hag1).
        rewrite Hstep, Hstep', !result_bind_Ok. cbv beta iota.
        apply (IH (it + 1) _ s1 st1 s1' Hloop1 Hag1). lia.
    + exists it, xs, s, s', st. done.
Qed.

(** Two searches from the same vertex, started on two usable scratch
    states, print the same row. *)
Lemma search_rows_agree s s' v K :
  scratch_ok s ->
  scratch_ok s' ->
  0 <= v < N ->
  0 <= K ->
  N + K <= max_vertices_ ->
  exists r s2 s2',
    find_nearest_neighbours s v K = Ok (Some r, s2) /\
    find_nearest_neighbours s' v K = Ok (Some r, s2').
Proof.
  intros Hs Hs' Hv HK Hcap.
  pose proof (go_cap Hg) as HN.
  destruct (search_init_spec s v Hs) as (Hst & Ht & Hd & Hstamp).
  destruct (search_init_spec s' v Hs') as (Hst' & Ht' & Hd' & Hstamp').
  assert (Hag0 : agree 0 (fst (search_init s v)) (fst (search_init s' v))).
  { split.
    - intros y. by rewrite Hstamp, Hstamp'.
    - intros y Hy. apply Hstamp in Hy. subst y. by rewrite Hd, Hd'.
    - intros i Hi. lia. }
  destruct (expand_agree v (timer s + 1) K Hv ltac:(lia) (Z.to_nat (K + 1)) 0 []
              _ _ _ (init_inv s v Hs Hv) Hag0)
    as (it & xs0 & s1 & s1' & st1 & Hexp & Hexp' & _ & Hag); [lia|].
  rewrite Hst in Hexp'. rewrite <- Hst' in Hexp'.
  destruct (find_nearest_neighbours_run s v K Hs Hv HK Hcap)
    as (it0 & xs & r1 & st & s2 & Hph & Hloop & Hit & _ & _ & Hrun & _).
  destruct (find_nearest_neighbours_run s' v K Hs' Hv HK Hcap)
    as (it0' & xs' & r1' & st' & s2' & Hph' & Hloop' & Hit' & _ & _ & Hrun' & _).
  unfold expand_phase in Hph, Hph'.
  rewrite in_range_true in Hph, Hph' by lia.
  rewrite Hexp, result_bind_Ok in Hph. cbv beta iota in Hph.
  rewrite Hexp', result_bind_Ok in Hph'. cbv beta iota in Hph'.
  injection Hph as <- <-. injection Hph' as <- <-.
  exists (row_of xs s1 (placeholders s1 (Z.to_nat (K + 1 - it)))), s2, s2'.
  split; [exact Hrun|]. rewrite Hrun'. do 3 f_equal.
  pose proof (li_len _ _ _ _ _ _ Hloop) as Hlen.
  pose proof (li_len _ _ _ _ _ _ Hloop') as Hlen'.
  assert (Htail : tail xs' = tail xs).
  { apply list_eq. intros i. rewrite !lookup_tail.
    destruct (decide (S i < length xs)%nat) as [Hlt|Hge].
    - rewrite (li_records _ _ _ _ _ _ Hloop (S i)) by lia.
      rewrite (li_records _ _ _ _ _ _ Hloop' (S i)) by lia.
      f_equal. symmetry. apply (ag_rec _ _ _ Hag). lia.
    - rewrite !lookup_ge_None_2; [done|lia|lia]. }
  unfold row_of. rewrite Htail. f_equal.
  - apply map_ext_in. intros u Hu. f_equal. symmetry.
    apply (ag_dist _ _ _ Hag).
    apply (si_settled _ _ _ _ _ (li_inv _ _ _ _ _ _ Hloop)).
    apply list_elem_of_In in Hu. destruct xs; [done|]. by right.
  - f_equal. unfold placeholders, untouched_from. f_equal.
    apply list_filter_iff. intros y.
    pose proof (ag_stamp _ _ _ Hag y) as Hy. unfold stamped in Hy. tauto.
Qed.

(** X7.  The row a search prints does not depend on what earlier searches
    left in the arrays: started from the same vertex on any two scratch
    states in which no slot bears a stamp above the timer, the search
    prints the same row. *)
Theorem find_nearest_neighbours_scratch_independent (s s' : scratch) (v K : Z) :
  scratch_ok s ->
  scratch_ok s' ->
  0 <= v < N ->
  0 <= K ->
  N + K <= max_vertices_ ->
  exists r s2 s2',
    find_nearest_neighbours s v K = Ok (Some r, s2) /\
    find_nearest_neighbours s' v K = Ok (Some r, s2') /\
    length r = Z.to_nat K.
Proof.
  intros Hs Hs' Hv HK Hcap.
  destruct (search_rows_agree s s' v K Hs Hs' Hv HK Hcap)
    as (r & s2 & s2' & Hrun & Hrun').
  exists r, s2, s2'. split; [done|]. split; [done|].
  destruct (find_nearest_neighbours_run s v K Hs Hv HK Hcap)
    as (it & xs & s1 & st & s2'' & _ & Hloop & Hit & _ & _ & Hrun'' & Hplen & _).
  rewrite Hrun in Hrun''. injection Hrun'' as -> _.
  pose proof (li_len _ _ _ _ _ _ Hloop) as Hlen.
  unfold row_of. rewrite length_app, !length_map, Hplen, length_tl. lia.
Qed.

(** X8.  The searches of the loop of [main], run one after the other on
    the one scratch state, print for every vertex the row that a search
    on a scratch state [s0] of its own prints. *)
Theorem main_loop_rows_independent (s0 : scratch) (K : Z) (vertices : list Z) :
  forall s,
    scratch_ok s0 ->
    scratch_ok s ->
    0 <= K ->
    N + K <= max_vertices_ ->
    timer s + Z.of_nat (length vertices) < int_max ->
    (forall v, v ∈ vertices -> 0 <= v < N) ->
    exists outs s',
      main_loop s K vertices = Ok (outs, s') /\
      Forall2 (fun v out =>
                 exists s2, find_nearest_neighbours s0 v K = Ok (out, s2))
              vertices outs.
Proof.
  induction vertices as [|v vertices IH]; intros s Hs0 Hs HK Hcap Ht Hvs.
  - exists [], s. split; [done|]. constructor.
  - assert (Hv : 0 <= v < N) by (apply Hvs; by left).
    destruct (search_rows_agree s s0 v K Hs Hs0 Hv HK Hcap)
      as (r & s2 & s2' & Hrun & Hrun').
    destruct (find_nearest_neighbours_scratch_ok s v K _ s2 Hs Hv HK Hcap Hrun)
      as [Ht2 Hs2].
    simpl in Ht.
    destruct (IH s2) as (outs & s' & Hrest & Hall);
      [done|apply Hs2; lia|done|done|lia|intros u Hu; apply Hvs; by right|].
    exists (Some r :: outs), s'. cbn [main_loop].
    rewrite Hrun, result_bind_Ok. cbv beta iota.
    rewrite Hrest, result_bind_Ok. cbv beta iota.
    split; [reflexivity|]. constructor; [|done]. by exists s2'.
Qed.

(** *** More about one search *)

(** X9.  A vertex without edges gets a row of placeholders only: the [K]
    lowest indices other than its own, in ascending order, each with the
    distance [inf]. *)
Theorem find_nearest_neighbours_isolated (s : scratch) (v K : Z) :
  scratch_ok s ->
  0 <= v < N ->
  0 <= K ->
  N + K <= max_vertices_ ->
  adj_list_ g v = [] ->
  exists s2,
    find_nearest_neighbours s v K =
    Ok (Some (map (fun p => (p, inf))
                  (take (Z.to_nat K)
                        (filter (fun i => i <> v) (seqZ 0 max_vertices_)))),
        s2).
Proof.
  intros Hs Hv HK Hcap Hadj.
  pose proof (go_cap Hg) as HN.
  destruct (search_init_spec s v Hs) as (Hst & Ht & Hd & Hstamp).
  destruct (find_nearest_neighbours_run s v K Hs Hv HK Hcap)
    as (it & xs & s1 & st & s2 & Hph & Hloop & Hit & _ & _ & Hrun & _).
  assert (Hexp : expand_phase s v K = Ok (1, fst (search_init s v))).
  { unfold expand_phase. rewrite in_range_true by lia.
    destruct (Z.to_nat (K + 1)) as [|fuel] eqn:Hfuel; [lia|].
    rewrite Hst. cbn [expand].
    rewrite (proj2 (Z.leb_le 0 K)) by lia.
    rewrite bool_decide_eq_false_2 by done. cbn [andb negb].
    unfold expand_step. cbn [snd]. rewrite in_range_true by lia.
    rewrite Hadj. cbn [relax_edges]. rewrite result_bind_Ok. cbv beta iota.
    change (0 <? 0) with false. cbv iota.
    rewrite result_bind_Ok. cbv beta iota.
    assert (Hstop : forall s', expand fuel K (0 + 1) s' [] = Ok (0 + 1, s', [])).
    { intros s'. destruct fuel; cbn [expand];
        rewrite bool_decide_eq_true_2 by done;
        by rewrite andb_false_r. }
    rewrite Hstop, result_bind_Ok. reflexivity. }
  rewrite Hexp in Hph. injection Hph as <- <-.
  exists s2. rewrite Hrun. do 3 f_equal.
  pose proof (li_len _ _ _ _ _ _ Hloop) as Hlen.
  unfold row_of.
  assert (Htail : tail xs = []).
  { destruct xs as [|x [|y xs]]; simpl in Hlen; [done|done|lia]. }
  rewrite Htail. cbn [map app]. f_equal.
  unfold placeholders, untouched_from.
  replace (Z.to_nat (K + 1 - 1)) with (Z.to_nat K) by lia.
  rewrite Z.sub_0_r. f_equal.
  apply list_filter_iff. intros y.
  pose proof (Hstamp y) as Hy. unfold stamped in Hy. tauto.
Qed.

(** X10.  In a row, the real records carry distances below [inf] and the
    placeholders carry [inf]: an entry is a placeholder exactly when its
    distance is [inf]. *)
Theorem find_nearest_neighbours_placeholder_distance (s : scratch) (v K : Z) :
  scratch_ok s ->
  0 <= v < N ->
  0 <= K ->
  N + K <= max_vertices_ ->
  exists it s1 r s2,
    expand_phase s v K = Ok (it, s1) /\
    find_nearest_neighbours s v K = Ok (Some r, s2) /\
    (forall u d, (u, d) ∈ take (Z.to_nat (it - 1)) r -> dlt d inf = true) /\
    (forall p d, (p, d) ∈ drop (Z.to_nat (it - 1)) r -> d = inf) /\
    (forall (j : nat) u d,
        r !! j = Some (u, d) ->
        d = inf <-> (Z.to_nat (it - 1) <= j)%nat).
Proof.
  intros Hs Hv HK Hcap.
  destruct (find_nearest_neighbours_run s v K Hs Hv HK Hcap)
    as (it & xs & s1 & st & s2 & Hph & Hloop & Hit & _ & _ & Hrun & _).
  eexists it, s1, _, s2. split; [exact Hph|]. split; [exact Hrun|].
  pose proof (li_len _ _ _ _ _ _ Hloop) as Hlen.
  pose proof (li_inv _ _ _ _ _ _ Hloop) as Hinv.
  set (r := row_of xs s1 (placeholders s1 (Z.to_nat (K + 1 - it)))).
  destruct (row_of_reals xs s1 (placeholders s1 (Z.to_nat (K + 1 - it))) it Hlen)
    as [Htake Hdrop]. fold r in Htake, Hdrop.
  assert (Hreal : forall u d,
             (u, d) ∈ take (Z.to_nat (it - 1)) r -> dlt d inf = true).
  { intros u d Hud. rewrite Htake in Hud.
    apply elem_of_map_dist in Hud as [Hu ->].
    apply (si_settled _ _ _ _ _ Hinv). destruct xs; [done|]. by right. }
  assert (Hpad : forall p d,
             (p, d) ∈ drop (Z.to_nat (it - 1)) r -> d = inf).
  { intros p d Hpd. rewrite Hdrop in Hpd.
    apply list_elem_of_In, in_map_iff in Hpd as (q & [= _ <-] & _). done. }
  split; [exact Hreal|]. split; [exact Hpad|].
  intros j u d Hj. split.
  - intros ->. destruct (decide (Z.to_nat (it - 1) <= j)%nat) as [|Hlt]; [done|].
    exfalso. assert (Hin : (u, inf) ∈ take (Z.to_nat (it - 1)) r).
    { apply (list_elem_of_lookup_2 _ j). rewrite lookup_take_lt by lia. done. }
    apply Hreal in Hin. by rewrite (dlt_irrefl laws) in Hin.
  - intros Hle. apply (Hpad u).
    apply (list_elem_of_lookup_2 _ (j - Z.to_nat (it - 1))%nat).
    rewrite lookup_drop. rewrite <- Hj. f_equal. lia.
Qed.

(** X11.  A search stamps vertices only, and only vertices that its
    source reaches; it advances the timer by one and leaves no slot with
    a stamp above the timer, so the next search can use the arrays. *)
Theorem find_nearest_neighbours_touches_reachable
        (s : scratch) (v K : Z) (out : option (list (Z * D))) (s2 : scratch) :
  scratch_ok s ->
  0 <= v < N ->
  0 <= K ->
  N + K <= max_vertices_ ->
  find_nearest_neighbours s v K = Ok (out, s2) ->
  timer s2 = timer s + 1 /\
  stamped s2 v /\
  (forall y, stamped s2 y -> 0 <= y < N /\ reachable v y) /\
  (forall y, current_time_ s2 y <= timer s2).
Proof.
  intros Hs Hv HK Hcap Hfind.
  destruct (find_nearest_neighbours_run s v K Hs Hv HK Hcap)
    as (it & xs & s1 & st & s2' & _ & Hloop & _ & _ & _ & Hrun & _ & Ht & Hct).
  rewrite Hrun in Hfind. injection Hfind as _ ->.
  pose proof (li_inv _ _ _ _ _ _ Hloop) as Hinv.
  pose proof (li_timer _ _ _ _ _ _ Hloop) as Ht1.
  assert (Hsame : forall y, stamped s2 y <-> stamped s1 y).
  { intros y. unfold stamped. by rewrite Hct, Ht, Ht1. }
  split; [done|]. split; [apply Hsame, (si_src _ _ _ _ _ Hinv)|].
  split.
  - intros y Hy. apply Hsame in Hy. split.
    + by apply (si_bounds _ _ _ _ _ Hinv).
    + by apply (si_reach _ _ _ _ _ Hinv).
  - intros y. rewrite Hct, Ht, <- Ht1. apply (li_stamps _ _ _ _ _ _ Hloop).
Qed.

(** X12.  With a negative number of neighbours the loops do not run: the
    search stamps its source and prints an empty row for [K = -1], no row
    at all for [K < -1]. *)
Theorem find_nearest_neighbours_negative (s : scratch) (v K : Z) :
  in_range v = true ->
  -2147483648 <= K < 0 ->
  find_nearest_neighbours s v K =
  Ok (if K =? -1 then Some [] else None, fst (search_init s v)).
Proof.
  intros Hv HK. unfold find_nearest_neighbours, expand_phase, pad_phase.
  rewrite Hv.
  replace (Z.to_nat (K + 1)) with 0%nat by lia.
  assert (Hle : (0 <=? K) = false) by (apply Z.leb_gt; lia).
  cbn [expand]. rewrite Hle. cbn [andb].
  rewrite !result_bind_Ok. cbv beta iota.
  cbn [pad]. rewrite Hle, result_bind_Ok. cbv beta iota.
  unfold emit. rewrite to_int_small by lia.
  destruct (K =? -1) eqn:HK1.
  - apply Z.eqb_eq in HK1. subst K. reflexivity.
  - apply Z.eqb_neq in HK1.
    rewrite (proj2 (Z.eqb_neq 0 (K + 1))) by lia.
    rewrite result_bind_Ok. reflexivity.
Qed.

(** *** Reachability *)

Lemma walk_app a b c l1 l2 :
  walk a b l1 -> walk b c l2 -> exists l, walk a c l.
Proof.
  intros H1 H2. induction H2 as [|u l to w H2 IH Hin]; [eauto|].
  destruct IH as [l' Hl']. eexists. eapply walk_step; eauto.
Qed.

Lemma reachable_trans a b c : reachable a b -> reachable b c -> reachable a c.
Proof. intros [l1 H1] [l2 H2]. by eapply walk_app. Qed.

Lemma reachable_sym a b :
  (forall i j x, (j, x) ∈ adj_list_ g i -> (i, x) ∈ adj_list_ g j) ->
  reachable a b -> reachable b a.
Proof.
  intros Hsym [l Hw]. induction Hw as [|u l to w Hw IH Hin].
  - eexists. constructor.
  - apply Hsym in Hin.
    eapply reachable_trans; [|exact IH].
    eexists. eapply walk_step; [constructor|exact Hin].
Qed.

(** *** Asking for more neighbours *)

(** The list of extracted vertices is determined by the state. *)
Lemma loop_inv_unique v t it xs xs' s st st' :
  loop_inv v t it xs s st -> loop_inv v t it xs' s st' -> xs = xs'.
Proof.
  intros H H'.
  pose proof (li_len _ _ _ _ _ _ H) as Hlen.
  pose proof (li_len _ _ _ _ _ _ H') as Hlen'.
  apply list_eq. intros i.
  destruct (decide (i < length xs)%nat) as [Hlt|Hge].
  - destruct i as [|i].
    + destruct xs as [|x xs0], xs' as [|x' xs0']; simpl in *; try lia.
      rewrite (li_head _ _ _ _ _ _ H x xs0 eq_refl).
      by rewrite (li_head _ _ _ _ _ _ H' x' xs0' eq_refl).
    + rewrite (li_records _ _ _ _ _ _ H (S i)) by lia.
      by rewrite (li_records _ _ _ _ _ _ H' (S i)) by lia.
  - rewrite !lookup_ge_None_2; [done|lia|lia].
Qed.

(** The loop only appends to the list of extracted vertices. *)
Lemma expand_inv_prefix v t K :
  0 <= v < N ->
  K < max_vertices_ ->
  forall fuel it xs s st,
    loop_inv v t it xs s st ->
    (Z.to_nat (K + 1 - it) <= fuel)%nat ->
    exists it' xs' s' st',
      expand fuel K it s st = Ok (it', s', st') /\
      loop_inv v t it' xs' s' st' /\
      xs `prefix_of` xs'.
Proof.
  intros Hv HK. induction fuel as [|fuel IH]; intros it xs s st Hloop Hfuel.
  - exists it, xs, s, st. cbn [expand].
    assert (Hle : (it <=? K) = false) by (apply Z.leb_gt; lia).
    rewrite Hle. done.
  - cbn [expand]. destruct (it <=? K) eqn:Hle.
    + apply Z.leb_le in Hle.
      destruct (decide (st = [])) as [->|Hne].
      * rewrite bool_decide_eq_true_2 by done.
        exists it, xs, s, []. done.
      * rewrite bool_decide_eq_false_2 by done. cbn [andb negb].
        destruct (expand_step_inv v t K it xs s st Hv HK Hloop Hne Hle)
          as (best & s1 & st1 & Hstep & Hloop1).
        rewrite Hstep, result_bind_Ok. cbv beta iota.
        destruct (IH (it + 1) _ s1 st1 Hloop1)
          as (it' & xs' & s' & st' & Hexp & Hloop' & Hpre); [lia|].
        exists it', xs', s', st'. split; [done|]. split; [done|].
        by eapply prefix_app_l.
    + exists it, xs, s, st. done.
Qed.

(** The loop for [K] neighbours and the loop for [K' >= K], started on the
    same state: the second extracts what the first extracts, and goes
    on. *)
Lemma expand_more v t K K' :
  0 <= v < N ->
  K <= K' ->
  K' < max_vertices_ ->
  forall fuel fuel' it xs s st,
    loop_inv v t it xs s st ->
    (Z.to_nat (K + 1 - it) <= fuel)%nat ->
    (Z.to_nat (K' + 1 - it) <= fuel')%nat ->
    exists it1 xs1 s1 st1 it2 xs2 s2 st2,
      expand fuel K it s st = Ok (it1, s1, st1) /\
      loop_inv v t it1 xs1 s1 st1 /\
      expand fuel' K' it s st = Ok (it2, s2, st2) /\
      loop_inv v t it2 xs2 s2 st2 /\
      xs1 `prefix_of` xs2.
Proof.
  intros Hv HKK HK'.
  assert (Hstop : forall fuel fuel' it xs s st,
             loop_inv v t it xs s st ->
             (Z.to_nat (K' + 1 - it) <= fuel')%nat ->
             expand fuel K it s st = Ok (it, s, st) ->
             exists it1 xs1 s1 st1 it2 xs2 s2 st2,
               expand fuel K it s st = Ok (it1, s1, st1) /\
               loop_inv v t it1 xs1 s1 st1 /\
               expand fuel' K' it s st = Ok (it2, s2, st2) /\
               loop_inv v t it2 xs2 s2 st2 /\
               xs1 `prefix_of` xs2).
  { intros fuel fuel' it xs s st Hloop Hfuel' Hexp.
    destruct (expand_inv_prefix v t K' Hv HK' fuel' it xs s st Hloop Hfuel')
      as (it2 & xs2 & s2 & st2 & Hexp2 & Hloop2 & Hpre).
    exists it, xs, s, st, it2, xs2, s2, st2. done. }
  induction fuel as [|fuel IH]; intros fuel' it xs s st Hloop Hfuel Hfuel'.
  - apply (Hstop _ _ _ xs); [done|done|]. cbn [expand].
    assert (Hle : (it <=? K) = false) by (apply Z.leb_gt; lia).
    by rewrite Hle.
  - destruct (it <=? K) eqn:Hle.
    + apply Z.leb_le in Hle.
      destruct (decide (st = [])) as [->|Hne].
      * apply (Hstop _ _ _ xs); [done|done|]. cbn [expand].
        rewrite bool_decide_eq_true_2 by done. by rewrite andb_false_r.
      * destruct fuel' as [|fuel']; [lia|].
        cbn [expand].
        rewrite (proj2 (Z.leb_le it K)), (proj2 (Z.leb_le it K')) by lia.
        rewrite bool_decide_eq_false_2 by done. cbn [andb negb].
        destruct (expand_step_inv v t K it xs s st Hv ltac:(lia) Hloop Hne Hle)
          as (best & s1 & st1 & Hstep & Hloop1).
        rewrite Hstep, !result_bind_Ok. cbv beta iota.
        apply (IH fuel' (it + 1) _ s1 st1 Hloop1); lia.
    + apply (Hstop _ _ _ xs); [done|done|]. cbn [expand]. by rewrite Hle.
Qed.

(** X13.  Asking for more neighbours only extends the real records: the
    real records of the row for [K] open the row for every [K' >= K],
    with the same distances. *)
Theorem find_nearest_neighbours_more_neighbours (s : scratch) (v K K' : Z) :
  scratch_ok s ->
  0 <= v < N ->
  0 <= K ->
  K <= K' ->
  N + K' <= max_vertices_ ->
  exists it s1 r s2 r' s2',
    expand_phase s v K = Ok (it, s1) /\
    find_nearest_neighbours s v K = Ok (Some r, s2) /\
    find_nearest_neighbours s v K' = Ok (Some r', s2') /\
    take (Z.to_nat (it - 1)) r' = take (Z.to_nat (it - 1)) r.
Proof.
  intros Hs Hv HK HKK Hcap.
  pose proof (go_cap Hg) as HN.
  destruct (find_nearest_neighbours_run s v K Hs Hv HK ltac:(lia))
    as (it & xs & s1 & st & s2 & Hph & Hloop & Hit & _ & _ & Hrun & _).
  destruct (find_nearest_neighbours_run s v K' Hs Hv ltac:(lia) Hcap)
    as (it' & xs' & s1' & st' & s2' & Hph' & Hloop' & Hit' & _ & _ & Hrun' & _).
  destruct (expand_more v (timer s + 1) K K' Hv HKK ltac:(lia)
              (Z.to_nat (K + 1)) (Z.to_nat (K' + 1)) 0 [] _ _
              (init_inv s v Hs Hv))
    as (it1 & xs1 & r1 & st1 & it2 & xs2 & r2 & st2
        & Hexp1 & Hloop1 & Hexp2 & Hloop2 & Hpre); [lia|lia|].
  pose proof Hph as Hph1. pose proof Hph' as Hph2.
  unfold expand_phase in Hph1, Hph2.
  rewrite in_range_true in Hph1, Hph2 by lia.
  rewrite Hexp1, result_bind_Ok in Hph1. cbv beta iota in Hph1.
  rewrite Hexp2, result_bind_Ok in Hph2. cbv beta iota in Hph2.
  injection Hph1 as -> ->. injection Hph2 as -> ->.
  rewrite (loop_inv_unique _ _ _ _ _ _ _ _ Hloop1 Hloop) in Hpre.
  rewrite (loop_inv_unique _ _ _ _ _ _ _ _ Hloop2 Hloop') in Hpre.
  eexists it, s1, _, s2, _, s2'.
  split; [exact Hph|]. split; [exact Hrun|]. split; [exact Hrun'|].
  pose proof (li_len _ _ _ _ _ _ Hloop) as Hlen.
  pose proof (li_len _ _ _ _ _ _ Hloop') as Hlen'.
  destruct (row_of_reals xs s1 (placeholders s1 (Z.to_nat (K + 1 - it))) it Hlen)
    as [Htake _].
  rewrite Htake.
  destruct Hpre as [k Hk].
  destruct xs as [|x xs0]; [simpl in Hlen; lia|].
  assert (Htail : tail xs' = xs0 ++ k) by (by rewrite Hk).
  unfold row_of. rewrite Htail, map_app, <- app_assoc.
  replace (Z.to_nat (it - 1)) with
    (length (map (fun u => (u, current_distance_ s1' u)) xs0))
    by (rewrite length_map; simpl in Hlen; lia).
  rewrite take_app_length. cbn [tail].
  apply map_ext_in. intros u Hu. f_equal. apply list_elem_of_In in Hu.
  assert (H1 : shortest v u (current_distance_ s1 u)).
  { eapply settled_shortest; [exact Hloop|]. by right. }
  assert (H2 : shortest v u (current_distance_ s1' u)).
  { eapply settled_shortest; [exact Hloop'|].
    rewrite Hk. apply elem_of_app. left. by right. }
  destruct H1 as [Hw1 Hmin1], H2 as [Hw2 Hmin2].
  apply dle_antisym; auto.
Qed.

(** X14.  The indices of a row, placeholders included, are pairwise
    distinct slots of the arrays, and none of them is the source. *)
Theorem find_nearest_neighbours_row_distinct (s : scratch) (v K : Z) :
  scratch_ok s ->
  0 <= v < N ->
  0 <= K ->
  N + K <= max_vertices_ ->
  exists r s2,
    find_nearest_neighbours s v K = Ok (Some r, s2) /\
    NoDup (v :: map fst r) /\
    (forall p, p ∈ map fst r -> 0 <= p < max_vertices_).
Proof.
  intros Hs Hv HK Hcap.
  pose proof (go_cap Hg) as HN.
  destruct (find_nearest_neighbours_run s v K Hs Hv HK Hcap)
    as (it & xs & s1 & st & s2 & _ & Hloop & Hit & _ & _ & Hrun & Hplen & _).
  eexists _, s2. split; [exact Hrun|].
  pose proof (li_inv _ _ _ _ _ _ Hloop) as Hinv.
  destruct (settled_head _ _ _ _ _ _ Hloop (proj1 Hit)) as (HS & Hnd & HvS).
  set (pads := placeholders s1 (Z.to_nat (K + 1 - it))) in *.
  assert (Hfst : map fst (row_of xs s1 pads) = tail xs ++ pads).
  { unfold row_of. rewrite map_app, map_fst_graph. f_equal.
    clear. induction pads as [|p pads IH]; simpl; congruence. }
  rewrite Hfst.
  assert (Hreal : forall u, u ∈ tail xs -> stamped s1 u /\ 0 <= u < N).
  { intros u Hu.
    destruct (si_settled _ _ _ _ _ Hinv u) as [Hst _]; [rewrite HS; by right|].
    split; [done|]. by apply (si_bounds _ _ _ _ _ Hinv). }
  assert (Hpad : forall p, p ∈ pads -> ~ stamped s1 p /\ 0 <= p < max_vertices_).
  { intros p Hp. unfold pads, placeholders in Hp.
    apply elem_of_take in Hp as (i & Hp & _).
    apply list_elem_of_lookup_2, elem_of_untouched_from in Hp.
    split; [tauto|lia]. }
  split.
  - apply NoDup_cons. split.
    + intros Hin. apply elem_of_app in Hin as [Hin|Hin]; [done|].
      apply Hpad in Hin as [Hns _]. apply Hns, (si_src _ _ _ _ _ Hinv).
    + apply NoDup_app. split; [done|]. split.
      * intros x Hx Hx'. apply Hreal in Hx as [Hst _].
        apply Hpad in Hx' as [Hns _]. done.
      * unfold pads, placeholders, untouched_from.
        eapply sublist_NoDup; [|apply sublist_take].
        apply NoDup_filter, NoDup_seqZ.
  - intros p Hp. apply elem_of_app in Hp as [Hp|Hp].
    + apply Hreal in Hp. lia.
    + apply Hpad in Hp. tauto.
Qed.

End Search.

(** ** A run on integer distances *)

(** The distances instantiated with the integers, and a graph of three
    vertices in a line: 0 and 1 at distance 1, 1 and 2 at distance 5. *)
Definition zinf : Z := 1000000000000000.

Definition line_adj (u : Z) : list (Z * Z) :=
  if u =? 0 then [(1, 1)]
  else if u =? 1 then [(0, 1); (2, 5)]
  else if u =? 2 then [(1, 5)]
  else [].

Definition line_graph : @graph Z :=
  Graph (Normalizer (<[30 := 2]> (<[20 := 1]> (<[10 := 0]> ∅)))
                    [(10, 0); (20, 1); (30, 2)])
        line_adj.

Definition scratch_init : @scratch Z :=
  Scratch 0 (fun _ => 0) (fun _ => 0) (fun _ => 0).

Definition zsearch (g : @graph Z) := find_nearest_neighbours 0 zinf Z.add Z.ltb g.

(** The row a run printed, if it printed one. *)
Definition printed {D : Type} (r : result (option (list (Z * D)) * @scratch D))
  : option (list (Z * D)) :=
  match r with
  | Ok (out, _) => out
  | _ => None
  end.

Lemma line_graph_vertices : number_of_verices line_graph = 3.
Proof. vm_compute. reflexivity. Qed.

Lemma z_laws : dist_laws 0 zinf Z.add Z.ltb.
Proof.
  split.
  - intros a. apply Z.ltb_irrefl.
  - intros a b c. rewrite !Z.ltb_lt. lia.
  - intros a b. rewrite !Z.ltb_ge. lia.
  - intros a b w. rewrite !Z.ltb_ge. lia.
  - intros a w. rewrite Z.ltb_lt, Z.ltb_ge. lia.
  - reflexivity.
Qed.

Lemma line_graph_adj_cases u e :
  e ∈ adj_list_ line_graph u ->
  (u = 0 /\ e = (1, 1)) \/ (u = 1 /\ e = (0, 1)) \/
  (u = 1 /\ e = (2, 5)) \/ (u = 2 /\ e = (1, 5)).
Proof.
  cbn. unfold line_adj.
  destruct (u =? 0) eqn:H0; [|destruct (u =? 1) eqn:H1;
                               [|destruct (u =? 2) eqn:H2]];
    rewrite ?Z.eqb_eq, ?Z.eqb_neq in *; subst;
    rewrite ?elem_of_cons, ?elem_of_nil; intuition auto.
Qed.

Lemma line_graph_ok : graph_ok 0 Z.ltb line_graph 3.
Proof.
  split.
  - unfold max_vertices_. lia.
  - intros u to w Hu He.
    apply line_graph_adj_cases in He
      as [[-> [= -> ->]]|[[-> [= -> ->]]|[[-> [= -> ->]]|[-> [= -> ->]]]]];
      split; (lia || reflexivity).
Qed.

Lemma scratch_init_ok : scratch_ok scratch_init.
Proof. split; simpl; unfold int_max; intros; lia. Qed.

Lemma line_graph_walk_1 : walk 0 Z.add line_graph 0 1 (0 + 1).
Proof.
  eapply walk_step; [apply walk_nil|]. apply list_elem_of_singleton. reflexivity.
Qed.

Lemma line_graph_walk_2 : walk 0 Z.add line_graph 0 2 (0 + 1 + 5).
Proof.
  eapply walk_step; [apply line_graph_walk_1|].
  apply elem_of_cons. right. apply list_elem_of_singleton. reflexivity.
Qed.

Lemma line_graph_short u :
  reachable 0 Z.add line_graph 0 u ->
  exists l, walk 0 Z.add line_graph 0 u l /\ (l <? zinf) = true.
Proof.
  intros [l Hw].
  pose proof (walk_in_range 0 Z.add Z.ltb line_graph 3
                line_graph_ok 0 u l ltac:(lia) Hw) as Hu.
  destruct (Z.eq_dec u 0) as [->|H0].
  { exists 0. split; [apply walk_nil|reflexivity]. }
  destruct (Z.eq_dec u 1) as [->|H1].
  { eexists. split; [apply line_graph_walk_1|reflexivity]. }
  assert (u = 2) as -> by lia.
  eexists. split; [apply line_graph_walk_2|reflexivity].
Qed.

Lemma line_graph_others u :
  u ∈ [1; 2] <-> u <> 0 /\ reachable 0 Z.add line_graph 0 u.
Proof.
  rewrite !elem_of_cons, elem_of_nil. split.
  - intros [->|[->|[]]]; (split; [lia|]).
    + eexists. apply line_graph_walk_1.
    + eexists. apply line_graph_walk_2.
  - intros [Hne [l Hw]].
    pose proof (walk_in_range 0 Z.add Z.ltb line_graph 3
                  line_graph_ok 0 u l ltac:(lia) Hw) as Hu.
    lia.
Qed.

Lemma line_graph_all u :
  u ∈ [0; 1; 2] <-> reachable 0 Z.add line_graph 0 u.
Proof.
  rewrite !elem_of_cons, elem_of_nil. split.
  - intros [->|[->|[->|[]]]].
    + eexists. apply walk_nil.
    + eexists. apply line_graph_walk_1.
    + eexists. apply line_graph_walk_2.
  - intros [l Hw].
    pose proof (walk_in_range 0 Z.add Z.ltb line_graph 3
                  line_graph_ok 0 u l ltac:(lia) Hw) as Hu.
    lia.
Qed.

Lemma NoDup_12 : NoDup [1; 2].
Proof.
  repeat constructor; rewrite ?elem_of_cons, ?elem_of_nil; lia.
Qed.

Lemma NoDup_012 : NoDup [0; 1; 2].
Proof.
  repeat constructor; rewrite ?elem_of_cons, ?elem_of_nil; lia.
Qed.

(** The four claims about one search, on the line graph. *)

Lemma find_nearest_neighbours_nearest_witness :
  exists it s1 row s2,
    expand_phase 0 zinf Z.add Z.ltb line_graph scratch_init 0 1 = Ok (it, s1) /\
    zsearch line_graph scratch_init 0 1 = Ok (Some row, s2) /\
    length (take (Z.to_nat (it - 1)) row) = 1%nat.
Proof.
  destruct (find_nearest_neighbours_nearest
              0 zinf Z.add Z.ltb line_graph z_laws 3 line_graph_ok
              scratch_init 0 1 [1; 2])
    as (it & s1 & row & s2 & Hexp & Hrun & Hlen & _).
  - apply scratch_init_ok.
  - lia.
  - lia.
  - unfold max_vertices_. lia.
  - apply line_graph_short.
  - apply NoDup_12.
  - apply line_graph_others.
  - exists it, s1, row, s2. split; [exact Hexp|]. split; [exact Hrun|].
    exact Hlen.
Defined.

Lemma find_nearest_neighbours_distinct_witness :
  exists it s1 row s2,
    expand_phase 0 zinf Z.add Z.ltb line_graph scratch_init 0 2 = Ok (it, s1) /\
    zsearch line_graph scratch_init 0 2 = Ok (Some row, s2) /\
    NoDup (0 :: map fst (take (Z.to_nat (it - 1)) row)).
Proof.
  destruct (find_nearest_neighbours_distinct
              0 zinf Z.add Z.ltb line_graph z_laws 3 line_graph_ok
              scratch_init 0 2)
    as (it & s1 & row & s2 & Hexp & Hrun & _ & Hnd & _).
  - apply scratch_init_ok.
  - lia.
  - lia.
  - unfold max_vertices_. lia.
  - exists it, s1, row, s2. split; [exact Hexp|]. split; [exact Hrun|].
    exact Hnd.
Defined.

Lemma find_nearest_neighbours_terminates_witness :
  exists it s1 st row s2,
    expand zinf Z.add Z.ltb line_graph (Z.to_nat (5 + 1)) 5 0
           (fst (search_init 0 Z.ltb scratch_init 0))
           (snd (search_init 0 Z.ltb scratch_init 0)) = Ok (it, s1, st) /\
    zsearch line_graph scratch_init 0 5 = Ok (Some row, s2) /\
    it = 3 /\ st = [].
Proof.
  destruct (find_nearest_neighbours_terminates
              0 zinf Z.add Z.ltb line_graph z_laws 3 line_graph_ok
              scratch_init 0 5)
    as (it & s1 & st & row & s2 & Hexp & _ & Hrun & Hall).
  - apply scratch_init_ok.
  - lia.
  - lia.
  - unfold max_vertices_. lia.
  - destruct (Hall [0; 1; 2]) as (Hit & _ & Hst).
    + apply line_graph_short.
    + apply NoDup_012.
    + apply line_graph_all.
    + simpl. lia.
    + exists it, s1, st, row, s2. split; [exact Hexp|]. split; [exact Hrun|].
      split; [exact Hit|exact Hst].
Defined.

Lemma find_nearest_neighbours_padding_witness :
  exists it s1 row s2,
    expand_phase 0 zinf Z.add Z.ltb line_graph scratch_init 0 5 = Ok (it, s1) /\
    zsearch line_graph scratch_init 0 5 = Ok (Some row, s2) /\
    length row = 5%nat.
Proof.
  destruct (find_nearest_neighbours_padding
              0 zinf Z.add Z.ltb line_graph z_laws 3 line_graph_ok
              scratch_init 0 5)
    as (it & s1 & row & s2 & Hexp & Hrun & Hlen & _).
  - apply scratch_init_ok.
  - lia.
  - lia.
  - unfold max_vertices_. lia.
  - exists it, s1, row, s2. split; [exact Hexp|]. split; [exact Hrun|].
    exact Hlen.
Defined.

(** *** Padding past the last vertex *)

(** C6 fails on the code.  The line graph has the three vertices 0, 1, 2.
    A search from 0 for [K = 3] neighbours finds the two others, the scan
    for a placeholder runs past the last vertex, and the row ends in a
    record for the index 3, which is no vertex of the graph. *)
Lemma find_nearest_neighbours_pads_past_graph :
  number_of_verices line_graph = 3 /\
  printed (zsearch line_graph scratch_init 0 3)
    = Some [(1, 1); (2, 6); (3, zinf)].
Proof. split; vm_compute; reflexivity. Qed.

(** *** Two searches at once *)

(** C10 fails on the code.  Run alone, the search from vertex 0 for two
    neighbours prints the records of 1 and 2.  When the search from vertex
    2 runs between its expansion loop and its output, both calls work on
    the same arrays: the search from 0 prints what the search from 2 left
    there, a row that holds vertex 0 itself. *)
Lemma interleaved_searches_corrupt_row :
  printed (zsearch line_graph scratch_init 0 2) = Some [(1, 1); (2, 6)] /\
  interleaved 0 zinf Z.add Z.ltb line_graph scratch_init 0 2 2
    = Ok (Some [(1, 5); (0, 6)], Some [(1, 5); (0, 6)]).
Proof. split; vm_compute; reflexivity. Qed.

(** The loop of [main], run by one thread, on the line graph. *)
Lemma main_loop_line_graph :
  fst <$> (match main_loop 0 zinf Z.add Z.ltb line_graph scratch_init 2 [0; 1; 2]
           with Ok r => Some r | _ => None end)
  = Some [Some [(1, 1); (2, 6)]; Some [(0, 1); (2, 5)]; Some [(1, 5); (0, 6)]].
Proof. vm_compute. reflexivity. Qed.

(** A vertex without edges: no real record, the row is padding only. *)
Lemma isolated_vertex_row :
  printed (zsearch (Graph normalizer_init (fun _ => [])) scratch_init 1 3)
    = Some [(0, zinf); (2, zinf); (3, zinf)].
Proof. vm_compute. reflexivity. Qed.
(** ** From the build pass to the searches *)

(** The graph that [read_graph] builds satisfies what the search theorems
    assume of a graph, when the ids fit into the arrays and the transform
    gives positive distances on the weights of the input. *)
Lemma parsed_edges_ids (rows : list row) s d w :
  (s, d, w) ∈ parsed_edges rows ->
  s ∈ parsed_ids rows /\ d ∈ parsed_ids rows.
Proof.
  unfold parsed_edges, parsed_ids.
  rewrite !list_elem_of_In, !in_flat_map.
  intros (r & Hr & He). unfold row_edges in He.
  apply in_map_iff in He as (p & [= <- <- <-] & Hp).
  split; exists r; (split; [done|]); unfold row_ids.
  - by left.
  - right. apply in_map_iff. eauto.
Qed.

(** The number of vertices and the indices of the entries after a
    completed pass: an entry sits in a list and names a neighbour with
    indices from [0] to the number of ids minus two. *)
Lemma read_graph_entries {W : Type} (convert : Z -> W)
      (rows : list row) (g : @graph W) :
  read_graph convert graph_init rows = Ok g ->
  Z.of_nat (length (first_seen (parsed_ids rows))) <= int_max ->
  number_of_verices g = Z.of_nat (length (first_seen (parsed_ids rows))) /\
  forall i j x,
    (j, x) ∈ adj_list_ g i ->
    0 <= i < number_of_verices g - 1 /\ 0 <= j < number_of_verices g - 1.
Proof.
  intros Hread Hlen.
  pose proof (read_graph_inv convert rows graph_init [] g norm_inv_init
                ltac:(unfold first_seen in Hlen; lia) Hread) as Hinv.
  fold (first_seen (parsed_ids rows)) in Hinv.
  assert (HN : number_of_verices g =
               Z.of_nat (length (first_seen (parsed_ids rows)))).
  { unfold number_of_verices. rewrite (ni_size _ _ Hinv).
    apply to_int_small. unfold int_max in Hlen. lia. }
  split; [exact HN|].
  assert (Hidx : forall id, id ∈ parsed_ids rows ->
            index_of (vertex_num_to_normalized_num_ (normalizer_ g)) id
              < number_of_verices g - 1).
  { intros id Hid. apply elem_of_first_seen in Hid.
    apply (norm_inv_seen _ _ _ Hinv) in Hid as [k Hk].
    unfold index_of. rewrite Hk. simpl. rewrite HN.
    by eapply norm_inv_index_bound. }
  intros i j x Hin.
  pose proof (read_graph_slots convert rows g i _ Hread Hin) as Hi.
  pose proof (read_graph_mirror convert rows g i j x Hread Hin) as Hmir.
  pose proof (read_graph_slots convert rows g j _ Hread Hmir) as Hj.
  apply (read_graph_elem_of convert rows g i j x Hread) in Hin
    as ([[s d] rw] & He & Hc).
  destruct (parsed_edges_ids rows s d rw He) as [Hs Hd].
  unfold edge_contrib in Hc. simpl in Hc.
  pose proof (Hidx s Hs). pose proof (Hidx d Hd).
  apply (proj1 (elem_of_contrib convert _ _ _ _ _ _)) in Hc
    as [(<- & -> & _)|(<- & -> & _)]; lia.
Qed.

Lemma read_graph_graph_ok {D : Type} (dzero : D) (dlt : D -> D -> bool)
      (convert : Z -> D) (rows : list row) (g : @graph D) :
  read_graph convert graph_init rows = Ok g ->
  Z.of_nat (length (first_seen (parsed_ids rows))) <= max_vertices_ ->
  (forall s d w, (s, d, w) ∈ parsed_edges rows -> dlt dzero (convert w) = true) ->
  graph_ok dzero dlt g (number_of_verices g).
Proof.
  intros Hread Hcap Hpos.
  destruct (read_graph_entries convert rows g Hread) as [HN Hent].
  { unfold max_vertices_, int_max in *. lia. }
  split; [lia|].
  intros u to w Hu Hin. split.
  - destruct (Hent u to w Hin). lia.
  - apply (read_graph_elem_of convert rows g u to w Hread) in Hin
      as ([[s d] rw] & He & Hc).
    unfold edge_contrib in Hc. simpl in Hc.
    apply (proj1 (elem_of_contrib convert _ _ _ _ _ _)) in Hc
      as [(_ & _ & ->)|(_ & _ & ->)]; by eapply Hpos.
Qed.

(** ** The program, run by one thread *)

(** [main]: the build pass, then one search per vertex.  [members] is the
    scratch state the object starts with. *)
Definition main {D : Type} (dzero inf : D) (dadd : D -> D -> D)
           (dlt : D -> D -> bool) (convert : Z -> D) (members : @scratch D)
           (rows : list row) (num_of_neighbours : Z)
  : result (list (option (list (Z * D)))) :=
  g ← read_graph convert graph_init rows;
  '(outs, _) ← main_loop dzero inf dadd dlt g members num_of_neighbours
                         (seqZ 0 (number_of_verices g));
  Ok outs.

(** X16.  On an input with positive distances in which the first id takes
    part in no pair, and whose ids and [K] more slots fit into the
    arrays, the program, run by one thread on member arrays that hold no
    stamp above the timer, completes and prints one row of [K] entries
    for each of the indices [0 .. n-1], [n] the number of ids. *)
Lemma main_rows {D : Type} (dzero inf : D) (dadd : D -> D -> D)
      (dlt : D -> D -> bool) (convert : Z -> D) (members : @scratch D)
      (rows : list row) (K : Z) :
  dist_laws dzero inf dadd dlt ->
  scratch_ok members ->
  0 <= K ->
  let n := Z.of_nat (length (first_seen (parsed_ids rows))) in
  (forall s d w, (s, d, w) ∈ parsed_edges rows ->
     head (parsed_ids rows) <> Some s /\ head (parsed_ids rows) <> Some d) ->
  n + K <= max_vertices_ ->
  timer members + n < int_max ->
  (forall s d w, (s, d, w) ∈ parsed_edges rows -> dlt dzero (convert w) = true) ->
  exists outs,
    main dzero inf dadd dlt convert members rows K = Ok outs /\
    Z.of_nat (length outs) = n /\
    Forall (fun out => exists r, out = Some r /\ length r = Z.to_nat K) outs.
Proof.
  intros Hlaws Hmem HK n Hfirst Hcap Htimer Hpos.
  destruct (read_graph_completes convert rows Hfirst)
    as (g & Hread & Hinv); [subst n; lia|].
  assert (Hok : graph_ok dzero dlt g (number_of_verices g)).
  { apply (read_graph_graph_ok dzero dlt convert rows g Hread); [|done].
    subst n. lia. }
  assert (HN : number_of_verices g = n).
  { unfold number_of_verices. rewrite (ni_size _ _ Hinv).
    apply to_int_small. subst n. unfold max_vertices_ in Hcap. lia. }
  destruct (main_loop_rows dzero inf dadd dlt g Hlaws (number_of_verices g) Hok
              K (seqZ 0 (number_of_verices g)) members)
    as (outs & s' & Hloop & Hlen & Hall).
  - done.
  - done.
  - rewrite HN. done.
  - rewrite length_seqZ, HN. subst n. lia.
  - intros v Hv. apply elem_of_seqZ in Hv. lia.
  - exists outs. unfold main.
    rewrite Hread, result_bind_Ok, Hloop, result_bind_Ok.
    split; [done|]. split; [|done].
    rewrite Hlen, length_seqZ, HN. subst n. lia.
Qed.

(** ** More about the build pass *)

(** X1.  After a completed build pass [number_of_verices] returns the
    number of distinct ids of the input, destinations and rows without
    pairs included, and the table has an entry for exactly these ids. *)
Theorem number_of_verices_distinct_ids {W : Type} (convert : Z -> W)
        (rows : list row) (g : @graph W) :
  read_graph convert graph_init rows = Ok g ->
  Z.of_nat (length (first_seen (parsed_ids rows))) <= int_max ->
  number_of_verices g = Z.of_nat (length (first_seen (parsed_ids rows))) /\
  (forall id,
      id ∈ parsed_ids rows <->
      is_Some (vertex_num_to_normalized_num_ (normalizer_ g) !! id)).
Proof.
  intros Hread Hlen.
  pose proof (read_graph_inv convert rows graph_init [] g norm_inv_init
                ltac:(unfold first_seen in Hlen; lia) Hread) as Hinv.
  fold (first_seen (parsed_ids rows)) in Hinv.
  split.
  - unfold number_of_verices. rewrite (ni_size _ _ Hinv).
    apply to_int_small. unfold int_max in Hlen. lia.
  - intros id. rewrite <- (norm_inv_seen _ _ _ Hinv).
    symmetry. apply elem_of_first_seen.
Qed.

(** X2.  The mapping written by a completed build pass lists the distinct
    ids of the input in the order of their first occurrence, a row's
    source before its destinations, each once and against its position
    minus one: [-1] for the first id, [0] for the second, and so on; a
    line [id i] is in the mapping exactly when the table sends [id] to
    [i]. *)
Theorem read_graph_mapping_out {W : Type} (convert : Z -> W)
        (rows : list row) (g : @graph W) :
  read_graph convert graph_init rows = Ok g ->
  Z.of_nat (length (first_seen (parsed_ids rows))) <= int_max + 1 ->
  mapping_out_ (normalizer_ g) =
    imap (fun k id => (id, Z.of_nat k - 1)) (first_seen (parsed_ids rows)) /\
  (forall id i,
      (id, i) ∈ mapping_out_ (normalizer_ g) <->
      vertex_num_to_normalized_num_ (normalizer_ g) !! id = Some i).
Proof.
  intros Hread Hlen.
  pose proof (read_graph_inv convert rows graph_init [] g norm_inv_init
                Hlen Hread) as Hinv.
  fold (first_seen (parsed_ids rows)) in Hinv.
  split; [apply (ni_log _ _ Hinv)|].
  intros id i. rewrite (ni_log _ _ Hinv), (ni_lookup _ _ Hinv).
  rewrite elem_of_lookup_imap. split.
  - intros (k & id' & [= -> ->] & Hk). eauto.
  - intros (k & -> & Hk). eauto.
Qed.

(** X3.  In the graph of a completed build pass every entry of an
    adjacency list sits in a list and names a neighbour with an index
    from [0] to [number_of_verices - 2]: the list of the index
    [number_of_verices - 1], the last one that [main] searches, is
    empty. *)
Theorem read_graph_indices_valid {W : Type} (convert : Z -> W)
        (rows : list row) (g : @graph W) :
  read_graph convert graph_init rows = Ok g ->
  Z.of_nat (length (first_seen (parsed_ids rows))) <= int_max ->
  (forall i j x,
      (j, x) ∈ adj_list_ g i ->
      0 <= i < number_of_verices g - 1 /\ 0 <= j < number_of_verices g - 1) /\
  adj_list_ g (number_of_verices g - 1) = [].
Proof.
  intros Hread Hlen.
  destruct (read_graph_entries convert rows g Hread Hlen) as [_ Hent].
  split; [exact Hent|].
  destruct (adj_list_ g (number_of_verices g - 1)) as [|[j x] l] eqn:Hadj;
    [done|].
  destruct (Hent (number_of_verices g - 1) j x); [|lia].
  rewrite Hadj. by left.
Qed.

(** X4.  [read_graph] does not check the indices it uses as subscripts of
    [adj_list_].  The first id of the input has the index [-1]: when it
    takes part in a pair, the [push_back] goes to [adj_list_[-1]] and the
    pass does not complete.  The same holds of an id that is the 60002nd
    distinct id or a later one, whose index is [max_vertices_] or
    more. *)
Theorem read_graph_out_of_bounds {W : Type} (convert : Z -> W)
        (rows : list row) (s d w : Z) (k : nat) :
  Z.of_nat (length (first_seen (parsed_ids rows))) <= int_max + 1 ->
  (s, d, w) ∈ parsed_edges rows ->
  first_seen (parsed_ids rows) !! k = Some s \/
  first_seen (parsed_ids rows) !! k = Some d ->
  k = 0%nat \/ max_vertices_ < Z.of_nat k ->
  read_graph convert graph_init rows = Undefined.
Proof.
  intros Hlen He Hk Hbig.
  destruct (read_graph convert graph_init rows) as [g| |] eqn:Hread;
    [exfalso|done|by apply read_graph_no_timeout in Hread].
  pose proof (read_graph_inv convert rows graph_init [] g norm_inv_init
                Hlen Hread) as Hinv.
  fold (first_seen (parsed_ids rows)) in Hinv.
  destruct (read_graph_stores convert rows g s d w Hread He) as [H1 H2].
  apply (read_graph_slots convert rows g _ _ Hread) in H1, H2.
  assert (Hidx : forall id, first_seen (parsed_ids rows) !! k = Some id ->
            index_of (vertex_num_to_normalized_num_ (normalizer_ g)) id
            = Z.of_nat k - 1).
  { intros id Hid. unfold index_of.
    rewrite (proj2 (ni_lookup _ _ Hinv id (Z.of_nat k - 1))) by eauto. done. }
  destruct Hk as [Hk|Hk]; apply Hidx in Hk; lia.
Qed.

(** X5.  The graph of a completed build pass is undirected: whenever a
    vertex reaches another, that one reaches it back, so that
    reachability divides the vertices into components. *)
Theorem read_graph_reachable_sym {D : Type} (dzero : D) (dadd : D -> D -> D)
        (convert : Z -> D) (rows : list row) (g : @graph D) :
  read_graph convert graph_init rows = Ok g ->
  (forall v, reachable dzero dadd g v v) /\
  (forall v u, reachable dzero dadd g v u -> reachable dzero dadd g u v) /\
  (forall v u x,
      reachable dzero dadd g v u -> reachable dzero dadd g u x ->
      reachable dzero dadd g v x).
Proof.
  intros Hread. split; [|split].
  - intros v. eexists. constructor.
  - intros v u. apply reachable_sym.
    intros i j x. by apply (read_graph_mirror convert rows).
  - intros v u x. apply reachable_trans.
Qed.

(** X6.  For a positive raw weight (with [w + 1] an [int]) the transform
    gives a finite distance strictly between 0 and 200. *)
Theorem convert_edge_w_to_weight_bounded (w : Z) :
  0 < w -> w < int_max ->
  exists r : R, convert_edge_w_to_weight w = DFin r /\ (0 < r < 200)%R.
Proof.
  intros Hpos Hmax.
  destruct (convert_edge_w_to_weight_pos_eq w Hpos Hmax) as [Heq Hln].
  exists (100 / ln (IZR (w + 1)))%R. split; [exact Heq|].
  assert (Hhalf : (/ 2 < ln (IZR (w + 1)))%R).
  { destruct (Z.eq_dec w 1) as [->|Hne].
    - change (IZR (1 + 1)) with 2%R. apply ln_lt_2.
    - eapply Rlt_trans; [apply ln_lt_2|].
      apply ln_increasing; [lra|]. apply IZR_lt. lia. }
  split.
  - apply Rdiv_lt_0_compat; lra.
  - apply (Rmult_lt_reg_r (ln (IZR (w + 1)))); [exact Hln|].
    unfold Rdiv. rewrite Rmult_assoc, Rinv_l by lra. lra.
Qed.

(** ** The extra properties on concrete inputs *)

(** A scratch state that earlier searches have used. *)
Definition scratch_used : @scratch Z :=
  Scratch 5 (fun _ => 5) (fun _ => 7) (fun _ => 9).

Lemma scratch_used_ok : scratch_ok scratch_used.
Proof. split; simpl; unfold int_max; intros; lia. Qed.

(** The graph without edges. *)
Definition no_edges : @graph Z := Graph normalizer_init (fun _ => []).

Lemma no_edges_ok : graph_ok 0 Z.ltb no_edges 2.
Proof.
  split.
  - unfold max_vertices_. lia.
  - intros u to w _ Hin. by apply elem_of_nil in Hin.
Qed.


Lemma number_of_verices_distinct_ids_witness :
  exists g,
    read_graph convert_edge_w_to_weight graph_init sample_rows = Ok g /\
    number_of_verices g = 4.
Proof.
  eexists. split; [reflexivity|].
  destruct (number_of_verices_distinct_ids convert_edge_w_to_weight
              sample_rows _ eq_refl) as [H _].
  - vm_compute. discriminate.
  - rewrite H. reflexivity.
Defined.

Lemma read_graph_mapping_out_witness :
  exists g,
    read_graph convert_edge_w_to_weight graph_init sample_rows = Ok g /\
    mapping_out_ (normalizer_ g) = [(5, -1); (10, 0); (20, 1); (30, 2)].
Proof.
  eexists. split; [reflexivity|].
  destruct (read_graph_mapping_out convert_edge_w_to_weight
              sample_rows _ eq_refl) as [H _].
  - vm_compute. discriminate.
  - rewrite H. reflexivity.
Defined.

Lemma read_graph_indices_valid_witness :
  exists g,
    read_graph (fun w : Z => w) graph_init sample_rows = Ok g /\
    number_of_verices g = 4 /\
    adj_list_ g (number_of_verices g - 1) = [].
Proof.
  eexists. split; [reflexivity|]. split; [reflexivity|].
  apply (read_graph_indices_valid (fun w : Z => w) sample_rows _ eq_refl).
  vm_compute. discriminate.
Defined.

(** The input of the two rows [10: 20,9] and [20: 30,9]: its first id
    opens a pair. *)
Lemma read_graph_out_of_bounds_witness :
  read_graph convert_edge_w_to_weight graph_init
             [(10, [(20, 9)]); (20, [(30, 9)])] = Undefined.
Proof.
  apply (read_graph_out_of_bounds convert_edge_w_to_weight
           [(10, [(20, 9)]); (20, [(30, 9)])] 10 20 9 0).
  - vm_compute. discriminate.
  - apply list_elem_of_In. simpl. by left.
  - left. reflexivity.
  - by left.
Defined.

Lemma read_graph_reachable_sym_witness :
  exists g,
    read_graph (fun w : Z => w) graph_init sample_rows = Ok g /\
    reachable 0 Z.add g 2 0.
Proof.
  eexists. split; [reflexivity|].
  destruct (read_graph_reachable_sym 0 Z.add (fun w : Z => w) sample_rows _ eq_refl)
    as (_ & Hsym & _).
  apply Hsym. exists (0 + 9 + 9).
  eapply walk_step; [eapply walk_step; [apply walk_nil|]|].
  - vm_compute. apply list_elem_of_singleton. reflexivity.
  - vm_compute. apply elem_of_cons. right. apply list_elem_of_singleton.
    reflexivity.
Defined.

Lemma convert_edge_w_to_weight_bounded_witness :
  exists r : R, convert_edge_w_to_weight 9 = DFin r /\ (0 < r < 200)%R.
Proof. apply (convert_edge_w_to_weight_bounded 9); unfold int_max; lia. Defined.

Lemma find_nearest_neighbours_scratch_independent_witness :
  exists r s2 s2',
    zsearch line_graph scratch_init 0 2 = Ok (Some r, s2) /\
    zsearch line_graph scratch_used 0 2 = Ok (Some r, s2') /\
    length r = Z.to_nat 2.
Proof.
  apply (find_nearest_neighbours_scratch_independent
           0 zinf Z.add Z.ltb line_graph z_laws 3 line_graph_ok
           scratch_init scratch_used 0 2).
  - apply scratch_init_ok.
  - apply scratch_used_ok.
  - lia.
  - lia.
  - unfold max_vertices_. lia.
Defined.

Lemma main_loop_rows_independent_witness :
  exists outs s',
    main_loop 0 zinf Z.add Z.ltb line_graph scratch_used 2 [0; 1; 2]
      = Ok (outs, s') /\
    Forall2 (fun v out => exists s2, zsearch line_graph scratch_init v 2 = Ok (out, s2))
            [0; 1; 2] outs.
Proof.
  apply (main_loop_rows_independent
           0 zinf Z.add Z.ltb line_graph z_laws 3 line_graph_ok
           scratch_init 2 [0; 1; 2] scratch_used).
  - apply scratch_init_ok.
  - apply scratch_used_ok.
  - lia.
  - unfold max_vertices_. lia.
  - simpl. unfold int_max. lia.
  - intros v Hv. rewrite !elem_of_cons, elem_of_nil in Hv. lia.
Defined.

Lemma find_nearest_neighbours_isolated_witness :
  exists s2,
    zsearch no_edges scratch_init 1 3 =
    Ok (Some (map (fun p => (p, zinf))
                  (take (Z.to_nat 3)
                        (filter (fun i => i <> 1) (seqZ 0 max_vertices_)))),
        s2).
Proof.
  apply (find_nearest_neighbours_isolated
           0 zinf Z.add Z.ltb no_edges z_laws 2 no_edges_ok scratch_init 1 3).
  - apply scratch_init_ok.
  - lia.
  - lia.
  - unfold max_vertices_. lia.
  - reflexivity.
Defined.

Lemma find_nearest_neighbours_placeholder_distance_witness :
  exists it s1 r s2,
    expand_phase 0 zinf Z.add Z.ltb line_graph scratch_init 0 5 = Ok (it, s1) /\
    zsearch line_graph scratch_init 0 5 = Ok (Some r, s2) /\
    (forall p d, (p, d) ∈ drop (Z.to_nat (it - 1)) r -> d = zinf).
Proof.
  destruct (find_nearest_neighbours_placeholder_distance
              0 zinf Z.add Z.ltb line_graph z_laws 3 line_graph_ok
              scratch_init 0 5)
    as (it & s1 & r & s2 & Hexp & Hrun & _ & Hpad & _).
  - apply scratch_init_ok.
  - lia.
  - lia.
  - unfold max_vertices_. lia.
  - exists it, s1, r, s2. split; [exact Hexp|]. split; [exact Hrun|exact Hpad].
Defined.

Lemma find_nearest_neighbours_touches_reachable_witness :
  exists out s2,
    zsearch line_graph scratch_init 0 2 = Ok (out, s2) /\
    timer s2 = 1 /\
    forall y, current_time_ s2 y = timer s2 -> 0 <= y < 3.
Proof.
  destruct (zsearch line_graph scratch_init 0 2) as [[out s2]| |] eqn:Hrun;
    [|vm_compute in Hrun; discriminate..].
  exists out, s2. split; [reflexivity|].
  destruct (find_nearest_neighbours_touches_reachable
              0 zinf Z.add Z.ltb line_graph z_laws 3 line_graph_ok
              scratch_init 0 2 out s2)
    as (Ht & _ & Hst & _).
  - apply scratch_init_ok.
  - lia.
  - lia.
  - unfold max_vertices_. lia.
  - exact Hrun.
  - split; [exact Ht|]. intros y Hy. by apply Hst.
Defined.

Lemma find_nearest_neighbours_negative_witness :
  zsearch line_graph scratch_init 0 (-3) =
  Ok (None, fst (search_init 0 Z.ltb scratch_init 0)).
Proof.
  apply (find_nearest_neighbours_negative 0 zinf Z.add Z.ltb line_graph
           scratch_init 0 (-3)).
  - reflexivity.
  - lia.
Defined.

Lemma find_nearest_neighbours_more_neighbours_witness :
  exists it s1 r s2 r' s2',
    expand_phase 0 zinf Z.add Z.ltb line_graph scratch_init 0 1 = Ok (it, s1) /\
    zsearch line_graph scratch_init 0 1 = Ok (Some r, s2) /\
    zsearch line_graph scratch_init 0 2 = Ok (Some r', s2') /\
    take (Z.to_nat (it - 1)) r' = take (Z.to_nat (it - 1)) r.
Proof.
  apply (find_nearest_neighbours_more_neighbours
           0 zinf Z.add Z.ltb line_graph z_laws 3 line_graph_ok
           scratch_init 0 1 2).
  - apply scratch_init_ok.
  - lia.
  - lia.
  - lia.
  - unfold max_vertices_. lia.
Defined.

Lemma find_nearest_neighbours_row_distinct_witness :
  exists r s2,
    zsearch line_graph scratch_init 0 5 = Ok (Some r, s2) /\
    NoDup (0 :: map fst r) /\
    (forall p, p ∈ map fst r -> 0 <= p < max_vertices_).
Proof.
  apply (find_nearest_neighbours_row_distinct
           0 zinf Z.add Z.ltb line_graph z_laws 3 line_graph_ok
           scratch_init 0 5).
  - apply scratch_init_ok.
  - lia.
  - lia.
  - unfold max_vertices_. lia.
Defined.

Lemma find_nearest_neighbours_row_leaves_graph_witness :
  exists r s2,
    zsearch line_graph scratch_init 0 3 = Ok (Some r, s2) /\
    exists p d, (p, d) ∈ r /\ 3 <= p.
Proof.
  apply (find_nearest_neighbours_row_leaves_graph
           0 zinf Z.add Z.ltb line_graph z_laws 3 line_graph_ok
           scratch_init 0 3).
  - apply scratch_init_ok.
  - lia.
  - lia.
  - unfold max_vertices_. lia.
  - lia.
Defined.

Lemma main_rows_witness :
  exists outs,
    main 0 zinf Z.add Z.ltb (fun w : Z => w) scratch_init sample_rows 2
      = Ok outs /\
    Z.of_nat (length outs) = 4 /\
    Forall (fun out => exists r, out = Some r /\ length r = Z.to_nat 2) outs.
Proof.
  apply (main_rows 0 zinf Z.add Z.ltb (fun w : Z => w) scratch_init
           sample_rows 2).
  - apply z_laws.
  - apply scratch_init_ok.
  - lia.
  - intros s d w Hin. apply list_elem_of_In in Hin. simpl in Hin.
    destruct Hin as [[= <- <- _]|[[= <- <- _]|[]]]; split; discriminate.
  - vm_compute. discriminate.
  - vm_compute. reflexivity.
  - intros s d w Hin. apply list_elem_of_In in Hin. simpl in Hin.
    destruct Hin as [[= _ _ <-]|[[= _ _ <-]|[]]]; reflexivity.
Defined.
